(** * Super-Star-IPTV: playback resilience controller, watch history, series grouping

    A shallow embedding of
      - the strategy catalog, the connection state machine and the stall
        watchdog of [components/VideoPlayer.tsx],
      - [addToHistory] of [App.tsx],
      - [processSeries] of [services/dataProcessor.ts],
    together with the properties the specification states about them; and of
      - seeking in the player,
      - [sortChannels] and [sortSeries] of [services/dataProcessor.ts],
      - [parseM3U] and [detectType] of [services/m3uParser.ts],
      - [fetchPlaylist] and the Xtream address of [App.tsx],
      - the category lists and filters of [components/ChannelList.tsx] and
        [components/Dashboard.tsx],
    with properties read off the code. *)

From Stdlib Require Import List NArith ZArith QArith Bool Lia Ascii String Permutation.
From Stdlib Require Import Sorted SpecFloat.
From Stdlib Require DecimalN DecimalFacts.
Import ListNotations.
Close Scope Q_scope.

(** ** JavaScript strings

    A JavaScript string is a sequence of UTF-16 code units.  The built-ins the
    program calls on strings are written out on that representation. *)
Module Js.

Local Open Scope N_scope.

Definition jsstring := list N.

(** A source-code literal (ASCII only in this program). *)
Definition lit (s : string) : jsstring := map N_of_ascii (list_ascii_of_string s).

Definition jseq (a b : jsstring) : bool :=
  if list_eq_dec N.eq_dec a b then true else false.

Definition inRange (lo hi c : N) : bool := (N.leb lo c && N.leb c hi)%bool.

(** WhiteSpace and LineTerminator of ECMA-262: what [trim] strips and what
    [\s] matches. *)
Definition isWhiteSpace (c : N) : bool :=
  (inRange 9 13 c || N.eqb c 32 || N.eqb c 160 || N.eqb c 5760
   || inRange 8192 8202 c || N.eqb c 8232 || N.eqb c 8233 || N.eqb c 8239
   || N.eqb c 8287 || N.eqb c 12288 || N.eqb c 65279)%bool.

Fixpoint trimStart (s : jsstring) : jsstring :=
  match s with
  | c :: r => if isWhiteSpace c then trimStart r else s
  | [] => []
  end.

Definition trimEnd (s : jsstring) : jsstring := rev (trimStart (rev s)).

(** [s.trim()] *)
Definition trim (s : jsstring) : jsstring := trimEnd (trimStart s).

(** [s.startsWith(p)] *)
Fixpoint startsWith (s p : jsstring) {struct p} : bool :=
  match p, s with
  | [], _ => true
  | a :: p', b :: s' => (N.eqb a b && startsWith s' p')%bool
  | _ :: _, [] => false
  end.

(** [s.includes(p)] *)
Fixpoint includes (s p : jsstring) : bool :=
  (startsWith s p ||
   match s with
   | [] => false
   | _ :: s' => includes s' p
   end)%bool.

(** [s.replace(p, r)] for a string pattern [p] and a replacement [r] without
    [$]: the first occurrence of [p] is replaced, nothing else. *)
Fixpoint replace (s p r : jsstring) : jsstring :=
  if startsWith s p then r ++ skipn (List.length p) s
  else match s with
       | [] => []
       | c :: s' => c :: replace s' p r
       end.

(** *** [encodeURIComponent] *)

Definition isAlnum (c : N) : bool :=
  (inRange 48 57 c || inRange 65 90 c || inRange 97 122 c)%bool.

(** The characters [encodeURIComponent] leaves alone: alphanumerics and
    [- _ . ! ~ * ' ( )]. *)
Definition uriUnreserved (c : N) : bool :=
  (isAlnum c || existsb (N.eqb c) [45; 95; 46; 33; 126; 42; 39; 40; 41])%bool.

Definition isLeadSurrogate (c : N) : bool := inRange 55296 56319 c.
Definition isTrailSurrogate (c : N) : bool := inRange 56320 57343 c.

Definition utf8 (cp : N) : list N :=
  if N.ltb cp 128 then [cp]
  else if N.ltb cp 2048 then [192 + cp / 64; 128 + cp mod 64]
  else if N.ltb cp 65536 then
    [224 + cp / 4096; 128 + (cp / 64) mod 64; 128 + cp mod 64]
  else [240 + cp / 262144; 128 + (cp / 4096) mod 64;
        128 + (cp / 64) mod 64; 128 + cp mod 64].

Definition hexDigit (d : N) : N := if N.ltb d 10 then 48 + d else 55 + d.

Definition percent (octets : list N) : jsstring :=
  flat_map (fun o => [37; hexDigit (o / 16); hexDigit (o mod 16)]) octets.

(** [None] stands for the [URIError] thrown on an unpaired surrogate. *)
Fixpoint encodeURIComponent (s : jsstring) : option jsstring :=
  match s with
  | [] => Some []
  | c :: r =>
      if uriUnreserved c then option_map (cons c) (encodeURIComponent r)
      else if isTrailSurrogate c then None
      else if isLeadSurrogate c then
        match r with
        | d :: r' =>
            if isTrailSurrogate d then
              option_map
                (app (percent (utf8 ((c - 55296) * 1024 + (d - 56320) + 65536))))
                (encodeURIComponent r')
            else None
        | [] => None
        end
      else option_map (app (percent (utf8 c))) (encodeURIComponent r)
  end.

(** *** Vocabulary of the properties *)

(** [p] occurs in [s]. *)
Definition occursIn (p s : jsstring) : Prop := exists a b, s = a ++ p ++ b.

(** No white space at either end. *)
Definition trimmed (s : jsstring) : Prop :=
  (forall c r, s = c :: r -> isWhiteSpace c = false) /\
  (forall c r, s = r ++ [c] -> isWhiteSpace c = false).

Definition blank (s : jsstring) : Prop := Forall (fun c => isWhiteSpace c = true) s.

End Js.

Import Js.

(** ** JavaScript numbers

    A Number is an IEEE 754 binary64 value.  The operations are those of
    [SpecFloat], at precision 53 and maximal exponent 1024, which round to
    nearest, ties to even, as ECMA-262 asks. *)
Module Double.

Definition double := spec_float.

Definition prec : Z := 53.
Definition emax : Z := 1024.

(** [x + y] *)
Definition add (x y : double) : double := SFadd prec emax x y.

(** [x / y] *)
Definition div (x y : double) : double := SFdiv prec emax x y.

(** The Number nearest to [m * 2^e]. *)
Definition dyadic (m e : Z) : double := binary_normalize prec emax m e false.

(** The Number value of an integer. *)
Definition ofZ (n : Z) : double := dyadic n 0.

Definition zero : double := S754_zero false.
Definition infinity : double := S754_infinity false.

(** The literal [0.5]. *)
Definition half : double := Eval cbv in dyadic 1 (-1).

Definition isNaN (x : double) : bool :=
  match x with
  | S754_nan => true
  | _ => false
  end.

(** Neither [NaN] nor an infinity. *)
Definition isFinite (x : double) : bool :=
  match x with
  | S754_zero _ | S754_finite _ _ _ => true
  | _ => false
  end.

(** [x <= y] and [x < y]; both are false when an operand is [NaN]. *)
Definition leb (x y : double) : bool := SFleb x y.
Definition ltb (x y : double) : bool := SFltb x y.

(** [Math.max(x, y)]: [NaN] if an operand is; [+0] counts as larger than
    [-0]. *)
Definition maximum (x y : double) : double :=
  match SFcompare x y with
  | None => S754_nan
  | Some Lt => y
  | Some Gt => x
  | Some Eq =>
      match x with
      | S754_zero true => y
      | _ => x
      end
  end.

(** [Math.min(x, y)]: [NaN] if an operand is; [-0] counts as smaller than
    [+0]. *)
Definition minimum (x y : double) : double :=
  match SFcompare x y with
  | None => S754_nan
  | Some Lt => x
  | Some Gt => y
  | Some Eq =>
      match x with
      | S754_zero false => y
      | _ => x
      end
  end.

(** The same Number: structural equality of the representations. *)
Definition same (x y : double) : bool :=
  match x, y with
  | S754_zero a, S754_zero b => Bool.eqb a b
  | S754_infinity a, S754_infinity b => Bool.eqb a b
  | S754_nan, S754_nan => true
  | S754_finite a m e, S754_finite b n f =>
      (Bool.eqb a b && Pos.eqb m n && Z.eqb e f)%bool
  | _, _ => false
  end.

Arguments add x y : simpl never.
Arguments isFinite !x.

(** The exact value of a finite Number, as a rational. *)
Definition valueOf (x : double) : option Q :=
  match x with
  | S754_zero _ => Some 0%Q
  | S754_finite sign m e =>
      Some (inject_Z (if sign then Z.neg m else Z.pos m) * Qpower 2 e)%Q
  | _ => None
  end.

End Double.

(** ** The strategy catalog ([STRATEGIES]) *)
Module Catalog.

Inductive Mode := HLS | NATIVE.

Record ConnectionStrategy := mkStrategy {
  name : jsstring;
  mode : Mode;
  (** [None]: the transform threw ([encodeURIComponent] on a malformed string). *)
  transform : jsstring -> option jsstring
}.

(** 1. Direct Connection *)
Definition transformDirect (u : jsstring) : jsstring :=
  let url := trim u in
  if includes url (lit "output=ts") then replace url (lit "output=ts") (lit "output=m3u8")
  else if (negb (includes url (lit ".m3u8")) && negb (includes url (lit ".mp4"))
           && negb (includes url (lit "?")))%bool
       then url ++ lit ".m3u8"
       else url.

(** 2. Gateway 1 (Cloud) *)
Definition transformGateway1 (u : jsstring) : option jsstring :=
  let url := trim u in
  let url :=
    if includes url (lit "output=ts") then replace url (lit "output=ts") (lit "output=m3u8")
    else if (negb (includes url (lit ".m3u8")) && negb (includes url (lit ".mp4"))
             && negb (includes url (lit "?")))%bool
         then url ++ lit ".m3u8"
         else url in
  option_map (app (lit "https://corsproxy.io/?")) (encodeURIComponent url).

(** 3. Gateway 2 (Mirror) *)
Definition transformGateway2 (u : jsstring) : option jsstring :=
  let url := trim u in
  let url :=
    if includes url (lit "output=ts") then replace url (lit "output=ts") (lit "output=m3u8")
    else url in
  option_map (app (lit "https://api.codetabs.com/v1/proxy?quest="))
             (encodeURIComponent url).

(** 4. Native Player *)
Definition transformNative (u : jsstring) : jsstring := trim u.

Definition directStrategy : ConnectionStrategy :=
  mkStrategy (lit "Direct Connection") HLS (fun u => Some (transformDirect u)).

Definition nativeStrategy : ConnectionStrategy :=
  mkStrategy (lit "Native Player") NATIVE (fun u => Some (transformNative u)).

Definition STRATEGIES : list ConnectionStrategy :=
  [ directStrategy;
    mkStrategy (lit "Gateway 1 (Cloud)") HLS transformGateway1;
    mkStrategy (lit "Gateway 2 (Mirror)") HLS transformGateway2;
    nativeStrategy ].

(** [STRATEGIES[i]] for a numeric index; [None] is JavaScript's [undefined]. *)
Definition strategyAt (i : Z) : option ConnectionStrategy :=
  if (i <? 0)%Z then None else nth_error STRATEGIES (Z.to_nat i).

(** The [useState] initialiser of [strategyIndex].  [window] is
    [window.location.protocol] when a [window] exists. *)
Definition initialStrategyIndex (window : option jsstring) (url : jsstring) : Z :=
  match window with
  | Some protocol =>
      if (jseq protocol (lit "https:") && startsWith url (lit "http:"))%bool
      then 1%Z   (* Skip Direct *)
      else 0%Z
  | None => 0%Z
  end.

(** The mixed-origin guard, on Prop level. *)
Definition secureContext (window : option jsstring) : Prop :=
  window = Some (lit "https:").

Definition insecureAddress (url : jsstring) : Prop :=
  exists rest, url = lit "http:" ++ rest.

End Catalog.

(** ** The connection controller ([VideoPlayer])

    The component is a state machine driven by callbacks: sink signals, timer
    callbacks and caller requests, each of which runs to completion.  The state
    below holds the React state variables, the refs, the part of the video
    element the controller reads or writes, the pending timers, and a trace of
    the calls made on the sink.  State updates made by one callback are
    committed together, and the main effect runs again when one of its
    dependencies changed.  Presentation-only state (controls overlay, mute
    button, debug message) is read by no transition and is left out.

    Counters and the clock are integers ([Z], milliseconds for the clock);
    the playback position is a Number, in seconds.  An exception
    escaping a callback or the effect unmounts the component, after which no
    callback changes the state. *)
Module Player.

Import Catalog Double.

Local Open Scope Z_scope.

(** [data.type] of a fatal hls.js error.  [OTHER_ERROR] stands for every type
    the [switch] sends to [default]. *)
Inductive ErrorType := NETWORK_ERROR | MEDIA_ERROR | OTHER_ERROR.

(** [hlsRef.current]: [null], a live instance, or an instance on which
    [destroy()] was called while the ref still points to it. *)
Inductive HlsRef := NoHls | HlsLive | HlsDestroyed.

Inductive SinkCall :=
| HlsLoadSource (effectiveUrl : jsstring)  (* new Hls; loadSource; attachMedia *)
| HlsStartLoad
| HlsRecoverMediaError
| HlsDestroy
| VideoSetSrc (effectiveUrl : jsstring)    (* video.src = ...; load(); play() *)
| VideoUnload.                             (* removeAttribute('src'); load() *)

Inductive Callback :=
| CbCooldown                       (* the 3000 ms timeout of attemptNextStrategy *)
| CbNativeError                    (* the 1000 ms timeout of onNativeError *)
| CbWatchdog (isLoading : bool).   (* the 5000 ms interval; [isLoading] is the
                                      value its closure captured *)

Record Timer := mkTimer { due : Z; cb : Callback }.

(** The dependencies of the main effect that can change:
    [url, strategyIndex, isReconnecting, retryCount].  [attemptNextStrategy]
    changes identity exactly when [strategyIndex] does, [handleStall] never,
    and the other props are held fixed. *)
Record Deps := mkDeps {
  d_url : jsstring;
  d_strategyIndex : Z;
  d_isReconnecting : bool;
  d_retryCount : Z
}.

Record State := mkState {
  url : jsstring;            (* the [url] prop *)
  hlsSupported : bool;       (* [Hls.isSupported()], fixed by the browser *)
  isPlaying : bool;
  isLoading : bool;
  error : option jsstring;
  retryCount : Z;
  isReconnecting : bool;
  strategyIndex : Z;
  currentTime : double;      (* [video.currentTime], in seconds *)
  paused : bool;             (* [video.paused] *)
  readyState : Z;            (* [video.readyState] *)
  hlsRef : HlsRef;           (* [hlsRef.current] *)
  now : Z;                   (* the clock of the event loop, in milliseconds *)
  timers : list Timer;       (* pending timeouts and intervals, oldest first *)
  calls : list SinkCall;     (* what was asked of the sink so far, oldest first *)
  lastDeps : Deps;           (* dependency values at the last run of the main effect *)
  effectMode : Mode;         (* the branch that run took *)
  mounted : bool             (* cleared when a render or an effect threw *)
}.

Definition set_url (v : jsstring) (s : State) : State :=
  mkState v (hlsSupported s) (isPlaying s) (isLoading s) (error s)
    (retryCount s) (isReconnecting s) (strategyIndex s) (currentTime s)
    (paused s) (readyState s) (hlsRef s) (now s) (timers s) (calls s)
    (lastDeps s) (effectMode s) (mounted s).

Definition set_isPlaying (v : bool) (s : State) : State :=
  mkState (url s) (hlsSupported s) v (isLoading s) (error s) (retryCount s)
    (isReconnecting s) (strategyIndex s) (currentTime s) (paused s)
    (readyState s) (hlsRef s) (now s) (timers s) (calls s) (lastDeps s)
    (effectMode s) (mounted s).

Definition set_isLoading (v : bool) (s : State) : State :=
  mkState (url s) (hlsSupported s) (isPlaying s) v (error s) (retryCount s)
    (isReconnecting s) (strategyIndex s) (currentTime s) (paused s)
    (readyState s) (hlsRef s) (now s) (timers s) (calls s) (lastDeps s)
    (effectMode s) (mounted s).

Definition set_error (v : option jsstring) (s : State) : State :=
  mkState (url s) (hlsSupported s) (isPlaying s) (isLoading s) v
    (retryCount s) (isReconnecting s) (strategyIndex s) (currentTime s)
    (paused s) (readyState s) (hlsRef s) (now s) (timers s) (calls s)
    (lastDeps s) (effectMode s) (mounted s).

Definition set_retryCount (v : Z) (s : State) : State :=
  mkState (url s) (hlsSupported s) (isPlaying s) (isLoading s) (error s) v
    (isReconnecting s) (strategyIndex s) (currentTime s) (paused s)
    (readyState s) (hlsRef s) (now s) (timers s) (calls s) (lastDeps s)
    (effectMode s) (mounted s).

Definition set_isReconnecting (v : bool) (s : State) : State :=
  mkState (url s) (hlsSupported s) (isPlaying s) (isLoading s) (error s)
    (retryCount s) v (strategyIndex s) (currentTime s) (paused s)
    (readyState s) (hlsRef s) (now s) (timers s) (calls s) (lastDeps s)
    (effectMode s) (mounted s).

Definition set_strategyIndex (v : Z) (s : State) : State :=
  mkState (url s) (hlsSupported s) (isPlaying s) (isLoading s) (error s)
    (retryCount s) (isReconnecting s) v (currentTime s) (paused s)
    (readyState s) (hlsRef s) (now s) (timers s) (calls s) (lastDeps s)
    (effectMode s) (mounted s).

Definition set_currentTime (v : double) (s : State) : State :=
  mkState (url s) (hlsSupported s) (isPlaying s) (isLoading s) (error s)
    (retryCount s) (isReconnecting s) (strategyIndex s) v (paused s)
    (readyState s) (hlsRef s) (now s) (timers s) (calls s) (lastDeps s)
    (effectMode s) (mounted s).

Definition set_paused (v : bool) (s : State) : State :=
  mkState (url s) (hlsSupported s) (isPlaying s) (isLoading s) (error s)
    (retryCount s) (isReconnecting s) (strategyIndex s) (currentTime s) v
    (readyState s) (hlsRef s) (now s) (timers s) (calls s) (lastDeps s)
    (effectMode s) (mounted s).

Definition set_readyState (v : Z) (s : State) : State :=
  mkState (url s) (hlsSupported s) (isPlaying s) (isLoading s) (error s)
    (retryCount s) (isReconnecting s) (strategyIndex s) (currentTime s)
    (paused s) v (hlsRef s) (now s) (timers s) (calls s) (lastDeps s)
    (effectMode s) (mounted s).

Definition set_hlsRef (v : HlsRef) (s : State) : State :=
  mkState (url s) (hlsSupported s) (isPlaying s) (isLoading s) (error s)
    (retryCount s) (isReconnecting s) (strategyIndex s) (currentTime s)
    (paused s) (readyState s) v (now s) (timers s) (calls s) (lastDeps s)
    (effectMode s) (mounted s).

Definition set_now (v : Z) (s : State) : State :=
  mkState (url s) (hlsSupported s) (isPlaying s) (isLoading s) (error s)
    (retryCount s) (isReconnecting s) (strategyIndex s) (currentTime s)
    (paused s) (readyState s) (hlsRef s) v (timers s) (calls s) (lastDeps s)
    (effectMode s) (mounted s).

Definition set_timers (v : list Timer) (s : State) : State :=
  mkState (url s) (hlsSupported s) (isPlaying s) (isLoading s) (error s)
    (retryCount s) (isReconnecting s) (strategyIndex s) (currentTime s)
    (paused s) (readyState s) (hlsRef s) (now s) v (calls s) (lastDeps s)
    (effectMode s) (mounted s).

Definition set_calls (v : list SinkCall) (s : State) : State :=
  mkState (url s) (hlsSupported s) (isPlaying s) (isLoading s) (error s)
    (retryCount s) (isReconnecting s) (strategyIndex s) (currentTime s)
    (paused s) (readyState s) (hlsRef s) (now s) (timers s) v (lastDeps s)
    (effectMode s) (mounted s).

Definition set_lastDeps (v : Deps) (s : State) : State :=
  mkState (url s) (hlsSupported s) (isPlaying s) (isLoading s) (error s)
    (retryCount s) (isReconnecting s) (strategyIndex s) (currentTime s)
    (paused s) (readyState s) (hlsRef s) (now s) (timers s) (calls s) v
    (effectMode s) (mounted s).

Definition set_effectMode (v : Mode) (s : State) : State :=
  mkState (url s) (hlsSupported s) (isPlaying s) (isLoading s) (error s)
    (retryCount s) (isReconnecting s) (strategyIndex s) (currentTime s)
    (paused s) (readyState s) (hlsRef s) (now s) (timers s) (calls s)
    (lastDeps s) v (mounted s).

Definition set_mounted (v : bool) (s : State) : State :=
  mkState (url s) (hlsSupported s) (isPlaying s) (isLoading s) (error s)
    (retryCount s) (isReconnecting s) (strategyIndex s) (currentTime s)
    (paused s) (readyState s) (hlsRef s) (now s) (timers s) (calls s)
    (lastDeps s) (effectMode s) v.

(** The field updates unfold under simplification. *)
Arguments set_url v s /.
Arguments set_isPlaying v s /.
Arguments set_isLoading v s /.
Arguments set_error v s /.
Arguments set_retryCount v s /.
Arguments set_isReconnecting v s /.
Arguments set_strategyIndex v s /.
Arguments set_currentTime v s /.
Arguments set_paused v s /.
Arguments set_readyState v s /.
Arguments set_hlsRef v s /.
Arguments set_now v s /.
Arguments set_timers v s /.
Arguments set_calls v s /.
Arguments set_lastDeps v s /.
Arguments set_effectMode v s /.
Arguments set_mounted v s /.

Definition call (c : SinkCall) (s : State) : State :=
  set_calls (calls s ++ [c]) s.

Definition depsOf (s : State) : Deps :=
  mkDeps (url s) (strategyIndex s) (isReconnecting s) (retryCount s).

Definition depsEqb (a b : Deps) : bool :=
  (jseq (d_url a) (d_url b) && (d_strategyIndex a =? d_strategyIndex b)
   && Bool.eqb (d_isReconnecting a) (d_isReconnecting b)
   && (d_retryCount a =? d_retryCount b))%bool.

Definition isWatchdog (t : Timer) : bool :=
  match cb t with CbWatchdog _ => true | _ => false end.

(** [clearInterval(watchdogTimerRef.current)] *)
Definition clearWatchdog (ts : list Timer) : list Timer :=
  filter (fun t => negb (isWatchdog t)) ts.

(** [if (hlsRef.current) { hlsRef.current.destroy(); hlsRef.current = null; }] *)
Definition destroyHls (s : State) : State :=
  match hlsRef s with
  | NoHls => s
  | _ => set_hlsRef NoHls (call HlsDestroy s)
  end.

(** *** RECOVERY LOGIC *)

(** [handleStall]: the watchdog's nudge.  The position of a media element is
    a finite Number: were the sum an infinity or [NaN], the assignment would
    throw a [TypeError] and [recoverMediaError] would not be reached. *)
Definition handleStall (s : State) : State :=
  match hlsRef s with
  | NoHls => s
  | _ =>
      (* video.currentTime += 0.5; hlsRef.current.recoverMediaError() *)
      let position := add (currentTime s) half in
      if isFinite position then call HlsRecoverMediaError (set_currentTime position s)
      else s
  end.

(** [attemptNextStrategy]: the updater passed to [setStrategyIndex], with the
    side effects it performs. *)
Definition attemptNextStrategy (s : State) : State :=
  let prev := strategyIndex s in
  if prev <? Z.of_nat (List.length STRATEGIES) - 1 then
    let next := prev + 1 in
    match strategyAt next with
    | Some _ => set_strategyIndex next s
    | None => set_mounted false s     (* STRATEGIES[next].name throws *)
    end
  else
    (* Cycle back to 0, but wait a bit before doing so *)
    set_timers (timers s ++ [mkTimer (now s + 3000) CbCooldown])
      (set_isReconnecting true s).

(** The callback of that timeout. *)
Definition cooldownElapsed (s : State) : State :=
  set_isReconnecting false
    (set_retryCount (retryCount s + 1) (set_strategyIndex 0 s)).

(** [forceRetry], the handler of the "Retry Now" button. *)
Definition forceRetry (s : State) : State :=
  set_strategyIndex 0
    (set_isReconnecting true (set_retryCount 0 (set_error None s))).

(** Whether the "Retry Now" button is rendered.  It sits on the error
    screen, under [(error || isReconnecting)], [!minimal] and
    [!isReconnecting]: an error message is set and the player is not
    reconnecting.  The model is the full player; the minimal preview never
    renders the button. *)
Definition retryOffered (s : State) : bool :=
  match error s with
  | Some (_ :: _) => negb (isReconnecting s)
  | _ => false
  end.

(** *** MAIN PLAYER ENGINE *)

(** The cleanup the previous run of the effect returned.  The HLS branch
    returns the global cleanup; the native branch returns one that only
    removes its [error] listener. *)
Definition cleanup (s : State) : State :=
  match effectMode s with
  | HLS => call VideoUnload (destroyHls (set_timers (clearWatchdog (timers s)) s))
  | NATIVE => s
  end.

(** The body of the main effect. *)
Definition runEffect (s : State) : State :=
  match strategyAt (strategyIndex s) with
  | None => set_mounted false s      (* STRATEGIES[strategyIndex].name throws *)
  | Some strategy =>
      let seen := isLoading s in
      (* Reset State *)
      let s := set_isLoading true (set_isPlaying false (set_error None s)) in
      (* WATCHDOG *)
      let s := set_timers (clearWatchdog (timers s)
                           ++ [mkTimer (now s + 5000) (CbWatchdog seen)]) s in
      (* LOAD LOGIC *)
      match transform strategy (url s) with
      | None => set_mounted false s
      | Some effectiveUrl =>
          let s := set_lastDeps (depsOf s) (destroyHls s) in
          match mode strategy, hlsSupported s with
          | HLS, true =>
              set_effectMode HLS
                (set_hlsRef HlsLive (call (HlsLoadSource effectiveUrl) s))
          | _, _ =>
              set_effectMode NATIVE (call (VideoSetSrc effectiveUrl) s)
          end
      end
  end.

(** Commit after a callback: the effect runs again (after the previous
    cleanup) when a dependency changed. *)
Definition render (s : State) : State :=
  if mounted s then
    if depsEqb (depsOf s) (lastDeps s) then s else runEffect (cleanup s)
  else s.

(** Mounting: initial state of every [useState], then the first effect run.
    [window] is [window.location.protocol] when there is a [window]. *)
Definition mount (window : option jsstring) (u : jsstring) (hlsOk : bool) : State :=
  let i0 := initialStrategyIndex window u in
  runEffect
    (mkState u hlsOk false true None 0 false i0 zero true 0 NoHls 0 [] []
       (mkDeps u i0 false 0) HLS true).

(** The [Hls.Events.ERROR] handler. *)
Definition onHlsError (fatal : bool) (ty : ErrorType) (s : State) : State :=
  if fatal then
    match ty with
    | NETWORK_ERROR => call HlsStartLoad s
    | MEDIA_ERROR => call HlsRecoverMediaError s
    | OTHER_ERROR =>
        attemptNextStrategy (set_hlsRef HlsDestroyed (call HlsDestroy s))
    end
  else s.

(** [onNativeError]: Don't fail immediately, wait 1s then switch. *)
Definition onNativeError (s : State) : State :=
  set_timers (timers s ++ [mkTimer (now s + 1000) CbNativeError]) s.

(** The body of the watchdog interval. *)
Definition watchdog (seen : bool) (s : State) : State :=
  if (negb (paused s) && (readyState s <? 3) && seen)%bool then handleStall s else s.

(** *** The event loop *)

Fixpoint minDue (ts : list Timer) : option Z :=
  match ts with
  | [] => None
  | t :: r => match minDue r with
              | Some d => Some (Z.min (due t) d)
              | None => Some (due t)
              end
  end.

(** The oldest timer due at [d], and the others. *)
Fixpoint takeDue (d : Z) (ts : list Timer) : option (Timer * list Timer) :=
  match ts with
  | [] => None
  | t :: r =>
      if due t =? d then Some (t, r)
      else match takeDue d r with
           | Some (x, r') => Some (x, t :: r')
           | None => None
           end
  end.

Definition runCallback (t : Timer) (s : State) : State :=
  match cb t with
  | CbCooldown => cooldownElapsed s
  | CbNativeError => attemptNextStrategy s
  | CbWatchdog seen =>
      (* an interval: armed again one period later *)
      set_timers (timers (watchdog seen s)
                  ++ [mkTimer (due t + 5000) (CbWatchdog seen)]) (watchdog seen s)
  end.

Inductive Event :=
| HlsError (fatal : bool) (ty : ErrorType)   (* hls.js ERROR *)
| ManifestParsed                             (* hls.js MANIFEST_PARSED *)
| VideoError                                 (* 'error' on the video element *)
| VideoPlay                                  (* 'play' *)
| VideoPause                                 (* 'pause' *)
| VideoWaiting                               (* 'waiting' *)
| VideoPlaying                               (* 'playing' *)
| VideoProgress (t : double) (ready : Z)     (* the element's clock and readyState move *)
| ForceRetry                                 (* a click on "Retry Now" *)
| SetUrl (u : jsstring)                      (* the caller plays another address *)
| Wait (dt : Z)                              (* time passes, no timer being due before *)
| Fire.                                      (* the oldest due timer runs *)

Definition handle (e : Event) (s : State) : State :=
  match e with
  | HlsError fatal ty =>
      match hlsRef s with
      | HlsLive => onHlsError fatal ty s
      | _ => s
      end
  | ManifestParsed =>
      match hlsRef s with
      | HlsLive => set_isLoading false s
      | _ => s
      end
  | VideoError =>
      match effectMode s with
      | NATIVE => onNativeError s
      | HLS => s
      end
  | VideoPlay => set_isLoading false (set_isPlaying true (set_paused false s))
  | VideoPause => set_isPlaying false (set_paused true s)
  | VideoWaiting => set_isLoading true s
  | VideoPlaying => set_isLoading false s
  | VideoProgress t ready => set_readyState ready (set_currentTime t s)
  | ForceRetry =>
      (* the button is there to be clicked only while it is rendered *)
      if retryOffered s then forceRetry s else s
  | SetUrl u => set_url u s
  | Wait dt =>
      if (0 <=? dt) &&
         match minDue (timers s) with
         | Some d => now s + dt <=? d
         | None => true
         end
      then set_now (now s + dt) s
      else s
  | Fire =>
      match minDue (timers s) with
      | Some d =>
          if d <=? now s then
            match takeDue d (timers s) with
            | Some (t, rest) => runCallback t (set_timers rest s)
            | None => s
            end
          else s
      | None => s
      end
  end.

(** One turn of the event loop: a callback, then the commit. *)
Definition step (e : Event) (s : State) : State :=
  if mounted s then render (handle e s) else s.

Definition run (es : list Event) (s : State) : State :=
  fold_left (fun s e => step e s) es s.

(** The states a session can be in. *)
Inductive reachable : State -> Prop :=
| reach_mount : forall window u hlsOk, reachable (mount window u hlsOk)
| reach_step : forall e s, reachable s -> reachable (step e s).

(** *** Vocabulary of the properties *)

(** The fields the escalation logic owns. *)
Definition sameSession (s s' : State) : Prop :=
  strategyIndex s' = strategyIndex s /\ retryCount s' = retryCount s /\
  isReconnecting s' = isReconnecting s /\ url s' = url s /\
  hlsSupported s' = hlsSupported s /\ now s' = now s.

Definition validIndex (s : State) : Prop := 0 <= strategyIndex s <= 3.

(** *** Settled states

    Between two callbacks the component is mounted and its effect is in step
    with the state. *)
Definition settled (s : State) : Prop :=
  mounted s = true /\ lastDeps s = depsOf s.

(** What the sink is asked when an attempt starts. *)
Definition attachOf (st : ConnectionStrategy) (effectiveUrl : jsstring) (s : State)
  : SinkCall :=
  match mode st, hlsSupported s with
  | HLS, true => HlsLoadSource effectiveUrl
  | _, _ => VideoSetSrc effectiveUrl
  end.

(** ... on the Direct strategy. *)
Definition attachDirect (s : State) : SinkCall :=
  if hlsSupported s then HlsLoadSource (transformDirect (url s))
  else VideoSetSrc (transformDirect (url s)).



(** One firing of the watchdog interval, with the commit that follows. *)
Definition watchdogFires (d : Z) (seen : bool) (s : State) : State :=
  render (runCallback (mkTimer d (CbWatchdog seen)) s).

(** A session that went through the whole catalog: three fatal errors of
    another category, one per adaptive strategy, leave it on the Native
    strategy. *)
Definition exhausted : State :=
  run [HlsError true OTHER_ERROR; HlsError true OTHER_ERROR; HlsError true OTHER_ERROR]
      (mount None (lit "http://h/live") true).

(** A session waiting out its cooldown: the Native attempt of [exhausted]
    failed, and one second later the escalation armed the cooldown timer. *)
Definition coolingDown : State := run [VideoError; Wait 1000; Fire] exhausted.

(** A session on the non-adaptive path: hls.js is not supported, so the
    first attempt already hands the address to the video element; playback
    was started and five seconds passed without data. *)
Definition nativeStalled : State :=
  run [VideoPlay; Wait 5000] (mount None (lit "http://h/movie.mp4") false).

End Player.

(** ** [types.ts] *)
Module Types.

Inductive ContentType := LIVE | MOVIE | SERIES.

Record Channel := mkChannel {
  id : jsstring;
  name : jsstring;
  logo : option jsstring;     (* logo?: string *)
  group : option jsstring;    (* group?: string *)
  url : jsstring;
  type : ContentType
}.

Record Series := mkSeries {
  sid : jsstring;                               (* id *)
  sname : jsstring;                             (* name *)
  cover : option jsstring;
  sgroup : jsstring;                            (* group *)
  seasons : list (jsstring * list Channel);     (* Record<string, Channel[]> *)
  episodeCount : Z
}.

End Types.

(** ** Watch history ([App.tsx]) *)
Module App.

Import Types.

(** The updater [addToHistory] passes to [setHistory]; the copy it writes to
    [localStorage] is the list it returns. *)
Definition addToHistory (channel : Channel) (prev : list Channel) : list Channel :=
  let filtered := filter (fun c => negb (jseq (id c) (id channel))) prev in
  firstn 50 (channel :: filtered).   (* Keep last 50 *)

Definition ids (l : list Channel) : list jsstring := map id l.

(** The histories the application builds, starting from the empty one. *)
Inductive built : list Channel -> Prop :=
| built_nil : built []
| built_add : forall channel prev, built prev -> built (addToHistory channel prev).

End App.

(** ** Series grouping ([services/dataProcessor.ts]) *)
Module DataProcessor.

Import Types.

Local Open Scope N_scope.

(** *** The two regular expressions

    Both are anchored at the start, so a match can only begin at index 0.  The
    matchers below follow the backtracking order of the pattern: each takes
    the matcher of the rest of the pattern as its continuation. *)
Section Matchers.

Variable A : Type.

(** One character satisfying [p]. *)
Definition chr (p : N -> bool) (k : jsstring -> option A) (s : jsstring) : option A :=
  match s with
  | c :: r => if p c then k r else None
  | [] => None
  end.

(** [p?]: greedy, so the character is taken first and given back on failure. *)
Definition opt (p : N -> bool) (k : jsstring -> option A) (s : jsstring) : option A :=
  match chr p k s with
  | Some x => Some x
  | None => k s
  end.

(** A captured [p*], greedy; [acc] is what the group captured so far. *)
Fixpoint many (p : N -> bool) (k : jsstring -> jsstring -> option A)
         (acc s : jsstring) : option A :=
  match s with
  | c :: r =>
      if p c then
        match many p k (acc ++ [c]) r with
        | Some x => Some x
        | None => k acc s
        end
      else k acc s
  | [] => k acc s
  end.

(** A captured [p+]. *)
Definition plus (p : N -> bool) (k : jsstring -> jsstring -> option A)
           (s : jsstring) : option A :=
  match s with
  | c :: r => if p c then many p k [c] r else None
  | [] => None
  end.

(** A captured lazy [p*?]: the rest of the pattern is tried before one more
    character is taken. *)
Fixpoint lazyMany (p : N -> bool) (k : jsstring -> jsstring -> option A)
         (acc s : jsstring) : option A :=
  match k acc s with
  | Some x => Some x
  | None =>
      match s with
      | c :: r => if p c then lazyMany p k (acc ++ [c]) r else None
      | [] => None
      end
  end.

End Matchers.

Arguments chr {A} p k s.
Arguments opt {A} p k s.
Arguments many {A} p k acc s.
Arguments plus {A} p k s.
Arguments lazyMany {A} p k acc s.

(** [.] matches everything but a line terminator. *)
Definition isDot (c : N) : bool :=
  negb (N.eqb c 10 || N.eqb c 13 || N.eqb c 8232 || N.eqb c 8233).

Definition isDigit (c : N) : bool := inRange 48 57 c.

(** [[-_]] *)
Definition isDashOrUnderscore (c : N) : bool := (N.eqb c 45 || N.eqb c 95)%bool.

(** A letter under the [i] flag. *)
Definition letter (upper lower : N) (c : N) : bool := (N.eqb c upper || N.eqb c lower)%bool.

(** [name.match(SERIES_REGEX)], [^(.*?)\s?[-_]?\s?S(\d+)\s?E(\d+)] with flag [i]: groups 1 and 2
    of the match. *)
Definition matchSERIES_REGEX (name : jsstring) : option (jsstring * jsstring) :=
  lazyMany isDot
    (fun g1 =>
       opt isWhiteSpace (opt isDashOrUnderscore (opt isWhiteSpace
         (chr (letter 83 115)
            (plus isDigit
               (fun g2 =>
                  opt isWhiteSpace
                    (chr (letter 69 101)
                       (plus isDigit (fun _ _ => Some (g1, g2))))))))))
    [] name.

(** [name.match(ALT_SERIES_REGEX)], [^(.*?)\s?[-_]?\s?(\d+)x(\d+)] with flag [i]. *)
Definition matchALT_SERIES_REGEX (name : jsstring) : option (jsstring * jsstring) :=
  lazyMany isDot
    (fun g1 =>
       opt isWhiteSpace (opt isDashOrUnderscore (opt isWhiteSpace
         (plus isDigit
            (fun g2 =>
               chr (letter 88 120)
                 (plus isDigit (fun _ _ => Some (g1, g2))))))))
    [] name.

(** [s.replace(/[-_]$/, '')] *)
Definition dropTrailingDash (s : jsstring) : jsstring :=
  match rev s with
  | c :: r => if isDashOrUnderscore c then rev r else s
  | [] => s
  end.

Fixpoint dropZeros (s : jsstring) : jsstring :=
  match s with
  | c :: r => if N.eqb c 48 then dropZeros r else s
  | [] => []
  end.

(** *** [parseInt] and [Number.prototype.toString] on a string of digits *)

Definition digit (c : N) (rest : Decimal.uint) : Decimal.uint :=
  match c - 48 with
  | 0 => Decimal.D0 rest | 1 => Decimal.D1 rest | 2 => Decimal.D2 rest
  | 3 => Decimal.D3 rest | 4 => Decimal.D4 rest | 5 => Decimal.D5 rest
  | 6 => Decimal.D6 rest | 7 => Decimal.D7 rest | 8 => Decimal.D8 rest
  | _ => Decimal.D9 rest
  end.

(** The decimal digits a string starts with. *)
Fixpoint numeral (s : jsstring) : Decimal.uint :=
  match s with
  | c :: r => if isDigit c then digit c (numeral r) else Decimal.Nil
  | [] => Decimal.Nil
  end.

Fixpoint digits (d : Decimal.uint) : jsstring :=
  match d with
  | Decimal.Nil => []
  | Decimal.D0 r => 48 :: digits r | Decimal.D1 r => 49 :: digits r
  | Decimal.D2 r => 50 :: digits r | Decimal.D3 r => 51 :: digits r
  | Decimal.D4 r => 52 :: digits r | Decimal.D5 r => 53 :: digits r
  | Decimal.D6 r => 54 :: digits r | Decimal.D7 r => 55 :: digits r
  | Decimal.D8 r => 56 :: digits r | Decimal.D9 r => 57 :: digits r
  end.

(** The mathematical integer the leading digits of [s] spell. *)
Definition mathInt (s : jsstring) : N := N.of_uint (numeral s).

(** A natural number in decimal, without leading zeros. *)
Definition decimal (n : N) : jsstring := digits (N.to_uint n).

(** The Number for a natural number [n]: the double nearest to it, ties to
    the even significand; [None] is [Infinity].  The significand keeps the
    53 leading bits of [n], the [sh] bits below them are rounded away.  All
    the digits count (ECMA-262 would also let an implementation read the
    digits after the 20th as zeros). *)
Definition nearestDouble (n : N) : option N :=
  let sh := N.log2 n + 1 - 53 in
  let q := n / 2 ^ sh in
  let r := n mod 2 ^ sh in
  let up := ((2 ^ sh <? 2 * r) || ((2 ^ sh =? 2 * r) && N.odd q))%bool in
  let v := (if up then q + 1 else q) * 2 ^ sh in
  if 2 ^ 1024 <=? v then None else Some v.

(** The Numbers [parseInt] yields on a string that starts with a digit or with
    something that is neither white space nor a sign, as the captures of
    [(\d+)] do: an integer held in a double, [Infinity] or [NaN]. *)
Inductive Number : Type :=
  | NaN
  | PlusInfinity
  | Integer (n : N).

(** [parseInt(s, 10)] *)
Definition parseInt (s : jsstring) : Number :=
  match numeral s with
  | Decimal.Nil => NaN
  | d => match nearestDouble (N.of_uint d) with
         | Some v => Integer v
         | None => PlusInfinity
         end
  end.

Definition roundsTo (v x : N) : bool :=
  match nearestDouble v with
  | Some y => y =? x
  | None => false
  end.

(** The shortest decimal that reads back as the double [x]: the first of the
    multiples of [10^j], [10^(j-1)], ... next to [x] that round to [x], the
    nearer one when both do, the one with the even last digit on a tie (the
    choice ECMA-262 recommends among the shortest decimals). *)
Fixpoint shortest (j : nat) (x : N) : N :=
  let P := 10 ^ N.of_nat j in
  let v1 := x / P * P in
  let v2 := v1 + P in
  match roundsTo v1 x, roundsTo v2 x with
  | true, true =>
      if x - v1 <? v2 - x then v1
      else if v2 - x <? x - v1 then v2
      else if N.even (x / P) then v1 else v2
  | true, false => v1
  | false, true => v2
  | false, false =>
      match j with
      | O => x
      | S j' => shortest j' x
      end
  end.

(** [x.toString()]: the digits of the shortest decimal, written out in full
    below 10^21 and as [d.ddde+n] from there on. *)
Definition toString (x : Number) : jsstring :=
  match x with
  | NaN => lit "NaN"
  | PlusInfinity => lit "Infinity"
  | Integer x =>
      let v := shortest (List.length (decimal x) - 1) x in
      if v <? 10 ^ 21 then decimal v
      else
        let e := decimal (N.of_nat (List.length (decimal v) - 1)) in
        match rev (dropZeros (rev (decimal v))) with
        | d :: (_ :: _) as frac => d :: lit "." ++ frac ++ lit "e+" ++ e
        | s => s ++ lit "e+" ++ e
        end
  end.

(** [parseInt(digits, 10).toString()] *)
Definition normalizeSeason (digits : jsstring) : jsstring :=
  toString (parseInt digits).

(** [match]: the standard [S01E01] format first, the [1x01] format if that
    fails. *)
Definition seriesMatch (name : jsstring) : option (jsstring * jsstring) :=
  match matchSERIES_REGEX name with
  | Some m => Some m
  | None => matchALT_SERIES_REGEX name
  end.

(** The show name and the season a channel name stands for. *)
Definition parseName (name : jsstring) : jsstring * jsstring :=
  match seriesMatch name with
  | Some (g1, g2) => (trim (dropTrailingDash (trim g1)), normalizeSeason g2)
  | None => (name, lit "1")
  end.

(** A value in a boolean context: [undefined] and the empty string are falsy. *)
Definition truthy (o : option jsstring) : bool :=
  match o with
  | Some (_ :: _) => true
  | _ => false
  end.

(** A value inside a template literal. *)
Definition interpolate (o : option jsstring) : jsstring :=
  match o with
  | Some s => s
  | None => lit "undefined"
  end.

(** *** The [Map] of series, in insertion order *)

Definition SeriesMap := list (jsstring * Series).

Definition has (m : SeriesMap) (k : jsstring) : bool :=
  existsb (fun e => jseq (fst e) k) m.

Fixpoint get (m : SeriesMap) (k : jsstring) : option Series :=
  match m with
  | [] => None
  | (k', v) :: r => if jseq k' k then Some v else get r k
  end.

Fixpoint set (m : SeriesMap) (k : jsstring) (v : Series) : SeriesMap :=
  match m with
  | [] => [(k, v)]
  | (k', v') :: r => if jseq k' k then (k', v) :: r else (k', v') :: set r k v
  end.

(** *** The object of seasons

    [seasons] is a plain object.  It is kept here as the list of its own
    properties in the order [Object.keys] and [for-in] go through them:
    first the array indices, by value, then the other keys in the order in
    which they were created. *)

(** A key that is an array index: the decimal numeral of an integer up to
    2^32 - 2. *)
Definition arrayIndex (k : jsstring) : option N :=
  let n := mathInt k in
  if (jseq (decimal n) k && (n <=? 4294967294))%bool then Some n else None.

Definition isArrayIndex (k : jsstring) : bool :=
  match arrayIndex k with
  | Some _ => true
  | None => false
  end.

(** Whether a new key [k] is listed before the key [k']. *)
Definition comesBefore (k k' : jsstring) : bool :=
  match arrayIndex k, arrayIndex k' with
  | Some i, Some i' => i <? i'
  | Some _, None => true
  | None, _ => false
  end.

Section Objects.

Context {V : Type}.

Definition hasOwn (o : list (jsstring * V)) (k : jsstring) : bool :=
  existsb (fun e => jseq (fst e) k) o.

(** [o[k] = v] for a key the object does not have. *)
Fixpoint defineProperty (o : list (jsstring * V)) (k : jsstring) (v : V)
  : list (jsstring * V) :=
  match o with
  | [] => [(k, v)]
  | (k', v') :: r =>
      if comesBefore k k' then (k, v) :: o else (k', v') :: defineProperty r k v
  end.

End Objects.

(** [seasons[season].push(channel)] *)
Fixpoint push (ss : list (jsstring * list Channel)) (season : jsstring)
         (channel : Channel) : list (jsstring * list Channel) :=
  match ss with
  | [] => []
  | (k, eps) :: r =>
      if jseq k season then (k, eps ++ [channel]) :: r
      else (k, eps) :: push r season channel
  end.

(** [if (!seasons[season]) seasons[season] = []; seasons[season].push(channel)].
    A season is a numeral, [Infinity] or [NaN], never a property that [{}]
    inherits, and an array is never falsy. *)
Definition pushEpisode (ss : list (jsstring * list Channel)) (season : jsstring)
           (channel : Channel) : list (jsstring * list Channel) :=
  let ss := if hasOwn ss season then ss else defineProperty ss season [] in
  push ss season channel.

Definition seriesIdOf (channel : Channel) : jsstring :=
  interpolate (group channel) ++ lit "-" ++ fst (parseName (name channel)).

(** The body of [channels.forEach].  The series object lives in the map and
    is mutated there: the last [set] writes the mutated object back. *)
Definition addChannel (seriesMap : SeriesMap) (channel : Channel) : SeriesMap :=
  let (showName, season) := parseName (name channel) in
  let seriesId := interpolate (group channel) ++ lit "-" ++ showName in
  let seriesMap :=
    if has seriesMap seriesId then seriesMap
    else set seriesMap seriesId
           (mkSeries seriesId showName (logo channel)
              (if truthy (group channel) then interpolate (group channel)
               else lit "Uncategorized")
              [] 0%Z) in
  match get seriesMap seriesId with
  | None => seriesMap
  | Some series =>
      let seasons' := pushEpisode (seasons series) season channel in
      let cover' := if (negb (truthy (cover series)) && truthy (logo channel))%bool
                    then logo channel else cover series in
      set seriesMap seriesId
        (mkSeries (sid series) (sname series) cover' (sgroup series) seasons'
           (episodeCount series + 1)%Z)
  end.

Definition processSeries (channels : list Channel) : list Series :=
  map snd (fold_left addChannel channels []).

(** All the channels stored under the seasons of a series. *)
Definition episodes (s : Series) : list Channel := flat_map snd (seasons s).

(** *** The invariant of the loop *)

Definition seasonOf (channel : Channel) : jsstring := snd (parseName (name channel)).

Definition keys {V : Type} (m : list (jsstring * V)) : list jsstring := map fst m.

(** All the channels stored in a map of series. *)
Definition stored (m : SeriesMap) : list Channel :=
  flat_map (fun e => episodes (snd e)) m.

Record seriesOk (k : jsstring) (s : Series) : Prop := {
  ok_id : sid s = k;
  ok_keys : NoDup (keys (seasons s));
  ok_count : episodeCount s = Z.of_nat (List.length (episodes s));
  ok_bucket : forall sk b c, In (sk, b) (seasons s) -> In c b ->
                             seriesIdOf c = k /\ seasonOf c = sk
}.

Record mapOk (m : SeriesMap) (done : list Channel) : Prop := {
  ok_series_keys : NoDup (keys m);
  ok_series : forall k s, In (k, s) m -> seriesOk k s;
  ok_stored : Permutation (stored m) done
}.

End DataProcessor.

(** ** More string built-ins *)
Module JsMore.

Local Open Scope N_scope.

(** [s.endsWith(p)] *)
Definition endsWith (s p : jsstring) : bool := startsWith (rev s) (rev p).

(** [s.split(sep)] for a separator of one code unit. *)
Fixpoint split (s : jsstring) (sep : N) : list jsstring :=
  match s with
  | [] => [[]]
  | c :: r =>
      if N.eqb c sep then [] :: split r sep
      else match split r sep with
           | x :: xs => (c :: x) :: xs
           | [] => [[c]]
           end
  end.

(** [a || b] on strings: the empty string is falsy. *)
Definition orElse (a b : jsstring) : jsstring :=
  match a with
  | [] => b
  | _ => a
  end.

(** The default order of [Array.prototype.sort()] on strings: code unit by
    code unit, a proper prefix first. *)
Fixpoint compareCodeUnits (a b : jsstring) : comparison :=
  match a, b with
  | [], [] => Eq
  | [], _ :: _ => Lt
  | _ :: _, [] => Gt
  | x :: a', y :: b' =>
      match N.compare x y with
      | Eq => compareCodeUnits a' b'
      | c => c
      end
  end.

(** [Array.prototype.sort(compareFn)].  [compareFn a b] is the sign of the
    number the comparator returns.  For a consistent comparator the result is
    the one stable sorted arrangement, which insertion produces. *)
Section Sort.

Variable T : Type.
Variable compareFn : T -> T -> comparison.

(** [x] goes before the first element that does not have to precede it. *)
Fixpoint insertSorted (x : T) (l : list T) : list T :=
  match l with
  | [] => [x]
  | y :: r =>
      match compareFn x y with
      | Gt => y :: insertSorted x r
      | _ => x :: l
      end
  end.

Definition sort (l : list T) : list T := fold_right insertSorted [] l.

End Sort.

Arguments insertSorted {T} compareFn x l.
Arguments sort {T} compareFn l.

(** A [Set] of strings, in insertion order. *)
Definition setAdd (set : list jsstring) (x : jsstring) : list jsstring :=
  if existsb (jseq x) set then set else set ++ [x].

(** [array.includes(x)] *)
Definition arrayIncludes (l : list jsstring) (x : jsstring) : bool :=
  existsb (jseq x) l.

(** [s.isWellFormed()]: no unpaired surrogate. *)
Fixpoint isWellFormed (s : jsstring) : bool :=
  match s with
  | [] => true
  | c :: r =>
      if isTrailSurrogate c then false
      else if isLeadSurrogate c then
        match r with
        | d :: r' => (isTrailSurrogate d && isWellFormed r')%bool
        | [] => false
        end
      else isWellFormed r
  end.

Definition isSurrogate (c : N) : bool := (isLeadSurrogate c || isTrailSurrogate c)%bool.

(** No code unit of the string is a surrogate. *)
Definition surrogateFree (s : jsstring) : Prop :=
  Forall (fun c => isSurrogate c = false) s.

End JsMore.

(** ** Seeking ([VideoPlayer]) *)
Module PlayerControls.

Import Player Double.

(** The presentation state around the controller: what [seek] and [showUI]
    read and write besides the video element. *)
Record Controls := mkControls {
  player : State;                       (* the controller and the element *)
  minimal : bool;                       (* the [minimal] prop *)
  duration : double;                    (* the [duration] state, [video.duration || 0] *)
  showControls : bool;
  controlsTimeout : option (Z * bool)   (* the pending hide timeout: when it is
                                           due and the [isPlaying] its callback
                                           captured *)
}.

(** [showUI]: show the controls and arm the timeout that hides them, in
    place of the one pending. *)
Definition showUI (c : Controls) : Controls :=
  if minimal c then c
  else mkControls (player c) (minimal c) (duration c) true
         (Some ((now (player c) + 4000)%Z, isPlaying (player c))).

(** [seek(seconds)].  [videoRef.current] is the element for as long as the
    component is mounted.  The position of a media element is a finite
    Number: assigning [NaN] or an infinity throws a [TypeError], the position
    stays and [showUI] is not reached. *)
Definition seek (seconds : double) (c : Controls) : Controls :=
  if mounted (player c) then
    let video := player c in
    let position :=
      minimum (maximum (add (currentTime video) seconds) zero) (duration c) in
    if isFinite position then
      showUI (mkControls (set_currentTime position video) (minimal c) (duration c)
                (showControls c) (controlsTimeout c))
    else c
  else c.

(** *** Vocabulary of the properties *)

(** Replaying the calls made on the sink: whether an hls.js instance is
    alive at the end, or [None] when an instance was created while another
    was still alive. *)
Fixpoint hlsAlive (cs : list SinkCall) (alive : bool) : option bool :=
  match cs with
  | [] => Some alive
  | HlsLoadSource _ :: r => if alive then None else hlsAlive r true
  | HlsDestroy :: r => hlsAlive r false
  | _ :: r => hlsAlive r alive
  end.

Definition refIsLive (r : HlsRef) : bool :=
  match r with
  | HlsLive => true
  | _ => false
  end.

(** The ref and the calls agree. *)
Definition attachedOk (s : State) : Prop :=
  hlsAlive (calls s) false = Some (refIsLive (hlsRef s)).

(** The pending watchdog intervals. *)
Definition watchdogs (ts : list Timer) : list Timer := filter isWatchdog ts.

End PlayerControls.

(** ** Sorting ([services/dataProcessor.ts]) *)
Module Sorting.

Import Types JsMore.

Inductive SortOption := DEFAULT | A_Z | Z_A | RECENT | OLD.

Section LocaleCompare.

(** The sign of [a.localeCompare(b)], which the host's collation decides. *)
Variable localeCompare : jsstring -> jsstring -> comparison.

Definition sortChannels (items : list Channel) (sort_ : SortOption) : list Channel :=
  let sorted := items in
  match sort_ with
  | A_Z => sort (fun a b => localeCompare (name a) (name b)) sorted
  | Z_A => sort (fun a b => localeCompare (name b) (name a)) sorted
  | RECENT => rev sorted
  | OLD => sorted
  | DEFAULT => sorted
  end.

Definition sortSeries (items : list Series) (sort_ : SortOption) : list Series :=
  let sorted := items in
  match sort_ with
  | A_Z => sort (fun a b => localeCompare (sname a) (sname b)) sorted
  | Z_A => sort (fun a b => localeCompare (sname b) (sname a)) sorted
  | RECENT => rev sorted
  | OLD => sorted
  | DEFAULT => sorted
  end.

End LocaleCompare.

(** *** Vocabulary of the properties *)

(** A comparator the sort can rely on: swapping the arguments flips the
    sign, and "not after" is transitive. *)
Record consistent {T : Type} (cmp : T -> T -> comparison) : Prop := {
  cmp_flip : forall a b, cmp b a = CompOpp (cmp a b);
  cmp_trans : forall a b c, cmp a b <> Gt -> cmp b c <> Gt -> cmp a c <> Gt
}.

(** The values that compare equal to [z]. *)
Definition tied {T : Type} (cmp : T -> T -> comparison) (z y : T) : bool :=
  match cmp z y with
  | Eq => true
  | _ => false
  end.

End Sorting.

(** ** Decimal numerals *)
Module Numerals.

Import DataProcessor.

Local Open Scope N_scope.

(** A decimal numeral as [Number.prototype.toString] writes a natural number:
    digits only, at least one, no leading zero but for zero itself. *)
Definition canonicalNumeral (s : jsstring) : Prop :=
  s <> [] /\ forallb isDigit s = true /\ (s = [48] \/ hd 0 s <> 48).

End Numerals.

(** ** What [processSeries] builds, said by grouping *)
Module SeriesShape.

Import Types JsMore DataProcessor.

(** The distinct values of a list, in the order of their first occurrence. *)
Definition firstSeen (l : list jsstring) : list jsstring := fold_left setAdd l [].

(** The channels of a series, and those of one season, in playlist order. *)
Definition ofSeries (k : jsstring) (cs : list Channel) : list Channel :=
  filter (fun c => jseq (seriesIdOf c) k) cs.

Definition ofSeason (sk : jsstring) (cs : list Channel) : list Channel :=
  filter (fun c => jseq (seasonOf c) sk) cs.

(** The keys of an object in the order it lists them, from the order in which
    they were created. *)
Fixpoint insertKey (ks : list jsstring) (k : jsstring) : list jsstring :=
  match ks with
  | [] => [k]
  | k' :: r => if comesBefore k k' then k :: ks else k' :: insertKey r k
  end.

Definition ownKeys (created : list jsstring) : list jsstring :=
  fold_left insertKey created [].

(** Array indices in ascending order. *)
Definition ascending (ks : list jsstring) : Prop :=
  StronglySorted (fun a b => (mathInt a < mathInt b)%N) ks.

Definition seasonsOf (mine : list Channel) : list (jsstring * list Channel) :=
  map (fun sk => (sk, ofSeason sk mine)) (ownKeys (firstSeen (map seasonOf mine))).

(** The first logo that is not empty, else the logo of the first channel. *)
Definition coverOf (mine : list Channel) : option jsstring :=
  match find (fun c => truthy (logo c)) mine with
  | Some c => logo c
  | None => match mine with
            | c0 :: _ => logo c0
            | [] => None
            end
  end.

Definition showNameOf (c : Channel) : jsstring := fst (parseName (name c)).

Definition groupOf (c : Channel) : jsstring :=
  if truthy (group c) then interpolate (group c) else lit "Uncategorized".

(** The series made of the channels [mine], all of id [k]. *)
Definition seriesOf (k : jsstring) (mine : list Channel) : Series :=
  mkSeries k
    (match mine with c0 :: _ => showNameOf c0 | [] => [] end)
    (coverOf mine)
    (match mine with c0 :: _ => groupOf c0 | [] => [] end)
    (seasonsOf mine)
    (Z.of_nat (List.length mine)).

Definition grouped (cs : list Channel) : SeriesMap :=
  map (fun k => (k, seriesOf k (ofSeries k cs))) (firstSeen (map seriesIdOf cs)).

End SeriesShape.

(** ** Playlist parsing ([services/m3uParser.ts]) *)
Module M3uParser.

Import Types JsMore DataProcessor.

Local Open Scope N_scope.

Section Host.

(** [s.toLowerCase()], with the Unicode case tables of the host. *)
Variable toLowerCase : jsstring -> jsstring.

(** [crypto.randomUUID()]: the identifier the [n]-th call returns. *)
Variable randomUUID : nat -> jsstring.

Definition detectType (group name url : jsstring) : ContentType :=
  let lowerGroup := toLowerCase group in
  let lowerUrl := toLowerCase url in
  (* Series Detection *)
  if (includes lowerGroup (lit "series") || includes lowerGroup (lit "season")
      || includes lowerGroup (lit "episodes") || includes lowerGroup (lit "tv show"))%bool
  then SERIES
  (* Movie Detection *)
  else if (includes lowerGroup (lit "movie") || includes lowerGroup (lit "vod")
           || includes lowerGroup (lit "film") || includes lowerGroup (lit "cinema")
           || includes lowerGroup (lit "4k") || endsWith lowerUrl (lit ".mp4")
           || endsWith lowerUrl (lit ".mkv") || endsWith lowerUrl (lit ".avi"))%bool
  then MOVIE
  (* Default to Live TV *)
  else LIVE.

(** The first match of the pattern anywhere in the string. *)
Fixpoint search {A : Type} (m : jsstring -> option A) (s : jsstring) : option A :=
  match m s with
  | Some x => Some x
  | None =>
      match s with
      | [] => None
      | _ :: r => search m r
      end
  end.

(** A literal run of the pattern. *)
Definition str {A : Type} (p : jsstring) (k : jsstring -> option A) (s : jsstring)
  : option A :=
  if startsWith s p then k (skipn (List.length p) s) else None.

Definition isQuote (c : N) : bool := N.eqb c 34.

(** [info.match(...)] for the pattern made of [key], an equals sign, a double
    quote, a captured run of characters other than the double quote, and a
    closing double quote: group 1 of the first match. *)
Definition matchAttribute (key info : jsstring) : option jsstring :=
  search
    (str (key ++ [61; 34])
       (many (fun c => negb (isQuote c))
          (fun g => chr isQuote (fun _ => Some g)) []))
    info.

(** What an [#EXTINF] line leaves in [currentChannel]. *)
Record Pending := mkPending {
  p_id : jsstring;
  p_name : jsstring;
  p_logo : option jsstring;
  p_group : jsstring
}.

Record Parser := mkParser {
  channels : list Channel;
  currentChannel : option Pending;    (* [None] is the empty object *)
  uuidCalls : nat                     (* calls of [crypto.randomUUID] so far *)
}.

(** The body of [lines.forEach]. *)
Definition parseLine (st : Parser) (line : jsstring) : Parser :=
  let trimmed := trim line in
  if startsWith trimmed (lit "#EXTINF:") then
    (* Parse metadata *)
    let info := skipn 8 trimmed in
    let parts := split info 44 in
    let name := orElse (trim (last parts [])) (lit "Unknown Channel") in
    let logoMatch := matchAttribute (lit "tvg-logo") info in
    let groupMatch := matchAttribute (lit "group-title") info in
    mkParser (channels st)
      (Some (mkPending (randomUUID (uuidCalls st)) name logoMatch
               (match groupMatch with
                | Some g => g
                | None => lit "Uncategorized"
                end)))
      (S (uuidCalls st))
  else if startsWith trimmed (lit "http") then
    (* It's a URL *)
    match currentChannel st with
    | Some p =>
        match p_name p with
        | [] => st
        | _ =>
            let type := detectType (p_group p) (p_name p) trimmed in
            mkParser
              (channels st
               ++ [mkChannel (p_id p) (p_name p) (p_logo p) (Some (p_group p))
                     trimmed type])
              None (uuidCalls st)
        end
    | None => st
    end
  else st.

Definition parseM3U (content : jsstring) : list Channel :=
  channels (fold_left parseLine (split content 10) (mkParser [] None 0%nat)).

(** *** Vocabulary of the properties *)

(** What every parsed channel looks like. *)
Record wellFormed (c : Channel) : Prop := {
  wf_name : name c <> [] /\ trimmed (name c) /\ ~ In 44 (name c);
  wf_url : trimmed (url c) /\ startsWith (url c) (lit "http") = true;
  wf_group : exists g, group c = Some g /\ type c = detectType g (name c) (url c);
  wf_logo : forall l, logo c = Some l -> ~ In 34 l
}.

(** The invariants of the loop: the shape of what was parsed, and where
    the ids come from. *)
Definition pendingOk (p : Pending) : Prop :=
  p_name p <> [] /\ trimmed (p_name p) /\ ~ In 44 (p_name p) /\
  forall l, p_logo p = Some l -> ~ In 34 l.

Definition shapeOk (st : Parser) : Prop :=
  Forall wellFormed (channels st) /\
  forall p, currentChannel st = Some p -> pendingOk p.

Definition idsOk (st : Parser) : Prop :=
  exists idxs,
    map id (channels st) = map randomUUID idxs /\
    StronglySorted lt idxs /\
    match currentChannel st with
    | Some p => exists n, p_id p = randomUUID n /\ (n < uuidCalls st)%nat /\
                          Forall (fun i => (i < n)%nat) idxs
    | None => Forall (fun i => (i < uuidCalls st)%nat) idxs
    end.

Definition pendingCount (st : Parser) : nat :=
  match currentChannel st with
  | Some _ => 1
  | None => 0
  end.

End Host.

(** The two kinds of line the parser reacts to. *)
Definition isInfoLine (line : jsstring) : bool := startsWith (trim line) (lit "#EXTINF:").

Definition isUrlLine (line : jsstring) : bool := startsWith (trim line) (lit "http").

End M3uParser.

(** ** Loading a playlist ([App.tsx]) *)
Module AppLoad.

Import Types JsMore.

Local Open Scope N_scope.

(** [validateContent] *)
Definition validateContent (text : jsstring) : bool :=
  if (N.of_nat (List.length text) <? 50) then false
  else if (includes text (lit "<!DOCTYPE html>") || includes text (lit "<html"))%bool
       then includes text (lit "#EXTM3U")
       else true.

(** The proxy address generators of [fetchPlaylist]; [None] is the
    [URIError] of [encodeURIComponent]. *)
Definition proxies : list (jsstring -> option jsstring) :=
  [ fun u => option_map (app (lit "https://corsproxy.io/?")) (encodeURIComponent u);
    fun u => option_map (app (lit "https://api.allorigins.win/raw?url="))
               (encodeURIComponent u);
    fun u => option_map (app (lit "https://api.codetabs.com/v1/proxy?quest="))
               (encodeURIComponent u) ].

Section Network.

(** One request: the body of the response, or [None] when the request
    throws (network failure, HTTP error status). *)
Variable fetch : jsstring -> option jsstring.

(** The [for] loop over the proxies.  [asked] lists the addresses requested
    so far, oldest first. *)
Fixpoint tryProxies (ps : list (jsstring -> option jsstring)) (url : jsstring)
         (asked : list jsstring) : list jsstring * option jsstring :=
  match ps with
  | [] => (asked, None)          (* throw new Error("Failed to load playlist...") *)
  | proxyGen :: rest =>
      match proxyGen url with
      | None => tryProxies rest url asked
      | Some proxyUrl =>
          match fetch proxyUrl with
          | Some text =>
              if validateContent text then (asked ++ [proxyUrl], Some text)
              else tryProxies rest url (asked ++ [proxyUrl])
          | None => tryProxies rest url (asked ++ [proxyUrl])
          end
      end
  end.

(** [fetchPlaylist]: the addresses requested, and the text returned or
    [None] for the final throw. *)
Definition fetchPlaylist (url : jsstring) : list jsstring * option jsstring :=
  (* 1. Try Direct Fetch *)
  match fetch url with
  | Some text =>
      if validateContent text then ([url], Some text)
      else tryProxies proxies url [url]
  | None => tryProxies proxies url [url]
  end.

(** *** Vocabulary of the properties *)

(** A request whose answer [fetchPlaylist] would return. *)
Definition accepted (a : jsstring) : bool :=
  match fetch a with
  | Some text => validateContent text
  | None => false
  end.

(** The outcome [res] serves the first acceptable address of [cands]:
    requests in that order, up to the first answer that is acceptable. *)
Definition served (cands : list jsstring) (res : list jsstring * option jsstring)
  : Prop :=
  match res with
  | (asked, Some text) =>
      exists earlier a rest,
        cands = earlier ++ a :: rest /\ asked = earlier ++ [a] /\
        fetch a = Some text /\ validateContent text = true /\
        Forall (fun b => accepted b = false) earlier
  | (asked, None) =>
      asked = cands /\ Forall (fun b => accepted b = false) asked
  end.

End Network.

(** The addresses [fetchPlaylist] may request, in order: the address itself,
    then each proxy address that can be built. *)
Definition proxyAddresses (ps : list (jsstring -> option jsstring)) (url : jsstring)
  : list jsstring :=
  flat_map (fun proxyGen => match proxyGen url with
                            | Some a => [a]
                            | None => []
                            end) ps.

Definition candidates (url : jsstring) : list jsstring :=
  url :: proxyAddresses proxies url.

(** The address [loadXtreamConnection] builds its request on. *)
Definition xtreamBaseUrl (url : jsstring) : jsstring :=
  let baseUrl := trim url in
  let baseUrl :=
    if (negb (startsWith baseUrl (lit "http://"))
        && negb (startsWith baseUrl (lit "https://")))%bool
    then lit "http://" ++ baseUrl
    else baseUrl in
  if endsWith baseUrl (lit "/") then removelast baseUrl else baseUrl.

(** [r] is [full] less its trailing slash, if it has one. *)
Definition lessOneSlash (full r : jsstring) : Prop :=
  (exists y, full = y ++ lit "/" /\ r = y) \/
  ((forall y, full <> y ++ lit "/") /\ r = full).

Definition xtreamPlaylistUrl (url user pass : jsstring) : jsstring :=
  xtreamBaseUrl url ++ lit "/get.php?username=" ++ user ++ lit "&password=" ++ pass
  ++ lit "&type=m3u_plus&output=ts".

End AppLoad.

(** ** The channel list ([components/ChannelList.tsx]) *)
Module ChannelList.

Import Types JsMore.

(** [togglePin]: the new list of pinned categories. *)
Definition togglePin (pinnedCategories : list jsstring) (category : jsstring)
  : list jsstring :=
  if arrayIncludes pinnedCategories category
  then filter (fun c => negb (jseq c category)) pinnedCategories
  else pinnedCategories ++ [category].

Definition contentTypeEqb (a b : ContentType) : bool :=
  match a, b with
  | LIVE, LIVE | MOVIE, MOVIE | SERIES, SERIES => true
  | _, _ => false
  end.

Definition typeFilteredChannels (channels : list Channel) (selected : ContentType)
  : list Channel :=
  filter (fun c => contentTypeEqb (type c) selected) channels.

(** The group a channel is listed under. *)
Definition groupLabel (c : Channel) : jsstring :=
  match group c with
  | Some (x :: g) => x :: g
  | _ => lit "Uncategorized"
  end.

Definition uniqueGroups (typeFiltered : list Channel) : list jsstring :=
  fold_left (fun set c => setAdd set (groupLabel c)) typeFiltered [].

(** [sortedCategories] *)
Definition sortedCategories (typeFiltered : list Channel)
           (pinnedCategories : list jsstring) : list jsstring :=
  let allCats := sort compareCodeUnits (uniqueGroups typeFiltered) in
  lit "All"
  :: filter (fun c => arrayIncludes pinnedCategories c) allCats
  ++ filter (fun c => negb (arrayIncludes pinnedCategories c)) allCats.

(** [c.group === selectedCategory] *)
Definition groupIs (c : Channel) (selectedCategory : jsstring) : bool :=
  match group c with
  | Some g => jseq g selectedCategory
  | None => false
  end.

Definition isEmpty (s : jsstring) : bool :=
  match s with
  | [] => true
  | _ => false
  end.

Section Host.

Variable toLowerCase : jsstring -> jsstring.

(** [finalFilteredChannels] *)
Definition finalFilteredChannels (typeFiltered : list Channel)
           (selectedCategory searchQuery : jsstring) : list Channel :=
  (* Optimization: If no search and All category, return everything fast *)
  if (jseq selectedCategory (lit "All") && isEmpty searchQuery)%bool
  then typeFiltered
  else
    let lowerQuery := toLowerCase searchQuery in
    filter (fun c =>
              let matchesCategory :=
                (jseq selectedCategory (lit "All") || groupIs c selectedCategory)%bool in
              if negb matchesCategory then false
              else if isEmpty searchQuery then true
              else includes (toLowerCase (name c)) lowerQuery)
           typeFiltered.

End Host.

End ChannelList.

(** ** The dashboard ([components/Dashboard.tsx]) *)
Module Dashboard.

Import Types JsMore DataProcessor Sorting ChannelList.

Inductive Tab := TabHOME | TabSEARCH | TabLIVE | TabMOVIE | TabSERIES | TabSETTINGS.

(** What the main list shows: channels on the Live and Movie tabs, series on
    the Series tab, both on the Search tab. *)
Inductive Item := ChannelItem (c : Channel) | SeriesItem (s : Series).

(** 1. Process Series (Global) *)
Definition allSeries (channels : list Channel) : list Series :=
  let seriesChannels := filter (fun c => contentTypeEqb (type c) SERIES) channels in
  processSeries seriesChannels.

(** 2. Get Base Data for Live/Movies *)
Definition baseData (channels : list Channel) (activeTab : Tab) : list Channel :=
  let type_ := match activeTab with
               | TabLIVE => Some LIVE
               | TabMOVIE => Some MOVIE
               | _ => None
               end in
  match type_ with
  | None => []
  | Some t => filter (fun c => contentTypeEqb (type c) t) channels
  end.

(** 3. Extract Categories (Groups) *)
Definition categories (channels : list Channel) (activeTab : Tab) : list jsstring :=
  match activeTab with
  | TabHOME | TabSEARCH | TabSETTINGS => []
  | _ =>
      let uniqueGroups :=
        match activeTab with
        | TabSERIES =>
            fold_left (fun set s => setAdd set (sgroup s)) (allSeries channels) []
        | _ =>
            fold_left (fun set c => setAdd set (groupLabel c))
              (baseData channels activeTab) []
        end in
      lit "All" :: sort compareCodeUnits uniqueGroups
  end.

Section Host.

Variable toLowerCase : jsstring -> jsstring.
Variable localeCompare : jsstring -> jsstring -> comparison.

(** 4. Categorized Search Results *)
Definition searchResults (channels : list Channel) (activeTab : Tab)
           (searchQuery : jsstring) : list Channel * list Channel * list Series :=
  match activeTab, searchQuery with
  | TabSEARCH, _ :: _ =>
      let lower := toLowerCase searchQuery in
      (filter (fun c => (contentTypeEqb (type c) LIVE
                         && includes (toLowerCase (name c)) lower)%bool) channels,
       filter (fun c => (contentTypeEqb (type c) MOVIE
                         && includes (toLowerCase (name c)) lower)%bool) channels,
       filter (fun s => includes (toLowerCase (sname s)) lower) (allSeries channels))
  | _, _ => ([], [], [])
  end.

(** 5. Filter & Sort Items for Display (Main List) *)
Definition filteredItems (channels : list Channel) (activeTab : Tab)
           (selectedCategory searchQuery : jsstring) (sortOrder : SortOption)
  : list Item :=
  match activeTab with
  | TabSEARCH =>
      match searchQuery with
      | [] => []
      | _ =>
          let '(live, movie, series) := searchResults channels activeTab searchQuery in
          map ChannelItem live ++ map ChannelItem movie ++ map SeriesItem series
      end
  | TabHOME | TabSETTINGS => []
  | TabSERIES =>
      let items := allSeries channels in
      (* Filter *)
      let items :=
        if negb (jseq selectedCategory (lit "All"))
        then filter (fun s => jseq (sgroup s) selectedCategory) items
        else items in
      (* Sort *)
      map SeriesItem (sortSeries localeCompare items sortOrder)
  | _ =>
      (* Live or Movie *)
      let items := baseData channels activeTab in
      (* Filter *)
      let items :=
        if negb (jseq selectedCategory (lit "All"))
        then filter (fun c => groupIs c selectedCategory) items
        else items in
      (* Sort *)
      map ChannelItem (sortChannels localeCompare items sortOrder)
  end.

End Host.

Definition cycle : list SortOption := [DEFAULT; A_Z; Z_A; RECENT; OLD].

Definition sortOptionEqb (a b : SortOption) : bool :=
  match a, b with
  | DEFAULT, DEFAULT | A_Z, A_Z | Z_A, Z_A | RECENT, RECENT | OLD, OLD => true
  | _, _ => false
  end.

(** [cycle.indexOf(x)], [-1] when absent. *)
Fixpoint indexOf (l : list SortOption) (x : SortOption) : Z :=
  match l with
  | [] => (-1)%Z
  | y :: r =>
      if sortOptionEqb y x then 0%Z
      else match indexOf r x with
           | Z.neg _ => (-1)%Z
           | i => (i + 1)%Z
           end
  end.

(** [toggleSort]: the next sort order; [None] would be [undefined]. *)
Definition toggleSort (sortOrder : SortOption) : option SortOption :=
  let currentIdx := indexOf cycle sortOrder in
  nth_error cycle (Z.to_nat ((currentIdx + 1) mod Z.of_nat (List.length cycle))).

End Dashboard.

(** * Properties *)

(** ** Facts about the string built-ins *)
Module JsFacts.

Lemma jseq_true_iff (a b : jsstring) : jseq a b = true <-> a = b.
Proof.
  unfold jseq. destruct (list_eq_dec N.eq_dec a b); split; congruence.
Qed.

Lemma jseq_refl (a : jsstring) : jseq a a = true.
Proof. now apply jseq_true_iff. Qed.

Lemma jseq_false_iff (a b : jsstring) : jseq a b = false <-> a <> b.
Proof.
  unfold jseq. destruct (list_eq_dec N.eq_dec a b); split; congruence.
Qed.

Lemma startsWith_spec (s p : jsstring) :
  startsWith s p = true <-> exists t, s = p ++ t.
Proof.
  revert s. induction p as [|a p IH]; intros s; simpl.
  - split; [intros _; now exists s | reflexivity].
  - destruct s as [|b s].
    + split; [discriminate | intros [t Ht]; discriminate].
    + rewrite andb_true_iff, N.eqb_eq, IH. split.
      * intros [-> [t ->]]. now exists t.
      * intros [t Ht]. injection Ht as -> ->. split; [reflexivity | now exists t].
Qed.

Lemma includes_spec (s p : jsstring) : includes s p = true <-> occursIn p s.
Proof.
  unfold occursIn. induction s as [|c s IH].
  - simpl. rewrite orb_false_r, startsWith_spec. split.
    + intros [t Ht]. now exists [], t.
    + intros [a [b H]]. destruct a; [now exists b | discriminate].
  - cbn [includes]. rewrite orb_true_iff, startsWith_spec, IH. split.
    + intros [[t Ht] | [a [b H]]].
      * now exists [], t.
      * exists (c :: a), b. now rewrite H.
    + intros [[|c' a] [b H]].
      * left. now exists b.
      * right. injection H as _ H. now exists a, b.
Qed.

Lemma includes_false_iff (s p : jsstring) : includes s p = false <-> ~ occursIn p s.
Proof.
  rewrite <- includes_spec. destruct (includes s p); split; congruence.
Qed.

(** [replace] rewrites the first occurrence and leaves the rest alone. *)
Lemma replace_first (s p r : jsstring) :
  includes s p = true ->
  exists a b, s = a ++ p ++ b /\ replace s p r = a ++ r ++ b /\
              forall a' b', s = a' ++ p ++ b' -> (List.length a <= List.length a')%nat.
Proof.
  induction s as [|c s IH]; intros Hin.
  - simpl in Hin. rewrite orb_false_r in Hin.
    pose proof Hin as Hp. apply startsWith_spec in Hp as [t Ht].
    exists [], t. split; [assumption|]. split.
    + simpl. rewrite Hin. destruct p; [|discriminate].
      simpl in Ht. subst t. reflexivity.
    + intros; simpl; lia.
  - cbn [includes replace] in *. destruct (startsWith (c :: s) p) eqn:Hsw.
    + pose proof Hsw as Hp. apply startsWith_spec in Hp as [t Ht].
      exists [], t. split; [assumption|]. split.
      * simpl. f_equal. rewrite Ht. rewrite skipn_app, skipn_all, Nat.sub_diag. reflexivity.
      * intros; simpl; lia.
    + simpl in Hin. destruct (IH Hin) as [a [b [Hs [Hr Hmin]]]].
      exists (c :: a), b. split; [now rewrite Hs|]. split; [simpl; now rewrite Hr|].
      intros [|c' a'] b' H'.
      * assert (startsWith (c :: s) p = true) by (apply startsWith_spec; now exists b').
        congruence.
      * injection H' as _ H'. simpl. apply Hmin in H'. lia.
Qed.

Lemma trimStart_split (s : jsstring) :
  exists l, s = l ++ trimStart s /\ blank l.
Proof.
  induction s as [|c s [l [Hl Hb]]]; simpl.
  - exists []. split; [reflexivity | constructor].
  - destruct (isWhiteSpace c) eqn:Hc.
    + exists (c :: l). split; [simpl; now f_equal | now constructor].
    + exists []. split; [reflexivity | constructor].
Qed.

Lemma trimStart_head (s : jsstring) c r :
  trimStart s = c :: r -> isWhiteSpace c = false.
Proof.
  induction s as [|d s IH]; simpl; [discriminate|].
  destruct (isWhiteSpace d) eqn:Hd; [assumption|].
  intros H; injection H as -> _. assumption.
Qed.

Lemma trimStart_id (s : jsstring) :
  (forall c r, s = c :: r -> isWhiteSpace c = false) -> trimStart s = s.
Proof.
  destruct s as [|c s]; simpl; [reflexivity|].
  intros H. now rewrite (H c s eq_refl).
Qed.

(** [trim] removes a blank prefix and a blank suffix, and no more. *)
Lemma trim_split (s : jsstring) :
  exists l r, s = l ++ trim s ++ r /\ blank l /\ blank r.
Proof.
  destruct (trimStart_split s) as [l [Hl Hbl]].
  destruct (trimStart_split (rev (trimStart s))) as [r [Hr Hbr]].
  exists l, (rev r). split; [|split; [assumption | now apply Forall_rev]].
  unfold trim, trimEnd. rewrite <- rev_app_distr, <- Hr, rev_involutive. exact Hl.
Qed.

Lemma trim_trimmed (s : jsstring) : trimmed (trim s).
Proof.
  destruct (trimStart_split (rev (trimStart s))) as [r [Hr Hbr]].
  assert (Ht : trimStart s = trim s ++ rev r).
  { unfold trim, trimEnd. rewrite <- rev_app_distr, <- Hr. now rewrite rev_involutive. }
  split; intros c t Hc.
  - rewrite Hc in Ht. simpl in Ht. eapply trimStart_head; eassumption.
  - unfold trim, trimEnd in Hc. apply (f_equal (@rev N)) in Hc.
    rewrite rev_involutive, rev_app_distr in Hc. simpl in Hc.
    eapply trimStart_head; eassumption.
Qed.

Lemma trim_id (s : jsstring) : trimmed s -> trim s = s.
Proof.
  intros [Hh Hl]. unfold trim, trimEnd. rewrite (trimStart_id _ Hh).
  rewrite trimStart_id; [apply rev_involutive|].
  intros c r Hr. apply (Hl c (rev r)).
  rewrite <- (rev_involutive s), Hr. reflexivity.
Qed.

End JsFacts.

(** ** The strategy catalog *)
Module CatalogFacts.

Import JsFacts Catalog.

Lemma catalog_length : List.length STRATEGIES = 4%nat.
Proof. reflexivity. Qed.

Lemma strategyAt_Some (i : Z) :
  (0 <= i <= 3)%Z -> exists st, strategyAt i = Some st.
Proof.
  intros H.
  assert (Hi : i = 0%Z \/ i = 1%Z \/ i = 2%Z \/ i = 3%Z) by lia.
  destruct Hi as [-> | [-> | [-> | ->]]]; eexists; reflexivity.
Qed.

(** C7, as stated, fails: an address with white space around it is not
    returned unchanged.  [" a?b"] has a query component and no
    transport-stream marker, and comes back as ["a?b"]. *)
Lemma transformDirect_changes_padded_address :
  let u := lit " a?b" in
  ~ occursIn (lit "output=ts") u /\ occursIn (lit "?") u /\
  transformDirect u = lit "a?b" /\ transformDirect u <> u.
Proof.
  cbv zeta. split; [|split; [|split]].
  - apply includes_false_iff. reflexivity.
  - apply includes_spec. reflexivity.
  - reflexivity.
  - discriminate.
Qed.

(** C7, amended: the Direct transform works on the trimmed address [url].
    It rewrites the first ["output=ts"] of [url] to ["output=m3u8"]; otherwise,
    when [url] has no [".m3u8"], no [".mp4"] and no ["?"], it appends
    [".m3u8"]; otherwise it returns [url]. *)
Theorem transformDirect_spec (u : jsstring) :
  let url := trim u in
  (exists l r, u = l ++ url ++ r /\ blank l /\ blank r) /\ trimmed url /\
  (exists st, strategyAt 0 = Some st /\ mode st = HLS /\
              transform st u = Some (transformDirect u)) /\
  ((exists a b, url = a ++ lit "output=ts" ++ b /\
                (forall a' b', url = a' ++ lit "output=ts" ++ b' ->
                               (List.length a <= List.length a')%nat) /\
                transformDirect u = a ++ lit "output=m3u8" ++ b)
   \/ (~ occursIn (lit "output=ts") url /\ ~ occursIn (lit ".m3u8") url /\
       ~ occursIn (lit ".mp4") url /\ ~ occursIn (lit "?") url /\
       transformDirect u = url ++ lit ".m3u8")
   \/ (~ occursIn (lit "output=ts") url /\
       (occursIn (lit ".m3u8") url \/ occursIn (lit ".mp4") url \/
        occursIn (lit "?") url) /\
       transformDirect u = url)).
Proof.
  cbv zeta. split; [apply trim_split|]. split; [apply trim_trimmed|].
  split; [eexists; repeat split|].
  unfold transformDirect.
  destruct (includes (trim u) (lit "output=ts")) eqn:Hts.
  - left. destruct (replace_first _ _ (lit "output=m3u8") Hts) as [a [b [H1 [H2 H3]]]].
    exists a, b. auto.
  - right. apply includes_false_iff in Hts.
    destruct (includes (trim u) (lit ".m3u8")) eqn:H1;
      [right; split; [assumption|]; split; [|reflexivity];
       left; now apply includes_spec|].
    destruct (includes (trim u) (lit ".mp4")) eqn:H2;
      [right; split; [assumption|]; split; [|reflexivity];
       right; left; now apply includes_spec|].
    destruct (includes (trim u) (lit "?")) eqn:H3;
      [right; split; [assumption|]; split; [|reflexivity];
       right; right; now apply includes_spec|].
    left. apply includes_false_iff in H1, H2, H3. simpl. auto.
Qed.

Lemma transformDirect_spec_witness :
  exists a b, trim (lit " http://h/live?output=ts ") = a ++ lit "output=ts" ++ b /\
              transformDirect (lit " http://h/live?output=ts ")
              = a ++ lit "output=m3u8" ++ b.
Proof.
  destruct (transformDirect_spec (lit " http://h/live?output=ts "))
    as [_ [_ [_ [[a [b [H1 [_ H2]]]] | [[H _] | [H _]]]]]].
  - exists a, b. split; assumption.
  - exfalso. apply H. apply includes_spec. reflexivity.
  - exfalso. apply H. apply includes_spec. reflexivity.
Defined.

(** C8, as stated, fails: the Native transform is not the identity on an
    address with white space around it. *)
Lemma transformNative_not_identity :
  transformNative (lit " a") = lit "a" /\ transformNative (lit " a") <> lit " a".
Proof. split; [reflexivity | discriminate]. Qed.

(** C8, amended: the Native transform returns the address without its
    leading and trailing white space, and is the identity exactly on the
    addresses that have none. *)
Theorem transformNative_spec (u : jsstring) :
  (exists l r, u = l ++ transformNative u ++ r /\ blank l /\ blank r) /\
  trimmed (transformNative u) /\
  (transformNative u = u <-> trimmed u) /\
  (exists st, strategyAt 3 = Some st /\ mode st = NATIVE /\
              transform st u = Some (transformNative u)).
Proof.
  unfold transformNative. split; [apply trim_split|]. split; [apply trim_trimmed|].
  split.
  - split; [intros <-; apply trim_trimmed | apply trim_id].
  - eexists; repeat split.
Qed.

Lemma transformNative_spec_witness :
  trimmed (lit "http://h/movie.mp4") /\
  transformNative (lit "http://h/movie.mp4") = lit "http://h/movie.mp4".
Proof.
  assert (H : transformNative (lit "http://h/movie.mp4") = lit "http://h/movie.mp4")
    by reflexivity.
  split; [|exact H].
  apply (proj1 (proj2 (proj2 (transformNative_spec (lit "http://h/movie.mp4"))))).
  exact H.
Defined.

Lemma initialStrategyIndex_guard (window : option jsstring) (url : jsstring) :
  (secureContext window /\ insecureAddress url ->
   initialStrategyIndex window url = 1%Z) /\
  (~ (secureContext window /\ insecureAddress url) ->
   initialStrategyIndex window url = 0%Z).
Proof.
  unfold secureContext, insecureAddress, initialStrategyIndex. split.
  - intros [-> Hu]. apply startsWith_spec in Hu. rewrite Hu. reflexivity.
  - intros Hn. destruct window as [p|]; [|reflexivity].
    destruct (jseq p (lit "https:")) eqn:Hp; [|reflexivity].
    destruct (startsWith url (lit "http:")) eqn:Hu; [|reflexivity].
    exfalso. apply Hn. apply jseq_true_iff in Hp. apply startsWith_spec in Hu.
    subst p. split; [reflexivity | assumption].
Qed.

End CatalogFacts.

(** ** The connection controller *)
Module PlayerFacts.

Import JsFacts Catalog CatalogFacts Player.

Local Open Scope Z_scope.

Lemma sameSession_refl s : sameSession s s.
Proof. repeat split. Qed.

Lemma sameSession_trans s1 s2 s3 :
  sameSession s1 s2 -> sameSession s2 s3 -> sameSession s1 s3.
Proof.
  unfold sameSession. intros (A1 & A2 & A3 & A4 & A5 & A6) (B1 & B2 & B3 & B4 & B5 & B6).
  repeat split; congruence.
Qed.

Ltac unfold_effect :=
  unfold runEffect, cleanup, destroyHls, call in *.

(** Case analysis on every test the goal still branches on. *)
Ltac split_cases :=
  repeat (cbn in *;
          match goal with
          | |- context [match ?x with _ => _ end] => destruct x eqn:?
          end);
  cbn in *.

Ltac same_fields := repeat split; congruence.

Lemma destroyHls_same s : sameSession s (destroyHls s).
Proof. unfold sameSession, destroyHls, call. split_cases; same_fields. Qed.

Lemma cleanup_same s : sameSession s (cleanup s).
Proof. unfold sameSession. unfold_effect. split_cases; same_fields. Qed.

Lemma runEffect_same s : sameSession s (runEffect s).
Proof. unfold sameSession. unfold_effect. split_cases; same_fields. Qed.

Lemma render_same s : sameSession s (render s).
Proof.
  unfold render. destruct (mounted s); [|apply sameSession_refl].
  destruct (depsEqb (depsOf s) (lastDeps s)); [apply sameSession_refl|].
  eapply sameSession_trans; [apply cleanup_same | apply runEffect_same].
Qed.

Lemma depsEqb_true_iff a b : depsEqb a b = true <-> a = b.
Proof.
  destruct a as [u1 i1 r1 c1], b as [u2 i2 r2 c2]. unfold depsEqb. cbn.
  rewrite !andb_true_iff, jseq_true_iff, !Z.eqb_eq, Bool.eqb_true_iff.
  split; [intros [[[-> ->] ->] ->]; reflexivity | intros H; injection H; auto].
Qed.

Lemma depsOf_same s s' : sameSession s s' -> depsOf s' = depsOf s.
Proof. unfold depsOf. intros (-> & -> & -> & -> & _). reflexivity. Qed.

(** After a run of the effect that did not throw, the recorded dependencies
    are the current ones. *)
Lemma runEffect_lastDeps s :
  mounted s = true -> mounted (runEffect s) = true ->
  lastDeps (runEffect s) = depsOf (runEffect s).
Proof.
  intros Hm. rewrite (depsOf_same _ _ (runEffect_same s)).
  unfold_effect. unfold depsOf. split_cases; intros; (reflexivity || congruence).
Qed.

Lemma cleanup_mounted s : mounted (cleanup s) = mounted s.
Proof. unfold_effect. split_cases; reflexivity. Qed.

Lemma render_lastDeps s :
  mounted (render s) = true -> lastDeps (render s) = depsOf (render s).
Proof.
  unfold render. destruct (mounted s) eqn:Hm; [|congruence].
  destruct (depsEqb (depsOf s) (lastDeps s)) eqn:Hd.
  - intros _. apply depsEqb_true_iff in Hd. congruence.
  - apply runEffect_lastDeps. now rewrite cleanup_mounted.
Qed.

(** The effect is in step with the state between two callbacks. *)
Lemma reachable_lastDeps s :
  reachable s -> mounted s = true -> lastDeps s = depsOf s.
Proof.
  intros H. induction H as [window u hlsOk | e s H IH].
  - unfold mount. apply runEffect_lastDeps. reflexivity.
  - unfold step. destruct (mounted s) eqn:Hm; [|congruence].
    apply render_lastDeps.
Qed.

(** When nothing the effect depends on changed, the commit does nothing. *)
Lemma render_noop s :
  lastDeps s = depsOf s -> render s = s.
Proof.
  intros H. unfold render. destruct (mounted s); [|reflexivity].
  rewrite H. now rewrite (proj2 (depsEqb_true_iff _ _) eq_refl).
Qed.

(** *** The strategy index stays inside the catalog *)


Lemma mount_valid window u hlsOk : validIndex (mount window u hlsOk).
Proof.
  unfold validIndex, mount.
  destruct (runEffect_same
              (mkState u hlsOk false true None 0 false (initialStrategyIndex window u)
                 Double.zero true 0 NoHls 0 [] []
                 (mkDeps u (initialStrategyIndex window u) false 0)
                 HLS true)) as [-> _].
  cbn. unfold initialStrategyIndex. destruct window as [p|]; [|lia].
  destruct (jseq p (lit "https:") && startsWith u (lit "http:"))%bool; lia.
Qed.

Lemma attemptNextStrategy_valid s : validIndex s -> validIndex (attemptNextStrategy s).
Proof.
  unfold validIndex, attemptNextStrategy. intros H. rewrite catalog_length.
  destruct (strategyIndex s <? Z.of_nat 4 - 1) eqn:Hlt.
  - apply Z.ltb_lt in Hlt. destruct (strategyAt (strategyIndex s + 1)); cbn; lia.
  - cbn. lia.
Qed.

Lemma cooldownElapsed_valid s : validIndex (cooldownElapsed s).
Proof. unfold validIndex. cbn. lia. Qed.

Lemma forceRetry_valid s : validIndex (forceRetry s).
Proof. unfold validIndex. cbn. lia. Qed.

Lemma handleStall_same s : sameSession s (handleStall s).
Proof. unfold sameSession, handleStall, call. split_cases; same_fields. Qed.

Lemma watchdog_same seen s : sameSession s (watchdog seen s).
Proof.
  unfold watchdog. destruct (negb (paused s) && (readyState s <? 3) && seen)%bool;
    [apply handleStall_same | apply sameSession_refl].
Qed.

Lemma runCallback_valid t s : validIndex s -> validIndex (runCallback t s).
Proof.
  unfold runCallback. intros H. destruct (cb t) as [| |seen].
  - apply cooldownElapsed_valid.
  - now apply attemptNextStrategy_valid.
  - unfold validIndex. cbn. destruct (watchdog_same seen s) as [-> _]. exact H.
Qed.

Lemma handle_valid e s : validIndex s -> validIndex (handle e s).
Proof.
  intros H. destruct e; cbn; try exact H.
  - destruct (hlsRef s); try exact H.
    unfold onHlsError. destruct fatal; [|exact H]. destruct ty; try exact H.
    now apply attemptNextStrategy_valid.
  - destruct (hlsRef s); exact H.
  - destruct (effectMode s); exact H.
  - destruct (retryOffered s); [apply forceRetry_valid | exact H].
  - destruct ((0 <=? dt) && _)%bool; exact H.
  - destruct (minDue (timers s)) as [d|]; [|exact H].
    destruct (d <=? now s); [|exact H].
    destruct (takeDue d (timers s)) as [[t rest]|]; [|exact H].
    now apply runCallback_valid.
Qed.

Lemma step_valid e s : validIndex s -> validIndex (step e s).
Proof.
  intros H. unfold step. destruct (mounted s); [|exact H].
  unfold validIndex. destruct (render_same (handle e s)) as [-> _].
  now apply handle_valid.
Qed.

(** C3.  In every reachable session state the strategy index is a valid
    index into the four-entry catalog: mounting, escalation, the cooldown
    reset, a forced retry and every other callback keep
    [0 <= strategyIndex <= 3], so [STRATEGIES[strategyIndex]] is always defined. *)
Theorem strategyIndex_always_valid (s : State) :
  reachable s ->
  0 <= strategyIndex s <= Z.of_nat (List.length STRATEGIES) - 1 /\
  exists st, strategyAt (strategyIndex s) = Some st.
Proof.
  intros H. assert (Hv : validIndex s).
  { induction H; [apply mount_valid | now apply step_valid]. }
  split; [rewrite catalog_length; exact Hv | now apply strategyAt_Some].
Qed.

Lemma strategyIndex_always_valid_witness :
  reachable coolingDown /\ 0 <= strategyIndex coolingDown <= 3.
Proof.
  assert (H : reachable coolingDown).
  { unfold coolingDown, exhausted, run. cbn [fold_left].
    repeat apply reach_step. apply reach_mount. }
  split; [exact H | exact (proj1 (strategyIndex_always_valid coolingDown H))].
Defined.

Lemma reachable_settled s : reachable s -> mounted s = true -> settled s.
Proof. intros H Hm. split; [assumption | now apply reachable_lastDeps]. Qed.

Lemma render_changed s :
  mounted s = true -> depsOf s <> lastDeps s -> render s = runEffect (cleanup s).
Proof.
  intros Hm Hd. unfold render. rewrite Hm.
  destruct (depsEqb (depsOf s) (lastDeps s)) eqn:E; [|reflexivity].
  apply depsEqb_true_iff in E. contradiction.
Qed.

Lemma render_settled s : mounted (render s) = true -> settled (render s).
Proof. intros H. split; [assumption | now apply render_lastDeps]. Qed.

(** A run of the effect whose strategy resolves the address. *)
Lemma runEffect_resolved x st e :
  strategyAt (strategyIndex x) = Some st -> transform st (url x) = Some e ->
  mounted (runEffect x) = mounted x /\
  timers (runEffect x)
  = clearWatchdog (timers x) ++ [mkTimer (now x + 5000) (CbWatchdog (isLoading x))] /\
  calls (runEffect x) = calls (destroyHls x) ++ [attachOf st e x] /\
  error (runEffect x) = None.
Proof.
  intros H1 H2. unfold runEffect, attachOf. rewrite H1.
  destruct x as [u sup pl ld er rc rec idx ct pa rs hr nw ts cs dp em mt].
  cbn in H2 |- *. rewrite H2. unfold destroyHls, call.
  destruct hr, (mode st), sup; cbn; repeat split.
Qed.

Lemma cleanup_timers x : clearWatchdog (timers (cleanup x)) = clearWatchdog (timers x).
Proof.
  unfold cleanup, destroyHls, call. destruct (effectMode x); [|reflexivity].
  destruct x as [u sup pl ld er rc rec idx ct pa rs hr nw ts cs dp em mt].
  cbn. destruct hr; cbn; unfold clearWatchdog;
    induction ts as [|t ts IH]; cbn; try reflexivity;
    destruct (isWatchdog t) eqn:E; cbn; rewrite ?E; cbn; congruence.
Qed.

Lemma cleanup_isLoading x : isLoading (cleanup x) = isLoading x.
Proof.
  unfold cleanup, destroyHls, call. destruct (effectMode x); [|reflexivity].
  destruct x as [u sup pl ld er rc rec idx ct pa rs hr nw ts cs dp em mt].
  cbn. destruct hr; reflexivity.
Qed.

(** The commit after a change: a new attempt on the current strategy, and
    the watchdog armed afresh. *)
Lemma render_restart x st e :
  mounted x = true -> depsOf x <> lastDeps x ->
  strategyAt (strategyIndex x) = Some st -> transform st (url x) = Some e ->
  settled (render x) /\
  timers (render x)
  = clearWatchdog (timers x) ++ [mkTimer (now x + 5000) (CbWatchdog (isLoading x))] /\
  error (render x) = None /\
  exists pre, calls (render x) = pre ++ [attachOf st e x].
Proof.
  intros Hm Hd H1 H2.
  destruct (cleanup_same x) as (C1 & _ & _ & C4 & C5 & C6).
  assert (Hr : render x = runEffect (cleanup x)) by now apply render_changed.
  destruct (runEffect_resolved (cleanup x) st e) as (R1 & R2 & R3 & R4);
    [congruence | congruence |].
  assert (Hmr : mounted (render x) = true)
    by (rewrite Hr, R1, cleanup_mounted; exact Hm).
  split; [now apply render_settled|]. rewrite Hr. split; [|split].
  - rewrite R2, cleanup_timers, cleanup_isLoading, C6. reflexivity.
  - exact R4.
  - eexists. rewrite R3. unfold attachOf. rewrite C5. reflexivity.
Qed.

Lemma strategyAt_0 : strategyAt 0 = Some directStrategy.
Proof. reflexivity. Qed.

Lemma strategyAt_3 : strategyAt 3 = Some nativeStrategy.
Proof. reflexivity. Qed.

(** The cooldown callback: index 0, one more retry cycle, reconnecting
    cleared, and a new attempt on strategy 0. *)
Lemma cooldown_fires s d :
  settled s ->
  let s' := render (runCallback (mkTimer d CbCooldown) s) in
  settled s' /\ strategyIndex s' = 0 /\ retryCount s' = retryCount s + 1 /\
  isReconnecting s' = false /\ exists pre, calls s' = pre ++ [attachDirect s].
Proof.
  intros [Hm Hd]. cbv zeta. unfold runCallback. cbn [cb].
  destruct (render_same (cooldownElapsed s)) as (E1 & E2 & E3 & _).
  assert (Hm' : mounted (cooldownElapsed s) = true) by exact Hm.
  assert (Hne : depsOf (cooldownElapsed s) <> lastDeps (cooldownElapsed s)).
  { unfold cooldownElapsed. cbn. rewrite Hd. unfold depsOf.
    intros E; injection E; lia. }
  assert (Hst : strategyAt (strategyIndex (cooldownElapsed s)) = Some directStrategy)
    by reflexivity.
  assert (Htr : transform directStrategy (url (cooldownElapsed s))
                = Some (transformDirect (url s))) by reflexivity.
  destruct (render_restart _ _ _ Hm' Hne Hst Htr) as (R1 & _ & _ & pre & R3).
  rewrite E1, E2, E3. repeat split; try apply R1. exists pre. exact R3.
Qed.

(** *** The mixed-origin guard *)

(** C4, as stated, fails for a session created by a change of address: the
    guard sits in the initialiser of the state and is not applied again.  A
    player mounted in a secure context on an [https:] address and then given
    an [http:] address stays on index 0 and hands the insecure address to
    the Direct strategy.  At mount the guard is the literal test
    [url.startsWith('http:')]: an insecure address with leading white space
    or an upper-case scheme starts at index 0 too. *)
Lemma guard_not_applied_to_a_new_address :
  let s0 := mount (Some (lit "https:")) (lit "https://h/a.m3u8") true in
  let s1 := step (SetUrl (lit "http://h/b.m3u8")) s0 in
  url s1 = lit "http://h/b.m3u8" /\ strategyIndex s1 = 0 /\
  last (calls s1) VideoUnload = HlsLoadSource (lit "http://h/b.m3u8") /\
  strategyIndex (mount (Some (lit "https:")) (lit " http://h/b.m3u8") true) = 0 /\
  strategyIndex (mount (Some (lit "https:")) (lit "HTTP://h/b.m3u8") true) = 0.
Proof. vm_compute. repeat split. Qed.

(** C4, amended.  When the player is mounted, the strategy index starts at 1
    (Direct is skipped) exactly when the page's protocol is [https:] and the
    address starts with the characters [http:], tested on the address as
    given, without trimming or case folding; in every other case it starts
    at 0.  A later change of address installs the new address and keeps the
    current index. *)
Theorem mixed_origin_guard (window : option jsstring) (u : jsstring) (hlsOk : bool) :
  (secureContext window /\ insecureAddress u ->
   strategyIndex (mount window u hlsOk) = 1) /\
  (~ (secureContext window /\ insecureAddress u) ->
   strategyIndex (mount window u hlsOk) = 0) /\
  (forall c rest, u = c :: rest -> c <> 104%N ->
                  strategyIndex (mount window u hlsOk) = 0) /\
  (forall s u', strategyIndex (step (SetUrl u') s) = strategyIndex s /\
                (mounted s = true -> url (step (SetUrl u') s) = u')).
Proof.
  assert (E : strategyIndex (mount window u hlsOk) = initialStrategyIndex window u).
  { unfold mount. now destruct (runEffect_same
      (mkState u hlsOk false true None 0 false (initialStrategyIndex window u)
         Double.zero true 0 NoHls 0 [] []
         (mkDeps u (initialStrategyIndex window u) false 0)
         HLS true)) as [-> _]. }
  rewrite E. destruct (initialStrategyIndex_guard window u) as [G1 G0].
  split; [exact G1|]. split; [exact G0|]. split.
  - intros c rest -> Hc. apply G0. intros [_ [r Hr]].
    change (lit "http:") with (104%N :: lit "ttp:") in Hr. cbn [app] in Hr.
    injection Hr as Hr _. contradiction.
  - intros s u'. unfold step. destruct (mounted s) eqn:Hm.
    + destruct (render_same (handle (SetUrl u') s)) as (R1 & _ & _ & R4 & _).
      split; [rewrite R1; reflexivity | intros _; rewrite R4; reflexivity].
    + split; [reflexivity | discriminate].
Qed.

Lemma mixed_origin_guard_witness :
  strategyIndex (mount (Some (lit "https:")) (lit "http://h/live") true) = 1 /\
  strategyIndex (mount (Some (lit "http:")) (lit "http://h/live") true) = 0 /\
  strategyIndex (mount (Some (lit "https:")) (lit " http://h/live") true) = 0 /\
  url (step (SetUrl (lit "http://h/b")) (mount None (lit "https://h/a") true))
  = lit "http://h/b".
Proof.
  split; [|split; [|split]].
  - apply (proj1 (mixed_origin_guard (Some (lit "https:")) (lit "http://h/live") true)).
    split; [reflexivity | exists (lit "//h/live"); vm_compute; reflexivity].
  - apply (proj1 (proj2 (mixed_origin_guard (Some (lit "http:")) (lit "http://h/live")
                           true))).
    unfold secureContext. intros [H _]. vm_compute in H. discriminate.
  - apply (proj1 (proj2 (proj2 (mixed_origin_guard (Some (lit "https:"))
                                  (lit " http://h/live") true)))
             32%N (lit "http://h/live")); [reflexivity | discriminate].
  - apply (proj2 (proj2 (proj2 (proj2 (mixed_origin_guard None [] true)))
                    (mount None (lit "https://h/a") true) (lit "http://h/b"))).
    vm_compute. reflexivity.
Defined.

(** *** Fatal sink errors *)





(** *** Exhausting the catalog: the cooldown *)

Lemma clearWatchdog_all (ts : list Timer) :
  Forall (fun t => isWatchdog t = true) ts -> clearWatchdog ts = [].
Proof.
  induction 1 as [|t ts Ht _ IH]; [reflexivity|].
  unfold clearWatchdog in *. cbn. now rewrite Ht.
Qed.

Lemma clearWatchdog_app (a b : list Timer) :
  clearWatchdog (a ++ b) = clearWatchdog a ++ clearWatchdog b.
Proof. apply filter_app. Qed.

Lemma clearWatchdog_idem (ts : list Timer) :
  clearWatchdog (clearWatchdog ts) = clearWatchdog ts.
Proof.
  unfold clearWatchdog. induction ts as [|t ts IH]; [reflexivity|].
  cbn. destruct (isWatchdog t) eqn:E; cbn; [assumption|]. now rewrite E, IH.
Qed.

Lemma attemptNextStrategy_at_last s :
  strategyIndex s = 3 ->
  attemptNextStrategy s
  = set_timers (timers s ++ [mkTimer (now s + 3000) CbCooldown])
      (set_isReconnecting true s).
Proof. intros Hi. unfold attemptNextStrategy. rewrite Hi. reflexivity. Qed.

(** Escalating on the last strategy. *)
Lemma escalate_at_last s :
  settled s -> strategyIndex s = 3 ->
  let s1 := render (attemptNextStrategy s) in
  settled s1 /\ strategyIndex s1 = 3 /\ retryCount s1 = retryCount s /\
  isReconnecting s1 = true /\ now s1 = now s /\
  In (mkTimer (now s + 3000) CbCooldown) (timers s1) /\
  (isReconnecting s = false ->
   timers s1 = clearWatchdog (timers s)
               ++ [mkTimer (now s + 3000) CbCooldown;
                   mkTimer (now s + 5000) (CbWatchdog (isLoading s))]).
Proof.
  intros [Hm Hd] Hi. cbv zeta. rewrite (attemptNextStrategy_at_last s Hi).
  set (x := set_timers _ _).
  destruct (render_same x) as (E1 & E2 & E3 & _ & _ & E6).
  assert (Hx : strategyIndex x = 3 /\ retryCount x = retryCount s /\
               isReconnecting x = true /\ now x = now s /\ mounted x = true /\
               timers x = timers s ++ [mkTimer (now s + 3000) CbCooldown] /\
               isLoading x = isLoading s /\ lastDeps x = lastDeps s /\ url x = url s)
    by (subst x; cbn; auto 10).
  destruct Hx as (X1 & X2 & X3 & X4 & X5 & X6 & X7 & X8 & X9).
  rewrite E1, E2, E3, E6, X1, X2, X3, X4.
  destruct (isReconnecting s) eqn:Hrec.
  - (* already reconnecting: nothing the effect depends on changed *)
    assert (Hn : render x = x).
    { apply render_noop. rewrite X8, Hd. unfold depsOf. congruence. }
    rewrite Hn, X6. repeat split; try assumption; try discriminate.
    + rewrite X8, Hd. unfold depsOf. congruence.
    + apply in_or_app. right. now left.
  - assert (Hne : depsOf x <> lastDeps x).
    { rewrite X8, Hd. unfold depsOf. rewrite X3, Hrec. intros E; discriminate. }
    assert (Hst : strategyAt (strategyIndex x) = Some nativeStrategy)
      by (rewrite X1; reflexivity).
    assert (Htr : transform nativeStrategy (url x) = Some (transformNative (url x)))
      by reflexivity.
    destruct (render_restart _ _ _ X5 Hne Hst Htr) as (R1 & R2 & _).
    rewrite R2, X6, X4, X7, clearWatchdog_app, <- app_assoc. cbn [clearWatchdog filter app].
    repeat split; try apply R1.
    apply in_or_app. right. now left.
Qed.

(** *** Timers and the clock *)

Lemma step_wait s dt :
  settled s -> 0 <= dt ->
  (forall d, minDue (timers s) = Some d -> now s + dt <= d) ->
  step (Wait dt) s = set_now (now s + dt) s.
Proof.
  intros [Hm Hd] Hdt Hmin. unfold step. rewrite Hm. cbn [handle].
  replace (0 <=? dt) with true by (symmetry; now apply Z.leb_le).
  assert (E : match minDue (timers s) with
              | Some d => now s + dt <=? d
              | None => true
              end = true).
  { destruct (minDue (timers s)) as [d|]; [|reflexivity].
    apply Z.leb_le. now apply Hmin. }
  rewrite E. cbn [andb]. apply render_noop. exact Hd.
Qed.

Lemma settled_set_now s v : settled s -> settled (set_now v s).
Proof. intros [Hm Hd]. split; [exact Hm | exact Hd]. Qed.

Lemma settled_set_timers s v : settled s -> settled (set_timers v s).
Proof. intros [Hm Hd]. split; [exact Hm | exact Hd]. Qed.

(** No timer runs before it is due. *)
Lemma step_fire_early s d :
  settled s -> minDue (timers s) = Some d -> now s < d -> step Fire s = s.
Proof.
  intros [Hm Hd] Hmin Hlt. unfold step. rewrite Hm. cbn [handle]. rewrite Hmin.
  replace (d <=? now s) with false by (symmetry; apply Z.leb_gt; lia).
  now apply render_noop.
Qed.

Lemma step_fire s d t rest :
  settled s -> minDue (timers s) = Some d -> d <= now s ->
  takeDue d (timers s) = Some (t, rest) ->
  step Fire s = render (runCallback t (set_timers rest s)).
Proof.
  intros [Hm Hd] Hmin Hle Htake. unfold step. rewrite Hm. cbn [handle].
  rewrite Hmin. replace (d <=? now s) with true by (symmetry; now apply Z.leb_le).
  rewrite Htake. reflexivity.
Qed.

(** C2.  Escalating on the last strategy (index 3) does not end the
    session: it raises [isReconnecting] and arms a timer due 3000 ms later;
    the index and the retry count stay as they are meanwhile.  When that timer
    fires, the index becomes 0, the retry count grows by exactly one,
    [isReconnecting] is cleared and a new attempt starts on strategy 0.  With
    no other timeout pending, the timer fires once 3000 ms have passed and not
    before. *)
Theorem cooldown_after_last_strategy (s : State) :
  settled s -> strategyIndex s = Z.of_nat (List.length STRATEGIES) - 1 ->
  let s1 := render (attemptNextStrategy s) in
  (settled s1 /\ strategyIndex s1 = 3 /\ retryCount s1 = retryCount s /\
   isReconnecting s1 = true /\ In (mkTimer (now s + 3000) CbCooldown) (timers s1)) /\
  (forall s2, settled s2 ->
     let s3 := render (runCallback (mkTimer (now s + 3000) CbCooldown) s2) in
     settled s3 /\ strategyIndex s3 = 0 /\ retryCount s3 = retryCount s2 + 1 /\
     isReconnecting s3 = false /\ exists pre, calls s3 = pre ++ [attachDirect s2]) /\
  (isReconnecting s = false -> Forall (fun t => isWatchdog t = true) (timers s) ->
     (forall dt, 0 <= dt < 3000 -> run [Wait dt; Fire] s1 = set_now (now s + dt) s1) /\
     let s3 := run [Wait 3000; Fire] s1 in
     now s3 = now s + 3000 /\ strategyIndex s3 = 0 /\
     retryCount s3 = retryCount s + 1 /\ isReconnecting s3 = false /\
     exists pre, calls s3 = pre ++ [attachDirect s]).
Proof.
  intros Hs Hi. rewrite catalog_length in Hi. change (Z.of_nat 4 - 1) with 3 in Hi.
  cbv zeta.
  destruct (escalate_at_last s Hs Hi) as (Hs1 & Hi1 & Hr1 & Hrec1 & Hn1 & Hin & Hts).
  split; [repeat split; try assumption; apply Hs1|].
  split; [intros s2 Hs2; apply cooldown_fires; assumption|].
  intros Hrec Hwd. specialize (Hts Hrec). rewrite (clearWatchdog_all _ Hwd) in Hts.
  cbn [app] in Hts.
  pose proof (render_same (attemptNextStrategy s)) as (_ & _ & _ & U & S & _).
  assert (U' : url (attemptNextStrategy s) = url s)
    by (rewrite (attemptNextStrategy_at_last s Hi); reflexivity).
  assert (S' : hlsSupported (attemptNextStrategy s) = hlsSupported s)
    by (rewrite (attemptNextStrategy_at_last s Hi); reflexivity).
  rewrite U' in U. rewrite S' in S.
  set (s1 := render (attemptNextStrategy s)) in *.
  assert (Hmin : minDue (timers s1) = Some (now s + 3000)).
  { rewrite Hts. cbn. f_equal. lia. }
  assert (Hwait : forall dt, 0 <= dt <= 3000 ->
                             step (Wait dt) s1 = set_now (now s + dt) s1).
  { intros dt Hdt. rewrite <- Hn1. apply step_wait; [assumption | lia |].
    intros d Hd. rewrite Hmin in Hd. injection Hd as <-. lia. }
  split.
  - intros dt Hdt. cbn [run fold_left]. rewrite Hwait by lia.
    apply (step_fire_early _ (now s + 3000)).
    + now apply settled_set_now.
    + exact Hmin.
    + cbn. lia.
  - cbn [run fold_left]. rewrite Hwait by lia.
    rewrite (step_fire (set_now (now s + 3000) s1) (now s + 3000)
               (mkTimer (now s + 3000) CbCooldown)
               [mkTimer (now s + 5000) (CbWatchdog (isLoading s))]).
    + set (s2 := set_timers _ _).
      assert (Hs2 : settled s2)
        by (subst s2; now apply settled_set_timers, settled_set_now).
      destruct (cooldown_fires s2 (now s + 3000) Hs2) as (_ & E1 & E2 & E3 & pre & E4).
      pose proof (render_same (runCallback (mkTimer (now s + 3000) CbCooldown) s2))
        as (_ & _ & _ & _ & _ & E5).
      rewrite E1, E2, E3, E5. repeat split.
      * subst s2. cbn. rewrite Hr1. reflexivity.
      * exists pre. rewrite E4. f_equal. f_equal. subst s2.
        unfold attachDirect. cbn. rewrite U, S. reflexivity.
    + now apply settled_set_now.
    + exact Hmin.
    + cbn. lia.
    + cbn [timers set_now]. rewrite Hts. cbn [takeDue due]. now rewrite Z.eqb_refl.
Qed.

Lemma cooldown_after_last_strategy_witness :
  let s1 := render (attemptNextStrategy exhausted) in
  let s3 := run [Wait 3000; Fire] s1 in
  strategyIndex exhausted = 3 /\ isReconnecting s1 = true /\
  now s3 = 3000 /\ strategyIndex s3 = 0 /\ retryCount s3 = 1 /\ isReconnecting s3 = false.
Proof.
  cbv zeta.
  assert (H1 : settled exhausted) by (split; vm_compute; reflexivity).
  assert (H2 : strategyIndex exhausted = Z.of_nat (List.length STRATEGIES) - 1)
    by (vm_compute; reflexivity).
  assert (H3 : isReconnecting exhausted = false) by (vm_compute; reflexivity).
  assert (H4 : Forall (fun t => isWatchdog t = true) (timers exhausted))
    by (vm_compute; repeat constructor).
  destruct (cooldown_after_last_strategy exhausted H1 H2) as [(_ & _ & _ & R & _) [_ H]].
  destruct (H H3 H4) as [_ (E1 & E2 & E3 & E4 & _)].
  assert (H5 : strategyIndex exhausted = 3) by (vm_compute; reflexivity).
  assert (H6 : now exhausted = 0) by (vm_compute; reflexivity).
  assert (H7 : retryCount exhausted = 0) by (vm_compute; reflexivity).
  rewrite H6 in E1. rewrite H7 in E3.
  exact (conj H5 (conj R (conj E1 (conj E2 (conj E3 E4))))).
Defined.

(** *** Forced retry *)


(** *** The stall watchdog *)

(** C6, as stated, fails: on the non-adaptive path no hls.js instance is
    attached, and the nudge neither moves the playback position nor calls
    [recoverMediaError], although the watchdog declared a stall.  And with
    an instance attached the position moves by a Number addition, which
    rounds: from the position 0.1 the nudge lands on the Number 0.6, which is
    less than 0.5 further. *)
Lemma watchdog_nudge_does_nothing_without_hls :
  (let s := nativeStalled in
   let s' := step Fire s in
   timers s = [mkTimer 5000 (CbWatchdog true)] /\ now s = 5000 /\
   paused s = false /\ readyState s < 3 /\ hlsRef s = NoHls /\
   watchdog true s = handleStall s /\
   currentTime s' = currentTime s /\ calls s' = calls s) /\
  (let tenth := Double.div (Double.ofZ 1) (Double.ofZ 10) in
   let s := run [VideoPlay; VideoProgress tenth 2; Wait 5000]
                (mount None (lit "http://h/live.m3u8") true) in
   let s' := step Fire s in
   hlsRef s = HlsLive /\ currentTime s = tenth /\
   calls s' = calls s ++ [HlsRecoverMediaError] /\
   exists q q', Double.valueOf (currentTime s) = Some q /\
                Double.valueOf (currentTime s') = Some q' /\
                (q' - q < 1 # 2)%Q).
Proof.
  split; [vm_compute; repeat split|].
  cbv zeta. split; [vm_compute; reflexivity|]. split; [vm_compute; reflexivity|].
  split; [vm_compute; reflexivity|].
  eexists. eexists. split; [vm_compute; reflexivity|].
  split; [vm_compute; reflexivity|]. vm_compute. reflexivity.
Qed.

Lemma watchdogFires_eq d seen s :
  settled s ->
  watchdogFires d seen s
  = set_timers (timers (watchdog seen s) ++ [mkTimer (d + 5000) (CbWatchdog seen)])
      (watchdog seen s).
Proof.
  intros [Hm Hd]. unfold watchdogFires, runCallback. cbn [cb due].
  apply render_noop. unfold watchdog, handleStall, call.
  destruct s; cbn in *. split_cases; exact Hd.
Qed.

Lemma watchdogFires_settled d seen s : settled s -> settled (watchdogFires d seen s).
Proof.
  intros Hs. rewrite (watchdogFires_eq d seen s Hs). destruct Hs as [Hm Hd].
  unfold settled, watchdog, handleStall, call. destruct s; cbn in *.
  split_cases; split; assumption.
Qed.

(** C6, amended: a watchdog firing that declares a stall nudges the sink
    only when an hls.js instance is attached: the playback position then
    becomes the Number sum of the position and 0.5 (rounded to the nearest
    Number, so not always 0.5 further; finite, as a media position is) and
    [recoverMediaError] is called; on the non-adaptive path nothing is asked
    of the sink.  Either way the strategy index, the retry count and the
    reconnecting flag are untouched, after any number of consecutive
    firings. *)
Theorem watchdog_nudge_frame (s : State) (seen : bool) (d : Z) :
  settled s ->
  let stalled := (negb (paused s) && (readyState s <? 3) && seen)%bool in
  let position := Double.add (currentTime s) Double.half in
  let s' := watchdogFires d seen s in
  (stalled = true -> hlsRef s <> NoHls -> Double.isFinite position = true ->
   currentTime s' = position /\
   calls s' = calls s ++ [HlsRecoverMediaError]) /\
  (stalled = false \/ hlsRef s = NoHls \/ Double.isFinite position = false ->
   currentTime s' = currentTime s /\ calls s' = calls s) /\
  (forall ds,
     let sn := fold_left (fun s d => watchdogFires d seen s) ds s in
     strategyIndex sn = strategyIndex s /\ retryCount sn = retryCount s /\
     isReconnecting sn = isReconnecting s).
Proof.
  intros Hs. cbv zeta. split; [|split].
  - intros Hst Hh Hf. rewrite (watchdogFires_eq d seen s Hs).
    unfold watchdog. rewrite Hst. unfold handleStall, call. cbv zeta. rewrite Hf.
    destruct s; cbn in *. destruct hlsRef0; try contradiction; split; reflexivity.
  - intros H. rewrite (watchdogFires_eq d seen s Hs). unfold watchdog, handleStall.
    cbv zeta.
    destruct H as [-> | [H | H]]; [destruct s; split; reflexivity | |].
    + rewrite H. destruct (_ && _ && _)%bool; destruct s; split; reflexivity.
    + rewrite H. destruct (_ && _ && _)%bool; destruct (hlsRef s); destruct s;
        split; reflexivity.
  - intros ds. clear d. revert s Hs.
    induction ds as [|d ds IH]; intros s Hs; [repeat split|].
    cbn [fold_left].
    destruct (IH _ (watchdogFires_settled d seen s Hs)) as (E1 & E2 & E3).
    rewrite E1, E2, E3, (watchdogFires_eq d seen s Hs).
    destruct (watchdog_same seen s) as (F1 & F2 & F3 & _).
    rewrite <- F1, <- F2, <- F3. destruct (watchdog seen s); repeat split.
Qed.

Lemma watchdog_nudge_frame_witness :
  (let s := run [VideoPlay; Wait 5000] (mount None (lit "http://h/live.m3u8") true) in
   let s' := watchdogFires 5000 true s in
   currentTime s' = Double.add (currentTime s) Double.half /\
   calls s' = calls s ++ [HlsRecoverMediaError]) /\
  (let s' := watchdogFires 5000 true nativeStalled in
   currentTime s' = currentTime nativeStalled /\ calls s' = calls nativeStalled).
Proof.
  cbv zeta. split.
  - set (s := run [VideoPlay; Wait 5000] (mount None (lit "http://h/live.m3u8") true)).
    assert (H1 : settled s) by (split; vm_compute; reflexivity).
    assert (H2 : (negb (paused s) && (readyState s <? 3) && true)%bool = true)
      by (vm_compute; reflexivity).
    assert (H3 : hlsRef s <> NoHls) by (vm_compute; discriminate).
    assert (H4 : Double.isFinite (Double.add (currentTime s) Double.half) = true)
      by (vm_compute; reflexivity).
    exact (proj1 (watchdog_nudge_frame s true 5000 H1) H2 H3 H4).
  - assert (H1 : settled nativeStalled) by (split; vm_compute; reflexivity).
    assert (H2 : hlsRef nativeStalled = NoHls) by (vm_compute; reflexivity).
    exact (proj1 (proj2 (watchdog_nudge_frame nativeStalled true 5000 H1))
             (or_intror (or_introl H2))).
Defined.

End PlayerFacts.

(** ** Watch history *)
Module HistoryFacts.

Import JsFacts Types App.


Lemma NoDup_firstn {A : Type} (n : nat) (l : list A) : NoDup l -> NoDup (firstn n l).
Proof.
  intros H. rewrite <- (firstn_skipn n l) in H. now apply NoDup_app_remove_r in H.
Qed.

Lemma In_firstn {A : Type} (n : nat) (l : list A) (x : A) :
  In x (firstn n l) -> In x l.
Proof.
  intros H. rewrite <- (firstn_skipn n l). apply in_or_app. now left.
Qed.

Lemma filter_other_ids (channel : Channel) (prev : list Channel) :
  ~ In (id channel) (ids (filter (fun c => negb (jseq (id c) (id channel))) prev)).
Proof.
  unfold ids. intros H. apply in_map_iff in H as [c [Hc Hin]].
  apply filter_In in Hin as [_ Hne]. apply negb_true_iff, jseq_false_iff in Hne.
  contradiction.
Qed.

Lemma filter_ids_NoDup (f : Channel -> bool) (prev : list Channel) :
  NoDup (ids prev) -> NoDup (ids (filter f prev)).
Proof.
  unfold ids. induction prev as [|c prev IH]; intros H; [constructor|].
  inversion H as [|? ? Hn Hd]; subst. cbn. destruct (f c); [|now apply IH].
  cbn. constructor; [|now apply IH].
  intros Hin. apply Hn. apply in_map_iff in Hin as [c' [Hc' Hin]].
  apply filter_In in Hin as [Hin _]. apply in_map_iff. now exists c'.
Qed.

Lemma filter_drops_known (channel : Channel) (prev : list Channel) :
  In (id channel) (ids prev) ->
  (List.length (filter (fun c => negb (jseq (id c) (id channel))) prev)
   < List.length prev)%nat.
Proof.
  unfold ids. induction prev as [|c prev IH]; intros H; [contradiction|].
  cbn. destruct (jseq (id c) (id channel)) eqn:E; cbn.
  - pose proof (filter_length_le (fun c => negb (jseq (id c) (id channel))) prev). lia.
  - destruct H as [H|H]; [apply jseq_false_iff in E; contradiction|].
    apply IH in H. lia.
Qed.

Lemma addToHistory_NoDup (channel : Channel) (prev : list Channel) :
  NoDup (ids prev) -> NoDup (ids (addToHistory channel prev)).
Proof.
  intros Hnd. unfold addToHistory, ids. rewrite <- firstn_map. apply NoDup_firstn.
  cbn. constructor; [apply filter_other_ids | now apply filter_ids_NoDup].
Qed.

(** No history the application builds holds an id twice. *)
Lemma built_NoDup (h : list Channel) : built h -> NoDup (ids h).
Proof.
  induction 1 as [|channel prev _ IH]; [constructor | now apply addToHistory_NoDup].
Qed.

(** C9, as stated, fails for a prior list that already holds one id twice:
    only the entries with the id of the played channel are filtered out. *)
Lemma addToHistory_keeps_old_duplicates :
  let a := mkChannel (lit "a") (lit "A") None None (lit "http://h/a") LIVE in
  let b := mkChannel (lit "b") (lit "B") None None (lit "http://h/b") LIVE in
  addToHistory b [a; a] = [b; a; a] /\ ~ NoDup (ids (addToHistory b [a; a])).
Proof.
  cbv zeta. split; [reflexivity|].
  intros H. vm_compute in H. inversion H as [|? ? _ H']; subst.
  inversion H' as [|? ? Hn _]; subst. apply Hn. now left.
Qed.

(** C9, amended: for every channel played and every prior history, the new
    history starts with that channel and has at most 50 entries; when the
    prior history has no duplicate ids, neither has the new one; and when the
    channel's id was already in the history, the list does not grow. *)
Theorem addToHistory_spec (channel : Channel) (prev : list Channel) :
  (exists rest, addToHistory channel prev = channel :: rest /\
                forall c, In c rest -> In c prev /\ id c <> id channel) /\
  (List.length (addToHistory channel prev) <= 50)%nat /\
  (NoDup (ids prev) -> NoDup (ids (addToHistory channel prev))) /\
  (In (id channel) (ids prev) ->
   (List.length (addToHistory channel prev) <= List.length prev)%nat).
Proof.
  unfold addToHistory.
  set (filtered := filter (fun c => negb (jseq (id c) (id channel))) prev).
  split; [|split; [|split]].
  - exists (firstn 49 filtered). split; [reflexivity|].
    intros c Hc. apply In_firstn in Hc.
    apply filter_In in Hc as [Hin Hne]. split; [assumption|].
    now apply negb_true_iff, jseq_false_iff in Hne.
  - apply firstn_le_length.
  - apply addToHistory_NoDup.
  - intros Hin. rewrite length_firstn. apply filter_drops_known in Hin.
    fold filtered in Hin. cbn [List.length]. lia.
Qed.

Lemma addToHistory_spec_witness :
  let a := mkChannel (lit "a") (lit "A") None None (lit "http://h/a") LIVE in
  let b := mkChannel (lit "b") (lit "B") None None (lit "http://h/b") LIVE in
  NoDup (ids (addToHistory a [b; a])) /\
  (List.length (addToHistory a [b; a]) <= 2)%nat.
Proof.
  cbv zeta.
  set (a := mkChannel (lit "a") (lit "A") None None (lit "http://h/a") LIVE).
  set (b := mkChannel (lit "b") (lit "B") None None (lit "http://h/b") LIVE).
  destruct (addToHistory_spec a [b; a]) as (_ & _ & H1 & H2).
  split.
  - apply H1. vm_compute. repeat constructor; cbn; intuition discriminate.
  - apply H2. vm_compute. right. now left.
Defined.

End HistoryFacts.

(** ** Series grouping *)
Module SeriesFacts.

Import JsFacts Types DataProcessor.

Local Open Scope Z_scope.

(** *** The map operations *)

Lemma has_false (m : SeriesMap) (k : jsstring) : has m k = false <-> ~ In k (keys m).
Proof.
  unfold has, keys. induction m as [|[k' v] m IH]; cbn.
  - split; [intros _ [] | reflexivity].
  - rewrite orb_false_iff, IH, jseq_false_iff. split.
    + intros [H1 H2] [H | H]; contradiction.
    + intros H. split; intros H'; apply H; [now left | now right].
Qed.

Lemma set_fresh (m : SeriesMap) (k : jsstring) (v : Series) :
  ~ In k (keys m) -> set m k v = m ++ [(k, v)].
Proof.
  unfold keys. induction m as [|[k' v'] m IH]; cbn; intros H; [reflexivity|].
  destruct (jseq k' k) eqn:E.
  - apply jseq_true_iff in E. exfalso. apply H. now left.
  - rewrite IH; [reflexivity | intros H'; apply H; now right].
Qed.

Lemma get_set_split (m : SeriesMap) (k : jsstring) (v : Series) :
  get m k = Some v ->
  exists m1 m2, m = m1 ++ (k, v) :: m2 /\ ~ In k (keys m1) /\
                forall v', set m k v' = m1 ++ (k, v') :: m2.
Proof.
  unfold keys. induction m as [|[k' v0] m IH]; cbn; [discriminate|].
  destruct (jseq k' k) eqn:E.
  - intros H; injection H as ->. apply jseq_true_iff in E. subst k'.
    exists [], m. repeat split. intros [].
  - intros H. destruct (IH H) as (m1 & m2 & -> & Hn & Hs).
    exists ((k', v0) :: m1), m2. cbn. split; [reflexivity|]. split.
    + apply jseq_false_iff in E. intros [H' | H']; [congruence | contradiction].
    + intros v'. now rewrite Hs.
Qed.

Lemma get_has (m : SeriesMap) (k : jsstring) :
  has m k = true -> exists v, get m k = Some v.
Proof.
  unfold has. induction m as [|[k' v] m IH]; cbn; [discriminate|].
  destruct (jseq k' k); [intros _; now exists v | exact IH].
Qed.

Lemma get_app_fresh (m : SeriesMap) (k : jsstring) (v : Series) :
  ~ In k (keys m) -> get (m ++ [(k, v)]) k = Some v.
Proof.
  unfold keys. induction m as [|[k' v'] m IH]; cbn; intros H.
  - now rewrite jseq_refl.
  - destruct (jseq k' k) eqn:E.
    + apply jseq_true_iff in E. exfalso. apply H. now left.
    + apply IH. intros H'. apply H. now right.
Qed.

(** *** Pushing an episode under its season *)

Lemma defineProperty_perm (V : Type) (o : list (jsstring * V)) k v :
  Permutation (defineProperty o k v) ((k, v) :: o).
Proof.
  induction o as [|[k' v'] o IH]; cbn; [reflexivity|].
  destruct (comesBefore k k'); [reflexivity|].
  rewrite IH. apply perm_swap.
Qed.

Lemma existsb_key_false (V : Type) (ss : list (jsstring * V)) (k : jsstring) :
  existsb (fun e => jseq (fst e) k) ss = false -> ~ In k (keys ss).
Proof.
  unfold keys. induction ss as [|[k' b] ss IH]; cbn; [intros _ []|].
  rewrite orb_false_iff, jseq_false_iff. intros [H1 H2] [H | H];
    [contradiction | now apply IH].
Qed.

Lemma existsb_key_true (V : Type) (ss : list (jsstring * V)) (k : jsstring) :
  In k (keys ss) -> existsb (fun e => jseq (fst e) k) ss = true.
Proof.
  unfold keys. intros H. apply in_map_iff in H as [[k' v] [<- H]].
  apply existsb_exists. exists (k', v). split; [assumption | apply jseq_refl].
Qed.

Lemma push_keys ss season c : keys (push ss season c) = keys ss.
Proof.
  unfold keys. induction ss as [|[k b] ss IH]; cbn; [reflexivity|].
  destruct (jseq k season); cbn; [reflexivity | now rewrite IH].
Qed.

Lemma push_perm ss season c :
  hasOwn ss season = true ->
  Permutation (flat_map snd (push ss season c)) (c :: flat_map snd ss).
Proof.
  unfold hasOwn. induction ss as [|[k b] ss IH]; cbn; [discriminate|].
  destruct (jseq k season); cbn.
  - intros _. rewrite <- app_assoc. cbn. symmetry. apply Permutation_middle.
  - intros H. rewrite (IH H). symmetry. apply Permutation_middle.
Qed.

Lemma push_In ss season c sk b x :
  In (sk, b) (push ss season c) -> In x b ->
  (x = c /\ sk = season) \/ exists b0, In (sk, b0) ss /\ In x b0.
Proof.
  induction ss as [|[k b0] ss IH]; cbn; [intros []|].
  destruct (jseq k season) eqn:E; cbn.
  - apply jseq_true_iff in E. subst k. intros [H | H] Hx.
    + injection H as <- <-. apply in_app_or in Hx as [Hx | [<- | []]].
      * right. exists b0. split; [now left | assumption].
      * now left.
    + right. exists b. split; [now right | assumption].
  - intros [H | H] Hx.
    + injection H as <- <-. right. exists b0. split; [now left | assumption].
    + destruct (IH H Hx) as [Hl | [b1 [H1 H2]]]; [now left|].
      right. exists b1. split; [now right | assumption].
Qed.

Lemma pushEpisode_keys ss season c :
  Permutation (keys (pushEpisode ss season c))
    (if hasOwn ss season then keys ss else season :: keys ss).
Proof.
  unfold pushEpisode. cbv zeta. rewrite push_keys.
  destruct (hasOwn ss season); [reflexivity|].
  unfold keys. rewrite (defineProperty_perm _ ss season []). reflexivity.
Qed.

Lemma pushEpisode_NoDup ss season c :
  NoDup (keys ss) -> NoDup (keys (pushEpisode ss season c)).
Proof.
  intros H. apply (Permutation_NoDup (Permutation_sym (pushEpisode_keys ss season c))).
  destruct (hasOwn ss season) eqn:E; [assumption|].
  constructor; [now apply existsb_key_false | assumption].
Qed.

Lemma pushEpisode_perm ss season c :
  Permutation (flat_map snd (pushEpisode ss season c)) (c :: flat_map snd ss).
Proof.
  unfold pushEpisode. cbv zeta. destruct (hasOwn ss season) eqn:E.
  - now apply push_perm.
  - rewrite push_perm.
    + apply perm_skip.
      rewrite (Permutation_flat_map snd (defineProperty_perm _ ss season [])).
      reflexivity.
    + apply existsb_key_true. unfold keys.
      apply (Permutation_in _ (Permutation_sym
               (Permutation_map fst (defineProperty_perm _ ss season [])))).
      now left.
Qed.

Lemma pushEpisode_In ss season c sk b x :
  In (sk, b) (pushEpisode ss season c) -> In x b ->
  (x = c /\ sk = season) \/ exists b0, In (sk, b0) ss /\ In x b0.
Proof.
  unfold pushEpisode. cbv zeta. intros Hin Hx.
  destruct (push_In _ _ _ _ _ _ Hin Hx) as [Hl | [b0 [H1 H2]]]; [now left|].
  right. exists b0. split; [|assumption].
  destruct (hasOwn ss season); [assumption|].
  apply (Permutation_in _ (defineProperty_perm _ ss season [])) in H1.
  destruct H1 as [H1 | H1]; [|assumption].
  injection H1 as _ <-. contradiction.
Qed.

Lemma stored_app (m1 m2 : SeriesMap) : stored (m1 ++ m2) = stored m1 ++ stored m2.
Proof. unfold stored. apply flat_map_app. Qed.

Lemma mapOk_nil : mapOk [] [].
Proof. split; [constructor | intros k s [] | reflexivity]. Qed.

(** Replacing the series under [k] by one with one more episode. *)
Lemma mapOk_update m1 m2 k s s' done c :
  mapOk (m1 ++ (k, s) :: m2) done ->
  seriesOk k s' -> Permutation (episodes s') (c :: episodes s) ->
  mapOk (m1 ++ (k, s') :: m2) (done ++ [c]).
Proof.
  intros [H1 H2 H3] Hs' Hp. split.
  - unfold keys in *. rewrite map_app in *. exact H1.
  - intros k0 s0 Hin. apply in_app_or in Hin as [Hin | [Hin | Hin]].
    + apply H2. apply in_or_app. now left.
    + injection Hin as <- <-. exact Hs'.
    + apply H2. apply in_or_app. right. now right.
  - rewrite stored_app in *. cbn [stored flat_map snd] in *.
    fold (stored m2) in *. rewrite Hp.
    rewrite <- H3. rewrite <- Permutation_cons_append.
    cbn. rewrite <- Permutation_middle.
    apply perm_skip. reflexivity.
Qed.

Lemma addChannel_ok m done c :
  mapOk m done -> mapOk (addChannel m c) (done ++ [c]).
Proof.
  intros Hm. unfold addChannel.
  assert (Hid : interpolate (group c) ++ lit "-" ++ fst (parseName (name c))
                = seriesIdOf c) by reflexivity.
  assert (Hse : snd (parseName (name c)) = seasonOf c) by reflexivity.
  destruct (parseName (name c)) as [showName season]. cbn [fst snd] in Hid, Hse.
  rewrite Hid. subst season. set (k := seriesIdOf c) in *.
  set (fresh := mkSeries k showName (logo c) _ [] 0).
  set (m' := if has m k then m else set m k fresh).
  assert (Hm' : mapOk m' done /\ exists s, get m' k = Some s).
  { subst m'. destruct (has m k) eqn:Hh.
    - split; [assumption | now apply get_has].
    - apply has_false in Hh. rewrite (set_fresh m k fresh Hh). split.
      + destruct Hm as [H1 H2 H3]. split.
        * unfold keys in *. rewrite map_app. cbn.
          apply NoDup_app; [assumption | repeat constructor; intros [] |].
          intros x Hx [<- | []]. contradiction.
        * intros k0 s0 Hin. apply in_app_or in Hin as [Hin | [Hin | []]].
          -- now apply H2.
          -- injection Hin as <- <-.
             split; cbn; [reflexivity | constructor | reflexivity | intros ? ? ? []].
        * rewrite stored_app. cbn. now rewrite app_nil_r.
      + exists fresh. now apply get_app_fresh. }
  destruct Hm' as [Hok [s Hget]]. rewrite Hget.
  destruct (get_set_split m' k s Hget) as (m1 & m2 & Hsplit & _ & Hset).
  rewrite Hset. rewrite Hsplit in Hok.
  apply (mapOk_update m1 m2 k s _ done c Hok).
  - destruct (ok_series _ _ Hok k s) as [S1 S2 S3 S4];
      [apply in_or_app; right; now left|].
    split; cbn [sid seasons episodeCount].
    + assumption.
    + now apply pushEpisode_NoDup.
    + unfold episodes. cbn [seasons].
      rewrite (Permutation_length (pushEpisode_perm (seasons s) (seasonOf c) c)).
      unfold episodes in S3. cbn [List.length]. lia.
    + intros sk b x Hin Hx.
      destruct (pushEpisode_In _ _ _ _ _ _ Hin Hx) as [[-> ->] | [b0 [H1 H2]]].
      * split; reflexivity.
      * now apply (S4 sk b0).
  - unfold episodes. cbn [seasons]. apply pushEpisode_perm.
Qed.

Lemma fold_addChannel_ok channels : forall m done,
  mapOk m done -> mapOk (fold_left addChannel channels m) (done ++ channels).
Proof.
  induction channels as [|c channels IH]; intros m done Hm; cbn.
  - now rewrite app_nil_r.
  - replace (done ++ c :: channels) with ((done ++ [c]) ++ channels)
      by (now rewrite <- app_assoc).
    apply IH. now apply addChannel_ok.
Qed.

Lemma NoDup_map_inj {A B : Type} (f : A -> B) (l : list A) (a b : A) :
  NoDup (map f l) -> In a l -> In b l -> f a = f b -> a = b.
Proof.
  induction l as [|x l IH]; cbn; intros Hnd Ha Hb Hf; [contradiction|].
  inversion Hnd as [|? ? Hn Hd]; subst.
  destruct Ha as [-> | Ha], Hb as [-> | Hb]; try reflexivity.
  - exfalso. apply Hn. rewrite Hf. now apply in_map.
  - exfalso. apply Hn. rewrite <- Hf. now apply in_map.
  - now apply IH.
Qed.

Lemma series_ids_are_keys (m : SeriesMap) :
  (forall k s, In (k, s) m -> sid s = k) -> map sid (map snd m) = keys m.
Proof.
  unfold keys. induction m as [|[k s] m IH]; cbn; intros H; [reflexivity|].
  rewrite (H k s) by now left. f_equal. apply IH.
  intros k0 s0 Hin. apply H. now right.
Qed.

Lemma stored_values (m : SeriesMap) : flat_map episodes (map snd m) = stored m.
Proof.
  unfold stored. induction m as [|[k s] m IH]; cbn; [reflexivity | now rewrite IH].
Qed.

Lemma count_sum (l : list Series) :
  (forall s, In s l -> episodeCount s = Z.of_nat (List.length (episodes s))) ->
  fold_right Z.add 0 (map episodeCount l)
  = Z.of_nat (List.length (flat_map episodes l)).
Proof.
  induction l as [|s l IH]; cbn; intros H; [reflexivity|].
  rewrite length_app, Nat2Z.inj_add, (H s) by now left.
  rewrite IH; [reflexivity | intros s0 Hin; apply H; now right].
Qed.

(** C10.  [processSeries] partitions its input: the returned series have
    distinct ids and each has distinct season keys; the episodes stored under
    all seasons of all series are, up to order, exactly the input channels
    (nothing lost, nothing duplicated); every input channel lies in one
    season bucket of one series and in no other; each [episodeCount] is the
    number of channels stored under the seasons of its series; and the
    [episodeCount]s add up to the length of the input. *)
Theorem processSeries_partitions (channels : list Channel) :
  let out := processSeries channels in
  NoDup (map sid out) /\
  (forall s, In s out ->
     NoDup (keys (seasons s)) /\
     episodeCount s = Z.of_nat (List.length (episodes s))) /\
  Permutation (flat_map episodes out) channels /\
  (forall c, In c channels ->
     exists s k b,
       In s out /\ In (k, b) (seasons s) /\ In c b /\
       forall s' k' b',
         In s' out -> In (k', b') (seasons s') -> In c b' ->
         s' = s /\ k' = k /\ b' = b) /\
  fold_right Z.add 0 (map episodeCount out) = Z.of_nat (List.length channels).
Proof.
  cbv zeta. unfold processSeries.
  pose proof (fold_addChannel_ok channels [] [] mapOk_nil) as Hok. cbn [app] in Hok.
  set (m := fold_left addChannel channels []) in *.
  destruct Hok as [H1 H2 H3].
  assert (Hids : map sid (map snd m) = keys m)
    by (apply series_ids_are_keys; intros k s Hin; apply (ok_id _ _ (H2 k s Hin))).
  assert (Hin_out : forall s, In s (map snd m) -> exists k, In (k, s) m).
  { intros s Hs. apply in_map_iff in Hs as [[k s0] [Hs Hin]]. cbn in Hs. subst s0.
    now exists k. }
  assert (Hnd : NoDup (map sid (map snd m))) by (rewrite Hids; exact H1).
  assert (Hcount : forall s, In s (map snd m) ->
                     NoDup (keys (seasons s)) /\
                     episodeCount s = Z.of_nat (List.length (episodes s))).
  { intros s Hs. destruct (Hin_out s Hs) as [k Hk].
    destruct (H2 k s Hk) as [_ S2 S3 _]. now split. }
  split; [exact Hnd|]. split; [exact Hcount|].
  split; [rewrite stored_values; exact H3|]. split.
  - intros c Hc.
    apply (Permutation_in _ (Permutation_sym H3)) in Hc.
    unfold stored in Hc. apply in_flat_map in Hc as [[k0 s] [Hs Hc]].
    unfold episodes in Hc. cbn [snd] in Hc.
    apply in_flat_map in Hc as [[k b] [Hb Hc]]. cbn [snd] in Hc.
    exists s, k, b.
    assert (Hs_out : In s (map snd m)) by (apply in_map_iff; now exists (k0, s)).
    split; [assumption|]. split; [assumption|]. split; [assumption|].
    intros s' k' b' Hs' Hb' Hc'.
    destruct (Hin_out s' Hs') as [k0' Hk0'].
    destruct (H2 k0' s' Hk0') as [A1 _ _ A4]. destruct (H2 k0 s Hs) as [B1 B2 _ B4].
    destruct (A4 _ _ _ Hb' Hc') as [Ak As]. destruct (B4 _ _ _ Hb Hc) as [Bk Bs].
    assert (Es : s' = s)
      by (apply (NoDup_map_inj sid (map snd m)); try assumption; congruence).
    assert (Ek : k' = k) by congruence.
    rewrite Es, Ek in Hb'.
    assert (E : (k, b') = (k, b))
      by (apply (NoDup_map_inj fst (seasons s)); try assumption; reflexivity).
    injection E as Eb. exact (conj Es (conj Ek Eb)).
  - rewrite (count_sum _ (fun s Hs => proj2 (Hcount s Hs))), stored_values.
    now rewrite (Permutation_length H3).
Qed.

Lemma processSeries_partitions_witness :
  let e1 := mkChannel (lit "1") (lit "A S01E01") None (Some (lit "G")) (lit "u1") SERIES in
  let e2 := mkChannel (lit "2") (lit "B 1x02") None None (lit "u2") SERIES in
  let e3 := mkChannel (lit "3") (lit "A S02E01") None (Some (lit "G")) (lit "u3") SERIES in
  let out := processSeries [e1; e2; e3] in
  fold_right Z.add 0 (map episodeCount out) = 3 /\
  exists s k b, In s out /\ In (k, b) (seasons s) /\ In e3 b.
Proof.
  cbv zeta.
  set (e1 := mkChannel (lit "1") (lit "A S01E01") None (Some (lit "G")) (lit "u1") SERIES).
  set (e2 := mkChannel (lit "2") (lit "B 1x02") None None (lit "u2") SERIES).
  set (e3 := mkChannel (lit "3") (lit "A S02E01") None (Some (lit "G")) (lit "u3") SERIES).
  destruct (processSeries_partitions [e1; e2; e3]) as (_ & _ & _ & H & Hsum).
  split; [exact Hsum|].
  destruct (H e3) as (s & k & b & H1 & H2 & H3 & _).
  - right. right. now left.
  - exists s, k, b. exact (conj H1 (conj H2 H3)).
Defined.

End SeriesFacts.

(** ** The scenarios of the specification, run on the model *)
Module Scenarios.

Import Catalog Player Types DataProcessor.

Local Open Scope Z_scope.

(** Scenario A: every attempt fails with another category.  The session
    walks through the four strategies, cools down, and is back on strategy 0
    with one retry cycle counted. *)
Example scenario_A :
  let s := run [HlsError true OTHER_ERROR; HlsError true OTHER_ERROR;
                HlsError true OTHER_ERROR; VideoError; Wait 1000; Fire;
                Wait 3000; Fire]
               (mount None (lit "http://h/live") true) in
  map strategyIndex
      [exhausted; coolingDown; s] = [3; 3; 0] /\
  isReconnecting coolingDown = true /\
  retryCount s = 1 /\ isReconnecting s = false /\ hlsRef s = HlsLive.
Proof. vm_compute. repeat split. Qed.

(** Scenario B: the Direct strategy succeeds at once. *)
Example scenario_B :
  let s := run [ManifestParsed; VideoPlay; VideoPlaying]
               (mount None (lit "http://h/live.m3u8") true) in
  strategyIndex s = 0 /\ retryCount s = 0 /\ isPlaying s = true /\
  isLoading s = false /\ calls s = [HlsLoadSource (lit "http://h/live.m3u8")].
Proof. vm_compute. repeat split. Qed.

(** Scenario C: secure context, insecure address. *)
Example scenario_C :
  let s := mount (Some (lit "https:")) (lit "http://h/live") true in
  strategyIndex s = 1 /\
  calls s = [HlsLoadSource (lit "https://corsproxy.io/?http%3A%2F%2Fh%2Flive.m3u8")].
Proof. vm_compute. repeat split. Qed.

(** Scenario D: a network error, recovered in place, then playback. *)
Example scenario_D :
  let s := run [HlsError true NETWORK_ERROR; VideoPlaying]
               (mount None (lit "http://h/live.m3u8") true) in
  strategyIndex s = 0 /\ retryCount s = 0 /\
  calls s = [HlsLoadSource (lit "http://h/live.m3u8"); HlsStartLoad].
Proof. vm_compute. repeat split. Qed.

(** Scenario E: three watchdog nudges in a row. *)
Example scenario_E :
  let s0 := mount None (lit "http://h/live.m3u8") true in
  let s := run [VideoPlay; Wait 5000; Fire; Wait 5000; Fire; Wait 5000; Fire] s0 in
  strategyIndex s = strategyIndex s0 /\ retryCount s = 0 /\
  currentTime s = Double.dyadic 3 (-1) /\
  calls s = calls s0 ++ [HlsRecoverMediaError; HlsRecoverMediaError;
                         HlsRecoverMediaError].
Proof. vm_compute. repeat split. Qed.

Example gateway_transforms :
  transformGateway1 (lit " http://h/live?output=ts ")
  = Some (lit "https://corsproxy.io/?http%3A%2F%2Fh%2Flive%3Foutput%3Dm3u8") /\
  transformGateway2 (lit "http://h/a b")
  = Some (lit "https://api.codetabs.com/v1/proxy?quest=http%3A%2F%2Fh%2Fa%20b") /\
  transformGateway2 [55357%N] = None.
Proof. vm_compute. repeat split. Qed.

Example parseName_examples :
  parseName (lit "Breaking Bad - S01 E05") = (lit "Breaking Bad", lit "1") /\
  parseName (lit "Show Name S1E5") = (lit "Show Name", lit "1") /\
  parseName (lit "Lost 10x05") = (lit "Lost", lit "10") /\
  parseName (lit "Show_Name_-_s012e5") = (lit "Show_Name_", lit "12") /\
  parseName (lit "Evening News") = (lit "Evening News", lit "1").
Proof. vm_compute. repeat split. Qed.

End Scenarios.

(** ** The connection controller: further invariants *)
Module PlayerMore.

Import JsFacts Catalog CatalogFacts Player PlayerFacts PlayerControls.

Local Open Scope Z_scope.

(** *** The error state *)

Lemma runEffect_error s : error s = None -> error (runEffect s) = None.
Proof. intros H. unfold_effect. split_cases; congruence. Qed.

Lemma cleanup_error s : error (cleanup s) = error s.
Proof. unfold_effect. split_cases; reflexivity. Qed.

Lemma render_error s : error s = None -> error (render s) = None.
Proof.
  intros H. unfold render. destruct (mounted s); [|exact H].
  destruct (depsEqb _ _); [exact H|].
  apply runEffect_error. now rewrite cleanup_error.
Qed.

Lemma attemptNextStrategy_error s : error (attemptNextStrategy s) = error s.
Proof. unfold attemptNextStrategy. split_cases; reflexivity. Qed.

Lemma runCallback_error t s : error (runCallback t s) = error s.
Proof.
  unfold runCallback. destruct (cb t) as [| |seen].
  - reflexivity.
  - apply attemptNextStrategy_error.
  - unfold watchdog, handleStall, call. split_cases; reflexivity.
Qed.

Lemma handle_error e s : error s = None -> error (handle e s) = None.
Proof.
  intros H. destruct e; cbn [handle]; try exact H; try reflexivity.
  - destruct (hlsRef s); try exact H. unfold onHlsError.
    destruct fatal; [|exact H]. destruct ty; try exact H.
    now rewrite attemptNextStrategy_error.
  - destruct (hlsRef s); exact H.
  - destruct (effectMode s); exact H.
  - destruct (retryOffered s); [reflexivity | exact H].
  - destruct ((0 <=? dt) && _)%bool; exact H.
  - destruct (minDue (timers s)) as [d|]; [|exact H].
    destruct (d <=? now s); [|exact H].
    destruct (takeDue d (timers s)) as [[t rest]|]; [|exact H].
    now rewrite runCallback_error.
Qed.



(** X1.  The component never records an error: in every reachable state
    [error] is [null].  Every write to it, in the effect and in the forced
    retry, is [setError(null)]. *)
Theorem error_is_never_set (s : State) : reachable s -> error s = None.
Proof.
  induction 1 as [window u hlsOk | e s _ IH].
  - unfold mount. now apply runEffect_error.
  - unfold step. destruct (mounted s); [|exact IH].
    apply render_error. now apply handle_error.
Qed.

Lemma error_is_never_set_witness : reachable coolingDown /\ error coolingDown = None.
Proof.
  assert (H : reachable coolingDown).
  { unfold coolingDown, exhausted, run. cbn [fold_left].
    repeat apply reach_step. apply reach_mount. }
  exact (conj H (error_is_never_set coolingDown H)).
Defined.

(** *** The retry counter *)

Lemma attemptNextStrategy_retryCount s :
  retryCount (attemptNextStrategy s) = retryCount s.
Proof. unfold attemptNextStrategy. split_cases; reflexivity. Qed.

Lemma watchdog_retryCount seen s : retryCount (watchdog seen s) = retryCount s.
Proof. now destruct (watchdog_same seen s) as (_ & -> & _). Qed.

(** X2.  The retry counter moves in two ways only: a timer callback (the
    cooldown) adds one to it, and a forced retry resets it to 0.  It is never
    negative. *)
Theorem retryCount_moves (e : Event) (s : State) :
  (retryCount (step e s) = retryCount s \/
   (e = Fire /\ retryCount (step e s) = retryCount s + 1) \/
   (e = ForceRetry /\ retryCount (step e s) = 0)) /\
  (0 <= retryCount s -> 0 <= retryCount (step e s)).
Proof.
  assert (H : retryCount (step e s) = retryCount s \/
              (e = Fire /\ retryCount (step e s) = retryCount s + 1) \/
              (e = ForceRetry /\ retryCount (step e s) = 0)).
  { unfold step. destruct (mounted s); [|now left].
    destruct (render_same (handle e s)) as (_ & -> & _).
    destruct e; cbn [handle]; try (now left).
    - left. destruct (hlsRef s); try reflexivity. unfold onHlsError.
      destruct fatal; [|reflexivity]. destruct ty; try reflexivity.
      now rewrite attemptNextStrategy_retryCount.
    - left. now destruct (hlsRef s).
    - left. now destruct (effectMode s).
    - destruct (retryOffered s); [right; right; split; reflexivity | now left].
    - left. now destruct ((0 <=? dt) && _)%bool.
    - destruct (minDue (timers s)) as [d|]; [|now left].
      destruct (d <=? now s); [|now left].
      destruct (takeDue d (timers s)) as [[t rest]|]; [|now left].
      unfold runCallback. destruct (cb t) as [| |seen].
      + right. left. split; reflexivity.
      + left. now rewrite attemptNextStrategy_retryCount.
      + left. cbn. now rewrite watchdog_retryCount. }
  split; [exact H|]. intros H0.
  destruct H as [-> | [[_ ->] | [_ ->]]]; lia.
Qed.

Lemma retryCount_moves_witness :
  0 <= retryCount coolingDown /\ 0 <= retryCount (step Fire coolingDown).
Proof.
  assert (H : 0 <= retryCount coolingDown) by (vm_compute; discriminate).
  exact (conj H (proj2 (retryCount_moves Fire coolingDown) H)).
Defined.

(** *** One watchdog *)

Lemma watchdogs_app a b : watchdogs (a ++ b) = watchdogs a ++ watchdogs b.
Proof. apply filter_app. Qed.

Lemma watchdogs_clear ts : watchdogs (clearWatchdog ts) = [].
Proof.
  unfold watchdogs, clearWatchdog. induction ts as [|t ts IH]; [reflexivity|].
  cbn. destruct (isWatchdog t) eqn:E; cbn; [assumption | now rewrite E].
Qed.

Lemma takeDue_watchdogs d ts t rest :
  takeDue d ts = Some (t, rest) ->
  List.length (watchdogs ts)
  = (List.length (watchdogs rest) + (if isWatchdog t then 1 else 0))%nat.
Proof.
  unfold watchdogs.
  revert t rest. induction ts as [|x ts IH]; intros t rest; cbn; [discriminate|].
  destruct (due x =? d).
  - intros H. injection H as <- <-. destruct (isWatchdog x); cbn; lia.
  - destruct (takeDue d ts) as [[y r']|]; [|discriminate].
    intros H. injection H as <- <-. specialize (IH y r' eq_refl).
    cbn. destruct (isWatchdog x); cbn; lia.
Qed.

Lemma runEffect_mounted x :
  mounted (runEffect x) = true ->
  exists st e, strategyAt (strategyIndex x) = Some st /\ transform st (url x) = Some e.
Proof.
  unfold runEffect.
  destruct (strategyAt (strategyIndex x)) as [st|] eqn:Hst; [|cbn; discriminate].
  destruct x as [u sup pl ld er rc rec idx ct pa rs hr nw ts cs dp em mt]. cbn in *.
  destruct (transform st u) as [e|] eqn:E; [intros _; eauto | cbn; discriminate].
Qed.

(** A run of the effect that leaves the component mounted has armed exactly
    one watchdog. *)
Lemma runEffect_one_watchdog x :
  mounted (runEffect x) = true -> List.length (watchdogs (timers (runEffect x))) = 1%nat.
Proof.
  intros H. destruct (runEffect_mounted x H) as (st & e & H1 & H2).
  destruct (runEffect_resolved x st e H1 H2) as (_ & -> & _).
  now rewrite watchdogs_app, watchdogs_clear.
Qed.

Lemma attemptNextStrategy_watchdogs s :
  watchdogs (timers (attemptNextStrategy s)) = watchdogs (timers s).
Proof.
  unfold attemptNextStrategy. split_cases; try reflexivity.
  rewrite watchdogs_app. cbn. apply app_nil_r.
Qed.

Lemma watchdog_timers seen s : timers (watchdog seen s) = timers s.
Proof. unfold watchdog, handleStall, call. split_cases; reflexivity. Qed.

Lemma handle_one_watchdog e s :
  List.length (watchdogs (timers s)) = 1%nat ->
  List.length (watchdogs (timers (handle e s))) = 1%nat.
Proof.
  intros H. destruct e; cbn [handle]; try exact H.
  - destruct (hlsRef s); try exact H. unfold onHlsError.
    destruct fatal; [|exact H]. destruct ty; try exact H.
    rewrite attemptNextStrategy_watchdogs. exact H.
  - destruct (hlsRef s); exact H.
  - destruct (effectMode s); [exact H|]. unfold onNativeError. cbn.
    rewrite watchdogs_app. cbn. now rewrite app_nil_r.
  - destruct (retryOffered s); exact H.
  - destruct ((0 <=? dt) && _)%bool; exact H.
  - destruct (minDue (timers s)) as [d|]; [|exact H].
    destruct (d <=? now s); [|exact H].
    destruct (takeDue d (timers s)) as [[t rest]|] eqn:Ht; [|exact H].
    apply takeDue_watchdogs in Ht. rewrite H in Ht.
    unfold isWatchdog in Ht. unfold runCallback.
    destruct (cb t) as [| |seen]; cbn [Nat.add] in Ht.
    + cbn. unfold watchdogs in *. lia.
    + rewrite attemptNextStrategy_watchdogs. cbn. unfold watchdogs in *. lia.
    + cbn [timers set_timers]. rewrite watchdog_timers. cbn [timers set_timers].
      rewrite watchdogs_app, length_app. cbn. unfold watchdogs in *. lia.
Qed.

(** X3.  A mounted session owns exactly one watchdog interval: every run of
    the effect clears the previous one before arming the next, and the
    interval itself is the only thing that arms it again. *)
Theorem exactly_one_watchdog (s : State) :
  reachable s -> mounted s = true -> List.length (watchdogs (timers s)) = 1%nat.
Proof.
  induction 1 as [window u hlsOk | e s _ IH].
  - unfold mount. apply runEffect_one_watchdog.
  - unfold step. destruct (mounted s) eqn:Hm; [|intros Hf; congruence].
    specialize (IH eq_refl). unfold render.
    destruct (mounted (handle e s)) eqn:Hh; [|congruence].
    destruct (depsEqb _ _).
    + intros _. now apply handle_one_watchdog.
    + apply runEffect_one_watchdog.
Qed.

Lemma exactly_one_watchdog_witness :
  reachable coolingDown /\ List.length (watchdogs (timers coolingDown)) = 1%nat.
Proof.
  assert (H : reachable coolingDown).
  { unfold coolingDown, exhausted, run. cbn [fold_left].
    repeat apply reach_step. apply reach_mount. }
  assert (Hm : mounted coolingDown = true) by (vm_compute; reflexivity).
  exact (conj H (exactly_one_watchdog coolingDown H Hm)).
Defined.

(** *** One attachment *)

Lemma hlsAlive_app cs c alive :
  hlsAlive (cs ++ [c]) alive
  = match hlsAlive cs alive with
    | Some a => hlsAlive [c] a
    | None => None
    end.
Proof.
  revert alive. induction cs as [|x cs IH]; intros alive; cbn.
  - now destruct c.
  - destruct x; try apply IH. destruct alive; [reflexivity | apply IH].
Qed.

Lemma call_attachedOk_neutral c s :
  (forall a, hlsAlive [c] a = Some a) -> attachedOk s -> attachedOk (call c s).
Proof.
  unfold attachedOk, call. intros Hc H. cbn. rewrite hlsAlive_app, H. apply Hc.
Qed.

Lemma destroyHls_attachedOk s :
  attachedOk s -> attachedOk (destroyHls s) /\ hlsRef (destroyHls s) = NoHls.
Proof.
  unfold attachedOk, destroyHls, call. intros H.
  destruct (hlsRef s) eqn:E; cbn; rewrite ?E.
  - split; [exact H | reflexivity].
  - rewrite hlsAlive_app, H. split; reflexivity.
  - rewrite hlsAlive_app, H. split; reflexivity.
Qed.

Lemma cleanup_attachedOk s : attachedOk s -> attachedOk (cleanup s).
Proof.
  intros H. unfold cleanup. destruct (effectMode s); [|exact H].
  apply call_attachedOk_neutral; [reflexivity|].
  apply destroyHls_attachedOk. exact H.
Qed.

Lemma runEffect_attachedOk s : attachedOk s -> attachedOk (runEffect s).
Proof.
  unfold attachedOk, runEffect. intros H.
  destruct (strategyAt (strategyIndex s)) as [st|]; [|exact H].
  destruct s as [u sup pl ld er rc rec idx ct pa rs hr nw ts cs dp em mt]. cbn in *.
  destruct (transform st u) as [e|]; [|exact H].
  unfold destroyHls, call.
  destruct hr, (mode st), sup; cbn in *;
    rewrite ?hlsAlive_app; rewrite ?H; cbn; rewrite ?hlsAlive_app; rewrite ?H;
    reflexivity.
Qed.

Lemma render_attachedOk s : attachedOk s -> attachedOk (render s).
Proof.
  intros H. unfold render. destruct (mounted s); [|exact H].
  destruct (depsEqb _ _); [exact H|].
  now apply runEffect_attachedOk, cleanup_attachedOk.
Qed.

Lemma attemptNextStrategy_attachedOk s :
  attachedOk s -> attachedOk (attemptNextStrategy s).
Proof. unfold attachedOk, attemptNextStrategy. split_cases; intros H; exact H. Qed.

Lemma handle_attachedOk e s : attachedOk s -> attachedOk (handle e s).
Proof.
  intros H. destruct e; cbn [handle]; try exact H.
  - destruct (hlsRef s) eqn:E; try exact H. unfold onHlsError.
    destruct fatal; [|exact H]. destruct ty.
    + apply call_attachedOk_neutral; [reflexivity | exact H].
    + apply call_attachedOk_neutral; [reflexivity | exact H].
    + apply attemptNextStrategy_attachedOk. unfold attachedOk, call in *. cbn.
      rewrite hlsAlive_app, H. reflexivity.
  - destruct (hlsRef s) eqn:E; exact H.
  - destruct (effectMode s); exact H.
  - destruct (retryOffered s); exact H.
  - destruct ((0 <=? dt) && _)%bool; exact H.
  - destruct (minDue (timers s)) as [d|]; [|exact H].
    destruct (d <=? now s); [|exact H].
    destruct (takeDue d (timers s)) as [[t rest]|]; [|exact H].
    unfold runCallback. destruct (cb t) as [| |seen].
    + exact H.
    + apply attemptNextStrategy_attachedOk. exact H.
    + unfold attachedOk, watchdog, handleStall, call in *.
      split_cases; try exact H; rewrite hlsAlive_app, H; cbn; congruence.
Qed.

(** X4.  At most one hls.js instance is attached at any time: replaying
    the calls made on the sink, no instance is ever created while an earlier
    one is still alive, and the ref holds a live instance exactly when the
    last created one has not been destroyed. *)
Theorem one_attachment_at_a_time (s : State) :
  reachable s -> hlsAlive (calls s) false = Some (refIsLive (hlsRef s)).
Proof.
  induction 1 as [window u hlsOk | e s _ IH].
  - unfold mount. apply runEffect_attachedOk. reflexivity.
  - unfold step. destruct (mounted s); [|exact IH].
    now apply render_attachedOk, handle_attachedOk.
Qed.

Lemma one_attachment_at_a_time_witness :
  reachable exhausted /\ hlsAlive (calls exhausted) false = Some false.
Proof.
  assert (H : reachable exhausted).
  { unfold exhausted, run. cbn [fold_left].
    repeat apply reach_step. apply reach_mount. }
  assert (E : refIsLive (hlsRef exhausted) = false) by (vm_compute; reflexivity).
  split; [exact H|]. rewrite <- E. exact (one_attachment_at_a_time exhausted H).
Defined.

End PlayerMore.

(** ** The connection controller: transitions *)
Module PlayerTransitions.

Import JsFacts Catalog CatalogFacts Player PlayerFacts PlayerControls PlayerMore.

Local Open Scope Z_scope.

Lemma takeDue_In d ts t rest :
  takeDue d ts = Some (t, rest) -> In t ts /\ due t = d.
Proof.
  revert t rest. induction ts as [|x ts IH]; intros t rest; cbn; [discriminate|].
  destruct (due x =? d) eqn:E.
  - intros H. injection H as <- <-. apply Z.eqb_eq in E. split; [now left | exact E].
  - destruct (takeDue d ts) as [[y r']|]; [|discriminate].
    intros H. injection H as <- <-. destruct (IH y r' eq_refl) as [H1 H2].
    split; [now right | exact H2].
Qed.

Lemma watchdog_callback_same t seen s :
  cb t = CbWatchdog seen -> sameSession s (runCallback t s).
Proof.
  intros H. unfold runCallback. rewrite H.
  destruct (watchdog_same seen s) as (W1 & W2 & W3 & W4 & W5 & W6).
  unfold sameSession.
  cbn [strategyIndex retryCount isReconnecting url hlsSupported now set_timers].
  repeat split; assumption.
Qed.

Lemma attemptNextStrategy_isReconnecting s :
  isReconnecting s = true -> isReconnecting (attemptNextStrategy s) = true.
Proof. unfold attemptNextStrategy. split_cases; intros H; congruence. Qed.

(** X5.  Once raised, [isReconnecting] is lowered by nothing but the
    callback of a cooldown timer that has come due: no sink signal, no forced
    retry and no change of address clears it. *)
Theorem reconnecting_cleared_by_cooldown_only (e : Event) (s : State) :
  isReconnecting s = true -> isReconnecting (step e s) = false ->
  e = Fire /\ exists d, In (mkTimer d CbCooldown) (timers s) /\ d <= now s.
Proof.
  intros Ht. unfold step. destruct (mounted s); [|congruence].
  destruct (render_same (handle e s)) as (_ & _ & -> & _).
  destruct e; cbn [handle]; try (cbn; congruence).
  - destruct (hlsRef s); try congruence. unfold onHlsError.
    destruct fatal; [|congruence]. destruct ty; try (cbn; congruence).
    rewrite attemptNextStrategy_isReconnecting; [discriminate | exact Ht].
  - destruct (hlsRef s); cbn; congruence.
  - destruct (effectMode s); cbn; congruence.
  - destruct (retryOffered s); cbn; congruence.
  - destruct ((0 <=? dt) && _)%bool; cbn; congruence.
  - destruct (minDue (timers s)) as [d|]; [|congruence].
    destruct (d <=? now s) eqn:Hd; [|congruence].
    destruct (takeDue d (timers s)) as [[t rest]|] eqn:Htk; [|congruence].
    apply takeDue_In in Htk as [Hin Hdue]. apply Z.leb_le in Hd.
    destruct (cb t) as [| |seen] eqn:Hcb.
    + intros _. split; [reflexivity|]. exists d. split; [|exact Hd].
      destruct t as [dt ct]. cbn in *. now subst.
    + unfold runCallback. rewrite Hcb.
      rewrite attemptNextStrategy_isReconnecting; [discriminate | exact Ht].
    + destruct (watchdog_callback_same t seen (set_timers rest s) Hcb)
        as (_ & _ & -> & _).
      cbn. congruence.
Qed.

Lemma reconnecting_cleared_by_cooldown_only_witness :
  isReconnecting coolingDown = true /\
  isReconnecting (run [Wait 3000; Fire] coolingDown) = false /\
  In (mkTimer 4000 CbCooldown) (timers (step (Wait 3000) coolingDown)).
Proof.
  set (s := step (Wait 3000) coolingDown).
  assert (H0 : isReconnecting coolingDown = true) by (vm_compute; reflexivity).
  assert (H1 : isReconnecting s = true) by (vm_compute; reflexivity).
  assert (H2 : isReconnecting (step Fire s) = false) by (vm_compute; reflexivity).
  destruct (reconnecting_cleared_by_cooldown_only Fire s H1 H2) as [_ [d [Hin Hd]]].
  split; [exact H0|]. split; [exact H2|].
  vm_compute.
  first [left; reflexivity | right; left; reflexivity | right; right; left; reflexivity].
Defined.

(** *** A change of address *)

(** X6.  Playing another address in the same player keeps the strategy
    index, the retry count and the reconnecting flag: the mixed-origin guard
    is not applied again.  A new attempt starts at once on the current
    strategy with the new address; setting the same address again does
    nothing. *)
Theorem set_url_keeps_strategy (s : State) (u : jsstring) :
  settled s ->
  (u = url s -> step (SetUrl u) s = s) /\
  (u <> url s ->
   let s' := step (SetUrl u) s in
   url s' = u /\ strategyIndex s' = strategyIndex s /\
   retryCount s' = retryCount s /\ isReconnecting s' = isReconnecting s /\
   forall st e, strategyAt (strategyIndex s) = Some st -> transform st u = Some e ->
                settled s' /\ exists pre, calls s' = pre ++ [attachOf st e s]).
Proof.
  intros [Hm Hd]. unfold step. rewrite Hm. cbn [handle]. split.
  - intros ->. rewrite render_noop; [destruct s; reflexivity | exact Hd].
  - intros Hne. cbv zeta.
    destruct (render_same (set_url u s)) as (E1 & E2 & E3 & E4 & _).
    rewrite E1, E2, E3, E4.
    split; [reflexivity|]. split; [reflexivity|]. split; [reflexivity|].
    split; [reflexivity|]. intros st e Hst Htr.
    assert (Hch : depsOf (set_url u s) <> lastDeps (set_url u s)).
    { cbn [lastDeps set_url]. rewrite Hd. unfold depsOf. cbn.
      intros E. injection E as E. contradiction. }
    destruct (render_restart (set_url u s) st e Hm Hch Hst Htr) as (R1 & _ & _ & pre & R).
    split; [exact R1 | exists pre; exact R].
Qed.

Lemma set_url_keeps_strategy_witness :
  let s := mount (Some (lit "https:")) (lit "http://h/a") true in
  let s' := step (SetUrl (lit "https://h/b.m3u8")) s in
  strategyIndex s' = 1 /\ url s' = lit "https://h/b.m3u8".
Proof.
  cbv zeta. set (s := mount (Some (lit "https:")) (lit "http://h/a") true).
  assert (Hs : settled s) by (split; vm_compute; reflexivity).
  assert (Hne : lit "https://h/b.m3u8" <> url s) by (vm_compute; discriminate).
  assert (Hi : strategyIndex s = 1) by (vm_compute; reflexivity).
  destruct (proj2 (set_url_keeps_strategy s (lit "https://h/b.m3u8") Hs) Hne)
    as (E1 & E2 & _).
  rewrite Hi in E2. exact (conj E2 E1).
Defined.

(** *** Escalation below the last strategy *)

Lemma attemptNextStrategy_below s :
  0 <= strategyIndex s < 3 ->
  attemptNextStrategy s = set_strategyIndex (strategyIndex s + 1) s.
Proof.
  intros H. unfold attemptNextStrategy.
  replace (strategyIndex s <? Z.of_nat (List.length STRATEGIES) - 1) with true
    by (symmetry; apply Z.ltb_lt; rewrite catalog_length; lia).
  cbv zeta. destruct (strategyAt_Some (strategyIndex s + 1)) as [st ->]; [lia|].
  reflexivity.
Qed.

Lemma runEffect_resolved_hlsRef x st e :
  strategyAt (strategyIndex x) = Some st -> transform st (url x) = Some e ->
  hlsRef (runEffect x) <> HlsDestroyed.
Proof.
  intros H1 H2. unfold runEffect. rewrite H1.
  destruct x as [u sup pl ld er rc rec idx ct pa rs hr nw ts cs dp em mt].
  cbn in H2 |- *. rewrite H2. unfold destroyHls, call.
  destruct hr, (mode st), sup; cbn; discriminate.
Qed.

(** X7.  A fatal error of another category on one of the first three
    strategies destroys the hls.js instance and moves to the next strategy,
    one step and no more; the retry count and the reconnecting flag stay as
    they are, no cooldown is armed, and a new attempt starts on the next
    strategy. *)
Theorem other_error_escalates_one_step (s : State) :
  settled s -> hlsRef s = HlsLive -> 0 <= strategyIndex s < 3 ->
  let s' := step (HlsError true OTHER_ERROR) s in
  strategyIndex s' = strategyIndex s + 1 /\
  retryCount s' = retryCount s /\ isReconnecting s' = isReconnecting s /\
  forall st e, strategyAt (strategyIndex s + 1) = Some st ->
               transform st (url s) = Some e ->
               settled s' /\ hlsRef s' <> HlsDestroyed /\
               clearWatchdog (timers s') = clearWatchdog (timers s) /\
               exists pre, calls s' = calls s ++ HlsDestroy :: pre ++ [attachOf st e s].
Proof.
  intros [Hm Hd] Hh Hi. cbv zeta. unfold step. rewrite Hm. cbn [handle].
  rewrite Hh. unfold onHlsError.
  set (x0 := set_hlsRef HlsDestroyed (call HlsDestroy s)).
  assert (Hi0 : strategyIndex x0 = strategyIndex s) by reflexivity.
  rewrite (attemptNextStrategy_below x0) by (rewrite Hi0; exact Hi). rewrite Hi0.
  set (x := set_strategyIndex _ x0).
  destruct (render_same x) as (E1 & E2 & E3 & _).
  rewrite E1, E2, E3.
  split; [reflexivity|]. split; [reflexivity|]. split; [reflexivity|].
  intros st e Hst Htr.
  assert (Hch : depsOf x <> lastDeps x).
  { subst x x0. cbn [lastDeps set_strategyIndex set_hlsRef call set_calls].
    rewrite Hd. unfold depsOf. cbn. intros E. injection E as E. lia. }
  destruct (render_restart x st e Hm Hch Hst Htr) as (R1 & R2 & _).
  split; [exact R1|].
  rewrite (render_changed x Hm Hch) in *.
  destruct (cleanup_same x) as (C1 & _ & _ & C4 & C5 & _).
  assert (Hst' : strategyAt (strategyIndex (cleanup x)) = Some st)
    by (rewrite C1; exact Hst).
  assert (Htr' : transform st (url (cleanup x)) = Some e)
    by (rewrite C4; exact Htr).
  destruct (runEffect_resolved (cleanup x) st e Hst' Htr') as (_ & _ & R3 & _).
  split; [|split].
  - exact (runEffect_resolved_hlsRef (cleanup x) st e Hst' Htr').
  - rewrite R2, clearWatchdog_app, clearWatchdog_idem. cbn. now rewrite app_nil_r.
  - rewrite R3. unfold attachOf. rewrite C5.
    change (hlsSupported x) with (hlsSupported s).
    assert (Hc : exists pre, calls (destroyHls (cleanup x)) = calls s ++ HlsDestroy :: pre).
    { unfold cleanup, destroyHls, call. subst x x0.
      destruct s as [u sup pl ld er rc rec idx ct pa rs hr nw ts cs dp em mt].
      cbn. destruct em; cbn; eexists; rewrite <- ?app_assoc; cbn; reflexivity. }
    destruct Hc as [pre ->]. exists pre. now rewrite <- app_assoc.
Qed.

Lemma other_error_escalates_one_step_witness :
  let s := mount None (lit "http://h/live") true in
  strategyIndex (step (HlsError true OTHER_ERROR) s) = 1.
Proof.
  cbv zeta. set (s := mount None (lit "http://h/live") true).
  assert (Hs : settled s) by (split; vm_compute; reflexivity).
  assert (Hh : hlsRef s = HlsLive) by (vm_compute; reflexivity).
  assert (H0 : strategyIndex s = 0) by (vm_compute; reflexivity).
  assert (Hi : 0 <= strategyIndex s < 3) by (rewrite H0; lia).
  destruct (other_error_escalates_one_step s Hs Hh Hi) as (E & _).
  rewrite H0 in E. exact E.
Defined.

End PlayerTransitions.

(** ** The native path, seeking, and the gateways *)
Module PlayerTimers.

Import JsFacts Catalog CatalogFacts Double Player PlayerFacts PlayerControls
       PlayerMore PlayerTransitions.

Local Open Scope Z_scope.

Lemma minDue_app_last ts d c :
  Forall (fun x => d < due x) ts -> minDue (ts ++ [mkTimer d c]) = Some d.
Proof.
  induction 1 as [|x ts Hx _ IH]; [reflexivity|].
  cbn [app minDue]. rewrite IH. f_equal. lia.
Qed.

Lemma takeDue_app_last ts d c :
  Forall (fun x => d < due x) ts ->
  takeDue d (ts ++ [mkTimer d c]) = Some (mkTimer d c, ts).
Proof.
  induction 1 as [|x ts Hx _ IH]; cbn [app takeDue due].
  - now rewrite Z.eqb_refl.
  - replace (due x =? d) with false by (symmetry; apply Z.eqb_neq; lia).
    now rewrite IH.
Qed.

(** X8.  On the adaptive path an [error] event of the video element is not
    listened to.  On the non-adaptive path it escalates, but only after the
    grace delay: with no other timer due in the meantime, nothing changes
    during the first 1000 ms, and at 1000 ms [attemptNextStrategy] runs. *)
Theorem native_error_waits_one_second (s : State) :
  settled s ->
  (effectMode s = HLS -> step VideoError s = s) /\
  (effectMode s = NATIVE -> Forall (fun t => now s + 1000 < due t) (timers s) ->
   let s1 := step VideoError s in
   s1 = set_timers (timers s ++ [mkTimer (now s + 1000) CbNativeError]) s /\
   (forall dt, 0 <= dt < 1000 -> run [Wait dt; Fire] s1 = set_now (now s + dt) s1) /\
   run [Wait 1000; Fire] s1
   = render (attemptNextStrategy (set_now (now s + 1000) s))).
Proof.
  intros Hs. pose proof Hs as [Hm Hd]. split.
  - intros He. unfold step. rewrite Hm. cbn [handle]. rewrite He.
    now apply render_noop.
  - intros He Hall. cbv zeta.
    assert (E1 : step VideoError s
                 = set_timers (timers s ++ [mkTimer (now s + 1000) CbNativeError]) s).
    { unfold step. rewrite Hm. cbn [handle]. rewrite He. unfold onNativeError.
      apply render_noop. exact Hd. }
    rewrite E1. set (s1 := set_timers _ s).
    assert (Hs1 : settled s1) by (subst s1; now apply settled_set_timers).
    assert (Hmin : minDue (timers s1) = Some (now s + 1000))
      by (subst s1; cbn [timers set_timers]; now apply minDue_app_last).
    assert (Hwait : forall dt, 0 <= dt <= 1000 ->
                               step (Wait dt) s1 = set_now (now s + dt) s1).
    { intros dt Hdt. change (now s) with (now s1).
      apply step_wait; [assumption | lia |].
      intros d Hd'. rewrite Hmin in Hd'. injection Hd' as <-.
      change (now s1) with (now s). lia. }
    split; [reflexivity|]. split.
    + intros dt Hdt. cbn [run fold_left]. rewrite Hwait by lia.
      apply (step_fire_early _ (now s + 1000)).
      * now apply settled_set_now.
      * exact Hmin.
      * cbn. lia.
    + cbn [run fold_left]. rewrite Hwait by lia.
      rewrite (step_fire (set_now (now s + 1000) s1) (now s + 1000)
                 (mkTimer (now s + 1000) CbNativeError) (timers s)).
      * unfold runCallback. cbn [cb].
        assert (E : set_timers (timers s) (set_now (now s + 1000) s1)
                    = set_now (now s + 1000) s)
          by (subst s1; destruct s; reflexivity).
        now rewrite E.
      * now apply settled_set_now.
      * exact Hmin.
      * cbn. lia.
      * subst s1. cbn [timers set_timers set_now]. now apply takeDue_app_last.
Qed.

Lemma native_error_waits_one_second_witness :
  let s := mount None (lit "http://h/movie.mp4") false in
  strategyIndex (run [Wait 1000; Fire] (step VideoError s)) = 1 /\
  strategyIndex (run [Wait 999; Fire] (step VideoError s)) = 0.
Proof.
  cbv zeta. set (s := mount None (lit "http://h/movie.mp4") false).
  assert (Hs : settled s) by (split; vm_compute; reflexivity).
  assert (He : effectMode s = NATIVE) by (vm_compute; reflexivity).
  assert (Hall : Forall (fun t => now s + 1000 < due t) (timers s))
    by (vm_compute; repeat constructor).
  destruct (proj2 (native_error_waits_one_second s Hs) He Hall) as (_ & H1 & H2).
  rewrite H2, (H1 999) by lia.
  split; vm_compute; reflexivity.
Defined.

(** *** Seeking *)

Lemma cont_spec (m n : positive) :
  CompareSpec (m = n) (m < n)%positive (n < m)%positive
    (PosDef.Pos.compare_cont Eq m n).
Proof. exact (Pos.compare_spec m n). Qed.

(** Case analysis on the comparisons of exponents and mantissas. *)
Ltac cmp_finite :=
  repeat match goal with
    | b : bool |- _ => destruct b
    end;
  cbn in *; try discriminate; try reflexivity;
  repeat match goal with
    | |- context [Z.compare ?a ?b] => destruct (Z.compare_spec a b); subst
    | H : context [Z.compare ?a ?b] |- _ => destruct (Z.compare_spec a b); subst
    | |- context [PosDef.Pos.compare_cont Eq ?a ?b] => destruct (cont_spec a b); subst
    | H : context [PosDef.Pos.compare_cont Eq ?a ?b] |- _ =>
        destruct (cont_spec a b); subst
    end;
  cbn in *; try discriminate; try reflexivity; try lia.

Lemma compare_refl (x : double) : isNaN x = false -> SFcompare x x = Some Eq.
Proof. destruct x; intros H; cmp_finite. Qed.

Lemma compare_Eq_sym (x y : double) :
  SFcompare x y = Some Eq -> SFcompare y x = Some Eq.
Proof. destruct x, y; intros H; cmp_finite. Qed.

Lemma compare_Eq_trans (x y z : double) :
  SFcompare x y = Some Eq -> SFcompare y z = Some Eq -> SFcompare x z = Some Eq.
Proof. destruct x, y, z; intros H1 H2; cmp_finite. Qed.

Lemma compare_Gt_Lt (x y : double) :
  SFcompare x y = Some Gt -> SFcompare y x = Some Lt.
Proof. destruct x, y; intros H; cmp_finite. Qed.

(** [Math.max(x, 0)] is [x] or a zero, and never below zero. *)
Lemma maximum_zero (x : double) :
  isNaN x = false ->
  let m := maximum x zero in
  isNaN m = false /\ leb zero m = true /\
  (leb zero x = true -> SFcompare m x = Some Eq) /\
  (forall d, SFcompare m d = SFcompare x d \/ SFcompare m d = SFcompare zero d).
Proof.
  destruct x as [sx|sx| |sx m e]; intros H; cbv zeta; unfold leb, SFleb;
    repeat split; try (intros; now (left + right)); cmp_finite; auto.
Qed.

Lemma maximum_zero_finite (x : double) :
  isFinite x = true -> isFinite (maximum x zero) = true.
Proof. destruct x as [sx|sx| |sx m e]; intros H; cmp_finite. Qed.

(** A Number between zero and a finite Number is finite. *)
Lemma between_finite (r m : double) :
  leb zero r = true -> leb r m = true -> isFinite m = true -> isFinite r = true.
Proof. unfold leb, SFleb. destruct r, m; intros H1 H2 H3; cmp_finite. Qed.

(** [Math.min(m, d)] is [m] or [d], and above neither. *)
Lemma minimum_spec (m d : double) :
  isNaN m = false -> isNaN d = false ->
  let r := minimum m d in
  (r = m \/ r = d) /\ leb r m = true /\ leb r d = true /\
  (leb m d = true -> SFcompare r m = Some Eq).
Proof.
  intros Hm Hd. cbv zeta. unfold minimum, leb, SFleb.
  pose proof (compare_refl m Hm) as Rm. pose proof (compare_refl d Hd) as Rd.
  destruct (SFcompare m d) as [[| |]|] eqn:E.
  - pose proof (compare_Eq_sym _ _ E) as E'.
    destruct m as [[|]|sm| |sm mm em]; rewrite ?E, ?E', ?Rm, ?Rd; auto.
  - rewrite Rm, E. auto.
  - rewrite Rd, (compare_Gt_Lt _ _ E). repeat split; auto. discriminate.
  - destruct m, d; cbn in *; discriminate.
Qed.

Lemma squeezed_to_zero (t d : double) :
  leb zero t = true -> leb t d = true -> SFcompare d zero = Some Eq ->
  SFcompare t zero = Some Eq.
Proof. unfold leb, SFleb. destruct t, d; intros H1 H2 H3; cmp_finite. Qed.

(** X9.  [seek] asks for the position
    [Math.min(Math.max(currentTime + seconds, 0), duration)].  When that is
    a finite Number, the playback position becomes it, the controls are
    shown and the timeout that hides them is armed again (nothing of that in
    the minimal player); when it is not, the assignment throws and nothing
    changes.  Either way nothing else is asked of the sink and no timer of
    the controller is touched.  When the target is finite and the duration
    is zero or more, the seek goes through and the new position is between 0
    and the duration; a target in that range is where the seek lands; while
    the duration is still 0 every seek lands on 0. *)
Theorem seek_stays_in_range (seconds : double) (c : Controls) :
  mounted (player c) = true ->
  let target := add (currentTime (player c)) seconds in
  let position := minimum (maximum target zero) (duration c) in
  let c' := seek seconds c in
  let t := currentTime (player c') in
  (sameSession (player c) (player c') /\ calls (player c') = calls (player c) /\
   timers (player c') = timers (player c) /\ duration c' = duration c) /\
  (isFinite position = true ->
   t = position /\
   if minimal c
   then showControls c' = showControls c /\ controlsTimeout c' = controlsTimeout c
   else showControls c' = true /\
        controlsTimeout c'
        = Some ((now (player c) + 4000)%Z, isPlaying (player c))) /\
  (isFinite position = false -> c' = c) /\
  (isFinite target = true -> leb zero (duration c) = true ->
   isFinite position = true /\ leb zero t = true /\ leb t (duration c) = true /\
   (leb zero target = true -> leb target (duration c) = true ->
    SFcompare t target = Some Eq) /\
   (SFcompare (duration c) zero = Some Eq -> SFcompare t zero = Some Eq)).
Proof.
  intros Hm. cbv zeta. unfold seek. rewrite Hm. cbv zeta.
  set (target := add (currentTime (player c)) seconds).
  set (t := minimum (maximum target zero) (duration c)).
  assert (Ht : currentTime
                 (player (showUI (mkControls (set_currentTime t (player c))
                                    (minimal c) (duration c) (showControls c)
                                    (controlsTimeout c)))) = t)
    by (unfold showUI; cbn [minimal]; destruct (minimal c); reflexivity).
  assert (Hrange : isFinite target = true -> leb zero (duration c) = true ->
                   isFinite t = true /\ leb zero t = true /\ leb t (duration c) = true /\
                   (leb zero target = true -> leb target (duration c) = true ->
                    SFcompare t target = Some Eq) /\
                   (SFcompare (duration c) zero = Some Eq -> SFcompare t zero = Some Eq)).
  { intros Hf Hd.
    assert (Hn : isNaN target = false) by (destruct target; try reflexivity; discriminate).
    assert (Hdn : isNaN (duration c) = false)
      by (destruct (duration c); try reflexivity; discriminate).
    destruct (maximum_zero target Hn) as (M1 & M2 & M3 & M4).
    destruct (minimum_spec (maximum target zero) (duration c) M1 Hdn)
      as (R1 & R2 & R3 & R4).
    fold t in R1, R2, R3, R4.
    assert (H0t : leb zero t = true) by (destruct R1 as [-> | ->]; assumption).
    split; [exact (between_finite _ _ H0t R2 (maximum_zero_finite _ Hf))|].
    split; [exact H0t|]. split; [exact R3|]. split.
    - intros H0 H1. specialize (M3 H0).
      assert (Hle : leb (maximum target zero) (duration c) = true).
      { unfold leb, SFleb in *. destruct (M4 (duration c)) as [-> | ->];
          [exact H1 | exact Hd]. }
      exact (compare_Eq_trans _ _ _ (R4 Hle) M3).
    - intros Hz. exact (squeezed_to_zero t (duration c) H0t R3 Hz). }
  split; [|split; [|split]].
  - destruct (isFinite t); [|now repeat split].
    unfold showUI, sameSession. cbn [minimal player]. destruct (minimal c);
      cbn; repeat split.
  - intros Hf. rewrite Hf, Ht. split; [reflexivity|].
    unfold showUI. cbn [minimal]. destruct (minimal c); cbn; split; reflexivity.
  - intros Hf. now rewrite Hf.
  - intros Hf Hd. destruct (Hrange Hf Hd) as (F & H).
    rewrite F, Ht. split; [reflexivity | exact H].
Qed.

Lemma seek_stays_in_range_witness :
  let c := mkControls (mount None (lit "http://h/movie.mp4") false) false
             (ofZ 90) true None in
  let live := mkControls (mount None (lit "http://h/live.m3u8") true) false
                infinity true None in
  let c' := seek (ofZ (-10)) c in
  leb zero (currentTime (player c')) = true /\
  leb (currentTime (player c')) (ofZ 90) = true /\
  showControls c' = true /\ controlsTimeout c' = Some (4000%Z, false) /\
  seek infinity live = live.
Proof.
  cbv zeta.
  set (c := mkControls (mount None (lit "http://h/movie.mp4") false) false
              (ofZ 90) true None).
  set (live := mkControls (mount None (lit "http://h/live.m3u8") true) false
                 infinity true None).
  assert (Hm : mounted (player c) = true) by (vm_compute; reflexivity).
  assert (Hl : mounted (player live) = true) by (vm_compute; reflexivity).
  destruct (seek_stays_in_range (ofZ (-10)) c Hm) as (_ & H2 & _ & H3).
  destruct (seek_stays_in_range infinity live Hl) as (_ & _ & H4 & _).
  destruct H3 as (F & R1 & R2 & _); [vm_compute; reflexivity ..|].
  destruct (H2 F) as [_ H2'].
  assert (Hmin : minimal c = false) by reflexivity.
  rewrite Hmin in H2'. destruct H2' as [S1 S2].
  split; [exact R1|]. split; [exact R2|]. split; [exact S1|].
  split; [rewrite S2; vm_compute; reflexivity|].
  apply H4. vm_compute. reflexivity.
Defined.

End PlayerTimers.

(** ** The gateway strategies *)
Module GatewayFacts.

Import JsFacts JsMore Catalog CatalogFacts.

Local Open Scope N_scope.

(** *** Well-formed strings *)

Lemma unreserved_not_surrogate c : uriUnreserved c = true -> isSurrogate c = false.
Proof.
  unfold uriUnreserved, isSurrogate, isLeadSurrogate, isTrailSurrogate, isAlnum,
    inRange. cbn [existsb]. intros H.
  destruct (N.leb_spec 55296 c) as [Hc|Hc].
  - exfalso. repeat rewrite ?orb_true_iff, ?andb_true_iff in H.
    repeat rewrite N.leb_le in H. repeat rewrite N.eqb_eq in H. lia.
  - cbn. apply andb_false_iff. left. apply N.leb_gt. lia.
Qed.

(** [encodeURIComponent] throws exactly on the strings that are not well
    formed. *)
Lemma encodeURIComponent_isWellFormed s :
  (isWellFormed s = true <-> exists q, encodeURIComponent s = Some q).
Proof.
  enough (H : (isWellFormed s = true <-> exists q, encodeURIComponent s = Some q)
              /\ forall c, (isWellFormed (c :: s) = true
                            <-> exists q, encodeURIComponent (c :: s) = Some q))
    by apply H.
  induction s as [|d s [IH0 IH1]].
  - split; [split; [now exists [] | reflexivity]|].
    intros c. cbn. destruct (uriUnreserved c) eqn:Eu.
    + apply unreserved_not_surrogate in Eu. unfold isSurrogate in Eu.
      apply orb_false_iff in Eu as [-> ->]. split; [now eexists | reflexivity].
    + destruct (isTrailSurrogate c); [split; [discriminate | intros [q Hq]; discriminate]|].
      destruct (isLeadSurrogate c); [split; [discriminate | intros [q Hq]; discriminate]|].
      split; [now eexists | reflexivity].
  - split; [apply IH1|].
    intros c. cbn [isWellFormed encodeURIComponent].
    assert (Hmap : forall (f : jsstring -> jsstring) (o : option jsstring),
               (exists q, option_map f o = Some q) <-> exists q, o = Some q).
    { intros f [x|]; cbn; split; intros [q Hq]; try discriminate; now eexists. }
    destruct (uriUnreserved c) eqn:Eu.
    + apply unreserved_not_surrogate in Eu. unfold isSurrogate in Eu.
      apply orb_false_iff in Eu as [-> ->]. rewrite Hmap. apply IH1.
    + destruct (isTrailSurrogate c);
        [split; [discriminate | intros [q Hq]; discriminate]|].
      destruct (isLeadSurrogate c).
      * destruct (isTrailSurrogate d); cbn [andb];
          [|split; [discriminate | intros [q Hq]; discriminate]].
        rewrite Hmap. exact IH0.
      * rewrite Hmap. apply IH1.
Qed.

Lemma isWellFormed_skip (l x : jsstring) :
  surrogateFree l -> isWellFormed (l ++ x) = isWellFormed x.
Proof.
  induction 1 as [|c l Hc _ IH]; [reflexivity|]. cbn [app isWellFormed].
  unfold isSurrogate in Hc. apply orb_false_iff in Hc as [-> ->]. exact IH.
Qed.

(** A string cut at a character that is not a surrogate is well formed when
    both parts are. *)
Lemma isWellFormed_cut (a : jsstring) (c : N) (b : jsstring) :
  isSurrogate c = false ->
  isWellFormed (a ++ c :: b) = (isWellFormed a && isWellFormed b)%bool.
Proof.
  intros Hc.
  enough (H : isWellFormed (a ++ c :: b) = (isWellFormed a && isWellFormed b)%bool
              /\ forall d, isWellFormed (d :: a ++ c :: b)
                           = (isWellFormed (d :: a) && isWellFormed b)%bool)
    by apply H.
  pose proof Hc as Hc'. unfold isSurrogate in Hc'.
  apply orb_false_iff in Hc' as [Hl Ht].
  induction a as [|e a [IH0 IH1]].
  - split; [cbn; now rewrite Hl, Ht|].
    intros d. cbn. rewrite Hl, Ht.
    destruct (isTrailSurrogate d); [reflexivity|].
    now destruct (isLeadSurrogate d).
  - split; [apply IH1|].
    intros d. cbn [app isWellFormed].
    destruct (isTrailSurrogate d); [reflexivity|].
    destruct (isLeadSurrogate d).
    + destruct (isTrailSurrogate e); [cbn [andb]; exact IH0 | reflexivity].
    + apply IH1.
Qed.

Lemma isWellFormed_around (a x b : jsstring) :
  x <> [] -> surrogateFree x ->
  isWellFormed (a ++ x ++ b) = (isWellFormed a && isWellFormed b)%bool.
Proof.
  intros Hx Hf. destruct x as [|c x]; [congruence|].
  inversion Hf as [|? ? Hc Hr]; subst. cbn [app].
  rewrite (isWellFormed_cut a c (x ++ b) Hc). now rewrite (isWellFormed_skip x b Hr).
Qed.

Lemma blank_surrogateFree l : blank l -> surrogateFree l.
Proof.
  unfold blank, surrogateFree. intros H. eapply Forall_impl; [|exact H].
  cbn. intros c Hc.
  unfold isWhiteSpace, isSurrogate, isLeadSurrogate, isTrailSurrogate, inRange in *.
  destruct (N.leb_spec 55296 c) as [H1|H1]; cbn.
  - destruct (N.leb_spec c 57343) as [H2|H2].
    + exfalso. repeat rewrite ?orb_true_iff, ?andb_true_iff in Hc.
      repeat rewrite N.leb_le in Hc. repeat rewrite N.eqb_eq in Hc. lia.
    + assert (E1 : (c <=? 56319) = false) by (apply N.leb_gt; lia).
      rewrite E1. cbn. apply andb_false_iff. now right.
  - apply andb_false_iff. left. apply N.leb_gt. lia.
Qed.

Lemma isWellFormed_app_blank m r :
  blank r -> isWellFormed (m ++ r) = isWellFormed m.
Proof.
  intros Hr. destruct r as [|c r]; [now rewrite app_nil_r|].
  apply blank_surrogateFree in Hr. inversion Hr as [|? ? Hc Hr']; subst.
  rewrite (isWellFormed_cut m c r Hc).
  rewrite <- (app_nil_r r), (isWellFormed_skip r [] Hr'). cbn. apply andb_true_r.
Qed.

Lemma isWellFormed_trim s : isWellFormed (trim s) = isWellFormed s.
Proof.
  destruct (trim_split s) as (l & r & E & Hl & Hr). rewrite E at 2.
  rewrite (isWellFormed_skip l _ (blank_surrogateFree l Hl)).
  symmetry. now apply isWellFormed_app_blank.
Qed.

Lemma surrogateFree_check s :
  forallb (fun c => negb (isSurrogate c)) s = true -> surrogateFree s.
Proof.
  unfold surrogateFree. intros H. apply Forall_forall. intros c Hc.
  apply negb_true_iff. revert c Hc. now apply forallb_forall.
Qed.

Lemma isWellFormed_replace s :
  isWellFormed (replace s (lit "output=ts") (lit "output=m3u8")) = isWellFormed s.
Proof.
  destruct (includes s (lit "output=ts")) eqn:E.
  - destruct (replace_first s _ (lit "output=m3u8") E) as (a & b & Es & -> & _).
    rewrite Es.
    rewrite !isWellFormed_around;
      try discriminate; try (apply surrogateFree_check; vm_compute; reflexivity).
    reflexivity.
  - (* no occurrence: the string is returned as it is *)
    f_equal. induction s as [|c s IH]; cbn [includes replace] in *.
    + rewrite orb_false_r in E. now rewrite E.
    + apply orb_false_iff in E as [E1 E2]. rewrite E1. f_equal. now apply IH.
Qed.

Lemma isWellFormed_transformDirect u :
  isWellFormed (transformDirect u) = isWellFormed u.
Proof.
  unfold transformDirect. rewrite <- (isWellFormed_trim u).
  destruct (includes (trim u) (lit "output=ts")); [apply isWellFormed_replace|].
  destruct (_ && _ && _)%bool; [|reflexivity].
  rewrite <- (app_nil_r (lit ".m3u8")),
    (isWellFormed_around (trim u) (lit ".m3u8") []);
    try discriminate; try (apply surrogateFree_check; vm_compute; reflexivity).
  apply andb_true_r.
Qed.

Lemma surrogateFree_isWellFormed s : surrogateFree s -> isWellFormed s = true.
Proof. intros H. rewrite <- (app_nil_r s). now rewrite isWellFormed_skip. Qed.

(** X10.  Gateway 1 is the Direct normalisation followed by the proxy
    template: its resolved address is the template prefix and the percent
    encoding of what Direct resolves.  Both gateways resolve exactly the
    addresses that are well formed (no unpaired surrogate), so every address
    without surrogate code units. *)
Theorem gateways_resolve (u : jsstring) :
  transformGateway1 u
  = option_map (app (lit "https://corsproxy.io/?"))
               (encodeURIComponent (transformDirect u)) /\
  (isWellFormed u = true <->
   exists q, encodeURIComponent (transformDirect u) = Some q /\
             transformGateway1 u = Some (lit "https://corsproxy.io/?" ++ q)) /\
  (isWellFormed u = true <->
   exists q, transformGateway2 u
             = Some (lit "https://api.codetabs.com/v1/proxy?quest=" ++ q)) /\
  (surrogateFree u -> isWellFormed u = true).
Proof.
  split; [reflexivity|]. split; [|split; [|apply surrogateFree_isWellFormed]].
  - rewrite <- (isWellFormed_transformDirect u), encodeURIComponent_isWellFormed.
    change (transformGateway1 u)
      with (option_map (app (lit "https://corsproxy.io/?"))
              (encodeURIComponent (transformDirect u))).
    split.
    + intros [q Hq]. exists q. now rewrite Hq.
    + intros [q [Hq _]]. now exists q.
  - assert (E : isWellFormed u
                = isWellFormed (if includes (trim u) (lit "output=ts")
                                then replace (trim u) (lit "output=ts")
                                       (lit "output=m3u8")
                                else trim u)).
    { destruct (includes (trim u) (lit "output=ts"));
        [rewrite isWellFormed_replace|]; symmetry; apply isWellFormed_trim. }
    rewrite E, encodeURIComponent_isWellFormed. unfold transformGateway2. cbv zeta.
    destruct (encodeURIComponent _) as [q|]; cbn.
    + split; intros _; now eexists.
    + split; intros [q Hq]; discriminate.
Qed.

Lemma gateways_resolve_witness :
  exists q, transformGateway1 (lit " http://h/a b ")
            = Some (lit "https://corsproxy.io/?" ++ q).
Proof.
  assert (H : surrogateFree (lit " http://h/a b "))
    by (apply surrogateFree_check; vm_compute; reflexivity).
  destruct (gateways_resolve (lit " http://h/a b ")) as (_ & H1 & _ & H3).
  destruct (proj1 H1 (H3 H)) as [q [_ Hq]].
  exists q. exact Hq.
Defined.

End GatewayFacts.

(** ** Sorting *)
Module SortingFacts.

Import JsFacts JsMore Types Sorting.

(** *** [Array.prototype.sort] *)
Section SortFacts.

Context {T : Type} (cmp : T -> T -> comparison).

Lemma insertSorted_perm x l : Permutation (x :: l) (insertSorted cmp x l).
Proof.
  induction l as [|y l IH]; cbn; [reflexivity|].
  destruct (cmp x y); try reflexivity.
  rewrite perm_swap. now apply perm_skip.
Qed.

Lemma sort_perm l : Permutation l (sort cmp l).
Proof.
  induction l as [|x l IH]; cbn; [constructor|].
  rewrite <- insertSorted_perm. now apply perm_skip.
Qed.

(** Sorting leaves a list alone that is in order already. *)
Lemma sort_sorted_id l :
  StronglySorted (fun a b => cmp a b <> Gt) l -> sort cmp l = l.
Proof.
  induction 1 as [|x l Hs IH Hx]; cbn; [reflexivity|].
  fold (sort cmp l). rewrite IH. destruct l as [|y l]; cbn; [reflexivity|].
  inversion Hx as [|? ? Hxy _]; subst.
  destruct (cmp x y); try reflexivity. now contradiction Hxy.
Qed.

Hypothesis Hcmp : consistent cmp.

Lemma cmp_refl a : cmp a a = Eq.
Proof.
  pose proof (cmp_flip cmp Hcmp a a) as H. destruct (cmp a a); cbn in H; congruence.
Qed.

Lemma cmp_Gt_flip a b : cmp a b = Gt -> cmp b a <> Gt.
Proof. intros H. rewrite (cmp_flip cmp Hcmp a b), H. discriminate. Qed.

Lemma insertSorted_sorted x l :
  StronglySorted (fun a b => cmp a b <> Gt) l ->
  StronglySorted (fun a b => cmp a b <> Gt) (insertSorted cmp x l).
Proof.
  induction 1 as [|y l Hs IH Hy]; cbn.
  - constructor; constructor.
  - destruct (cmp x y) eqn:E.
    + constructor; [now constructor|]. constructor; [congruence|].
      apply Forall_forall. intros z Hz. rewrite Forall_forall in Hy.
      apply (cmp_trans cmp Hcmp x y z); [congruence | now apply Hy].
    + constructor; [now constructor|]. constructor; [congruence|].
      apply Forall_forall. intros z Hz. rewrite Forall_forall in Hy.
      apply (cmp_trans cmp Hcmp x y z); [congruence | now apply Hy].
    + constructor; [exact IH|].
      apply Forall_forall. intros z Hz.
      apply (Permutation_in _ (Permutation_sym (insertSorted_perm x l))) in Hz.
      destruct Hz as [<- | Hz]; [now apply cmp_Gt_flip|].
      rewrite Forall_forall in Hy. now apply Hy.
Qed.

Lemma sort_sorted l : StronglySorted (fun a b => cmp a b <> Gt) (sort cmp l).
Proof.
  induction l as [|x l IH]; cbn; [constructor | now apply insertSorted_sorted].
Qed.

Lemma tied_trans z x y : tied cmp z x = true -> tied cmp z y = true -> cmp x y = Eq.
Proof.
  unfold tied. intros Hx Hy.
  destruct (cmp z x) eqn:Ex; try discriminate.
  destruct (cmp z y) eqn:Ey; try discriminate.
  assert (Exz : cmp x z = Eq) by (rewrite (cmp_flip cmp Hcmp z x), Ex; reflexivity).
  assert (Eyz : cmp y z = Eq) by (rewrite (cmp_flip cmp Hcmp z y), Ey; reflexivity).
  assert (H1 : cmp x y <> Gt) by (apply (cmp_trans cmp Hcmp x z y); congruence).
  assert (H2 : cmp y x <> Gt) by (apply (cmp_trans cmp Hcmp y z x); congruence).
  rewrite (cmp_flip cmp Hcmp x y) in H2.
  destruct (cmp x y); cbn in H2; congruence.
Qed.

Lemma insertSorted_stable z x l :
  filter (tied cmp z) (insertSorted cmp x l) = filter (tied cmp z) (x :: l).
Proof.
  induction l as [|y l IH]; [reflexivity|].
  cbn [insertSorted]. destruct (cmp x y) eqn:E; try reflexivity.
  cbn [filter] in *. rewrite IH.
  destruct (tied cmp z x) eqn:Ex, (tied cmp z y) eqn:Ey; try reflexivity.
  pose proof (tied_trans z x y Ex Ey). congruence.
Qed.

Lemma sort_stable z l : filter (tied cmp z) (sort cmp l) = filter (tied cmp z) l.
Proof.
  induction l as [|x l IH]; [reflexivity|].
  cbn [sort fold_right]. fold (sort cmp l).
  rewrite insertSorted_stable. cbn [filter]. now rewrite IH.
Qed.

End SortFacts.

(** A comparator on a field is as consistent as the one on its values. *)
Lemma consistent_on {T U : Type} (f : T -> U) (cmp : U -> U -> comparison) :
  consistent cmp -> consistent (fun a b => cmp (f a) (f b)).
Proof.
  intros [H1 H2]. split; [intros a b; apply H1|].
  intros a b c. apply H2.
Qed.

Lemma consistent_flip {T : Type} (cmp : T -> T -> comparison) :
  consistent cmp -> consistent (fun a b => cmp b a).
Proof.
  intros [H1 H2]. split; [intros a b; apply H1|].
  intros a b c Hab Hbc. now apply (H2 c b a).
Qed.

(** The code unit order is consistent, and only equal strings tie. *)
Lemma compareCodeUnits_flip a : forall b,
  compareCodeUnits b a = CompOpp (compareCodeUnits a b).
Proof.
  induction a as [|x a IH]; intros [|y b]; cbn; try reflexivity.
  rewrite (N.compare_antisym x y). destruct (N.compare x y); cbn; try reflexivity.
  apply IH.
Qed.

Lemma compareCodeUnits_trans a : forall b c,
  compareCodeUnits a b <> Gt -> compareCodeUnits b c <> Gt ->
  compareCodeUnits a c <> Gt.
Proof.
  induction a as [|x a IH]; intros [|y b] [|z c]; cbn; try congruence.
  destruct (N.compare_spec x y) as [-> | Hxy | Hxy]; try congruence.
  - destruct (N.compare z y) eqn:E; rewrite (N.compare_antisym z y), E; cbn;
      try congruence. apply IH.
  - intros _. destruct (N.compare_spec y z) as [-> | Hyz | Hyz]; try congruence.
    + intros _. apply N.compare_lt_iff in Hxy. rewrite Hxy. discriminate.
    + intros _. assert (H : (x < z)%N) by lia.
      apply N.compare_lt_iff in H. rewrite H. discriminate.
Qed.

Lemma compareCodeUnits_consistent : consistent compareCodeUnits.
Proof.
  split; [intros a b; apply compareCodeUnits_flip | intros a; apply compareCodeUnits_trans].
Qed.

Lemma compareCodeUnits_Eq a : forall b, compareCodeUnits a b = Eq -> a = b.
Proof.
  induction a as [|x a IH]; intros [|y b]; cbn; try congruence.
  destruct (N.compare_spec x y) as [-> | Hxy | Hxy]; try congruence.
  intros H. f_equal. now apply IH.
Qed.

Section LocaleCompare.

Variable localeCompare : jsstring -> jsstring -> comparison.

(** X11.  Whatever the order asked for, [sortChannels] returns the channels
    it was given, each as often as it came in; RECENT is the reversed
    playlist, so that sorting by RECENT twice gives the playlist back; and a
    list that is in A-Z order already is returned as it is. *)
Theorem sortChannels_rearranges (items : list Channel) (o : SortOption) :
  Permutation items (sortChannels localeCompare items o) /\
  List.length (sortChannels localeCompare items o) = List.length items /\
  sortChannels localeCompare (sortChannels localeCompare items RECENT) RECENT = items /\
  (StronglySorted (fun a b => localeCompare (name a) (name b) <> Gt) items ->
   sortChannels localeCompare items A_Z = items).
Proof.
  assert (Hp : Permutation items (sortChannels localeCompare items o)).
  { destruct o; cbn; try reflexivity; try apply sort_perm. apply Permutation_rev. }
  split; [exact Hp|]. split; [symmetry; now apply Permutation_length|].
  split; [cbn; apply rev_involutive|].
  intros Hs. cbn. now apply sort_sorted_id.
Qed.

Hypothesis collation : consistent localeCompare.

(** X12.  With a consistent collation, A_Z returns the channels in
    ascending order of name and Z_A in descending order, and both sorts are
    stable: the channels whose names tie with a given name keep their
    playlist order.  Sorting twice changes nothing more. *)
Theorem sortChannels_sorted_stable (items : list Channel) :
  StronglySorted (fun a b => localeCompare (name a) (name b) <> Gt)
    (sortChannels localeCompare items A_Z) /\
  StronglySorted (fun a b => localeCompare (name a) (name b) <> Lt)
    (sortChannels localeCompare items Z_A) /\
  (forall n o, o = A_Z \/ o = Z_A ->
     filter (fun c => tied localeCompare n (name c)) (sortChannels localeCompare items o)
     = filter (fun c => tied localeCompare n (name c)) items) /\
  (forall o, sortChannels localeCompare (sortChannels localeCompare items o) o
             = sortChannels localeCompare items o \/ o = RECENT).
Proof.
  pose proof (consistent_on name localeCompare collation) as Hup.
  pose proof (consistent_flip _ Hup) as Hdown. cbn beta in Hdown.
  assert (HA : StronglySorted (fun a b => localeCompare (name a) (name b) <> Gt)
                 (sortChannels localeCompare items A_Z))
    by (cbn; exact (sort_sorted _ Hup items)).
  assert (HZ : StronglySorted (fun a b => localeCompare (name b) (name a) <> Gt)
                 (sortChannels localeCompare items Z_A))
    by (cbn; exact (sort_sorted _ Hdown items)).
  split; [exact HA|]. split.
  - eapply StronglySorted_ind with (P := StronglySorted _); [constructor | | exact HZ].
    intros a l _ IH Ha. constructor; [exact IH|].
    apply Forall_forall. intros b Hb. rewrite Forall_forall in Ha.
    specialize (Ha b Hb). rewrite (cmp_flip _ collation (name a) (name b)) in Ha.
    destruct (localeCompare (name a) (name b)); cbn in Ha; congruence.
  - split.
    + intros n o [-> | ->]; cbn.
      * (* ties under the collation, seen through a channel of that name *)
        set (z := mkChannel [] n None None [] LIVE).
        exact (sort_stable _ Hup z items).
      * set (z := mkChannel [] n None None [] LIVE).
        pose proof (sort_stable _ Hdown z items) as H.
        unfold tied in *. cbn [name z] in H.
        assert (E : forall l : list Channel,
                  filter (fun c => match localeCompare n (name c) with
                                   | Eq => true | _ => false end) l
                  = filter (fun c => match localeCompare (name c) n with
                                     | Eq => true | _ => false end) l).
        { intros l. apply filter_ext. intros c.
          rewrite (cmp_flip _ collation n (name c)).
          now destruct (localeCompare n (name c)). }
        rewrite !E. exact H.
    + intros o. destruct o; cbn; try (left; reflexivity); [| |now right].
      * left. apply sort_sorted_id. exact HA.
      * left. apply sort_sorted_id. exact HZ.
Qed.

(** X13.  [sortSeries] orders the series as [sortChannels] orders the
    channels: always a rearrangement of its input, RECENT the reverse, and
    with a consistent collation A_Z ascending by name, Z_A descending, both
    stable. *)
Theorem sortSeries_sorted_stable (items : list Series) :
  (forall o, Permutation items (sortSeries localeCompare items o)) /\
  sortSeries localeCompare items RECENT = rev items /\
  StronglySorted (fun a b => localeCompare (sname a) (sname b) <> Gt)
    (sortSeries localeCompare items A_Z) /\
  StronglySorted (fun a b => localeCompare (sname b) (sname a) <> Gt)
    (sortSeries localeCompare items Z_A) /\
  (forall n,
     filter (fun s => tied localeCompare n (sname s)) (sortSeries localeCompare items A_Z)
     = filter (fun s => tied localeCompare n (sname s)) items).
Proof.
  pose proof (consistent_on sname localeCompare collation) as Hup.
  pose proof (consistent_flip _ Hup) as Hdown. cbn beta in Hdown.
  split.
  { intros o. destruct o; cbn; try reflexivity; try apply sort_perm.
    apply Permutation_rev. }
  split; [reflexivity|].
  split; [cbn; exact (sort_sorted _ Hup items)|].
  split; [cbn; exact (sort_sorted _ Hdown items)|].
  intros n. cbn. set (z := mkSeries [] n None [] [] 0%Z).
  exact (sort_stable _ Hup z items).
Qed.

End LocaleCompare.

Lemma sortChannels_rearranges_witness :
  let a := mkChannel (lit "1") (lit "a") None None (lit "u1") LIVE in
  let b := mkChannel (lit "2") (lit "b") None None (lit "u2") LIVE in
  sortChannels compareCodeUnits [a; b] A_Z = [a; b] /\
  sortChannels compareCodeUnits [b; a] RECENT = [a; b].
Proof.
  cbv zeta. split; [|vm_compute; reflexivity].
  apply (sortChannels_rearranges compareCodeUnits _ A_Z).
  repeat constructor; cbn; discriminate.
Defined.

Lemma sortChannels_sorted_stable_witness :
  let a := mkChannel (lit "1") (lit "b") None None (lit "u1") LIVE in
  let b := mkChannel (lit "2") (lit "a") None None (lit "u2") LIVE in
  let c := mkChannel (lit "3") (lit "b") None None (lit "u3") LIVE in
  sortChannels compareCodeUnits [a; b; c] A_Z = [b; a; c] /\
  StronglySorted (fun x y => compareCodeUnits (name x) (name y) <> Gt)
    (sortChannels compareCodeUnits [a; b; c] A_Z).
Proof.
  cbv zeta. split; [vm_compute; reflexivity|].
  exact (proj1 (sortChannels_sorted_stable compareCodeUnits
                  compareCodeUnits_consistent _)).
Defined.

Lemma sortSeries_sorted_stable_witness :
  let a := mkSeries (lit "g-b") (lit "b") None (lit "g") [] 0%Z in
  let b := mkSeries (lit "g-a") (lit "a") None (lit "g") [] 0%Z in
  sortSeries compareCodeUnits [a; b] A_Z = [b; a] /\
  StronglySorted (fun x y => compareCodeUnits (sname x) (sname y) <> Gt)
    (sortSeries compareCodeUnits [a; b] A_Z).
Proof.
  cbv zeta. split; [vm_compute; reflexivity|].
  exact (proj1 (proj2 (proj2 (sortSeries_sorted_stable compareCodeUnits
                                compareCodeUnits_consistent _)))).
Defined.

End SortingFacts.

(** ** The order and the content of the series *)
Module SeriesShapeFacts.

Import JsFacts JsMore Types DataProcessor SeriesFacts SeriesShape.

Local Open Scope Z_scope.

(** *** Sets in insertion order *)

Lemma existsb_jseq_In (x : jsstring) (l : list jsstring) :
  existsb (jseq x) l = true <-> In x l.
Proof.
  rewrite existsb_exists. split.
  - intros [y [Hy E]]. apply jseq_true_iff in E. now subst y.
  - intros H. exists x. split; [assumption | apply jseq_refl].
Qed.

Lemma existsb_jseq_notIn (x : jsstring) (l : list jsstring) :
  existsb (jseq x) l = false <-> ~ In x l.
Proof.
  rewrite <- existsb_jseq_In. destruct (existsb (jseq x) l); split; congruence.
Qed.

Lemma jseq_sym (a b : jsstring) : jseq a b = jseq b a.
Proof.
  destruct (jseq a b) eqn:E1, (jseq b a) eqn:E2; try reflexivity.
  - apply jseq_true_iff in E1. subst b. now rewrite jseq_refl in E2.
  - apply jseq_true_iff in E2. subst b. now rewrite jseq_refl in E1.
Qed.

Lemma setAdd_In set x y : In y (setAdd set x) <-> In y set \/ y = x.
Proof.
  unfold setAdd. destruct (existsb (jseq x) set) eqn:E.
  - apply existsb_jseq_In in E. split; [now left | intros [H | ->]; assumption].
  - rewrite in_app_iff. cbn. split; intros [H | H]; auto.
    + destruct H as [<- | []]. now right.
Qed.

Lemma setAdd_NoDup set x : NoDup set -> NoDup (setAdd set x).
Proof.
  unfold setAdd. intros H. destruct (existsb (jseq x) set) eqn:E; [assumption|].
  apply existsb_jseq_notIn in E.
  apply NoDup_app; [assumption | repeat constructor; intros [] |].
  intros y Hy [<- | []]. contradiction.
Qed.

Lemma firstSeen_snoc l x : firstSeen (l ++ [x]) = setAdd (firstSeen l) x.
Proof. unfold firstSeen. now rewrite fold_left_app. Qed.

Lemma firstSeen_In l : forall y, In y (firstSeen l) <-> In y l.
Proof.
  induction l as [|x l IH] using rev_ind; intros y; [reflexivity|].
  rewrite firstSeen_snoc, setAdd_In, IH, in_app_iff. cbn. intuition congruence.
Qed.

Lemma firstSeen_NoDup l : NoDup (firstSeen l).
Proof.
  induction l as [|x l IH] using rev_ind; [constructor|].
  rewrite firstSeen_snoc. now apply setAdd_NoDup.
Qed.

(** *** A map listed by its keys *)
Section Keyed.

Context {V : Type}.

Lemma keyed_keys (f : jsstring -> V) ks : keys (map (fun k => (k, f k)) ks) = ks.
Proof. unfold keys. rewrite map_map. cbn. apply map_id. Qed.

End Keyed.

Lemma has_keyed (f : jsstring -> Series) ks k :
  has (map (fun k => (k, f k)) ks) k = existsb (jseq k) ks.
Proof.
  unfold has. induction ks as [|k' ks IH]; cbn; [reflexivity|].
  now rewrite IH, (jseq_sym k' k).
Qed.

Lemma get_keyed (f : jsstring -> Series) ks k :
  In k ks -> get (map (fun k => (k, f k)) ks) k = Some (f k).
Proof.
  induction ks as [|k' ks IH]; cbn; [contradiction|].
  destruct (jseq k' k) eqn:E.
  - apply jseq_true_iff in E. now subst k'.
  - intros [H | H]; [subst k'; now rewrite jseq_refl in E | now apply IH].
Qed.

Lemma set_keyed (f : jsstring -> Series) ks k v :
  NoDup ks -> In k ks ->
  set (map (fun k => (k, f k)) ks) k v
  = map (fun k' => (k', if jseq k' k then v else f k')) ks.
Proof.
  induction ks as [|k' ks IH]; cbn; [contradiction|].
  intros Hnd Hin. inversion Hnd as [|? ? Hn Hd]; subst.
  destruct (jseq k' k) eqn:E.
  - apply jseq_true_iff in E. subst k'. f_equal.
    apply map_ext_in. intros a Ha.
    destruct (jseq a k) eqn:E'; [|reflexivity].
    apply jseq_true_iff in E'. now subst a.
  - f_equal. apply IH; [assumption|].
    destruct Hin as [-> | Hin]; [now rewrite jseq_refl in E | assumption].
Qed.

Lemma set_app_fresh (m : SeriesMap) k v v' :
  ~ In k (keys m) -> set (m ++ [(k, v)]) k v' = m ++ [(k, v')].
Proof.
  unfold keys. induction m as [|[k' v0] m IH]; cbn; intros H.
  - now rewrite jseq_refl.
  - destruct (jseq k' k) eqn:E.
    + apply jseq_true_iff in E. exfalso. apply H. now left.
    + f_equal. apply IH. intros H'. apply H. now right.
Qed.

(** *** The order of the keys of an object *)

Lemma insertKey_In ks k x : In x (insertKey ks k) <-> x = k \/ In x ks.
Proof.
  induction ks as [|k' ks IH]; cbn.
  - intuition.
  - destruct (comesBefore k k'); cbn; [intuition | rewrite IH; intuition].
Qed.

Lemma insertKey_NoDup ks k : NoDup ks -> ~ In k ks -> NoDup (insertKey ks k).
Proof.
  induction ks as [|k' ks IH]; cbn; intros Hnd Hk.
  - repeat constructor. intros [].
  - destruct (comesBefore k k'); [now constructor|].
    inversion Hnd as [|? ? Hn Hd]; subst. constructor.
    + rewrite insertKey_In. intros [-> | H]; [apply Hk; now left | contradiction].
    + apply IH; [assumption | intros H; apply Hk; now right].
Qed.

Lemma ownKeys_snoc ks k : ownKeys (ks ++ [k]) = insertKey (ownKeys ks) k.
Proof. unfold ownKeys. now rewrite fold_left_app. Qed.

Lemma ownKeys_In ks : forall x, In x (ownKeys ks) <-> In x ks.
Proof.
  induction ks as [|k ks IH] using rev_ind; intros x; [reflexivity|].
  rewrite ownKeys_snoc, insertKey_In, IH, in_app_iff. cbn. intuition.
Qed.

Lemma ownKeys_NoDup ks : NoDup ks -> NoDup (ownKeys ks).
Proof.
  induction ks as [|k ks IH] using rev_ind; intros H; [constructor|].
  rewrite ownKeys_snoc. apply NoDup_remove in H as [H1 H2]. rewrite app_nil_r in *.
  apply insertKey_NoDup; [now apply IH | now rewrite ownKeys_In].
Qed.

Lemma ownKeys_setAdd ks k :
  ownKeys (setAdd ks k)
  = if existsb (jseq k) ks then ownKeys ks else insertKey (ownKeys ks) k.
Proof.
  unfold setAdd. destruct (existsb (jseq k) ks); [reflexivity | apply ownKeys_snoc].
Qed.

Lemma existsb_ownKeys ks k : existsb (jseq k) (ownKeys ks) = existsb (jseq k) ks.
Proof.
  destruct (existsb (jseq k) ks) eqn:E.
  - apply existsb_jseq_In. apply ownKeys_In. now apply existsb_jseq_In.
  - apply existsb_jseq_notIn. rewrite ownKeys_In. now apply existsb_jseq_notIn.
Qed.

Lemma arrayIndex_decimal k i : arrayIndex k = Some i -> k = decimal i /\ i = mathInt k.
Proof.
  unfold arrayIndex. cbv zeta.
  destruct (jseq (decimal (mathInt k)) k) eqn:E; [|discriminate].
  destruct (mathInt k <=? 4294967294)%N; [|discriminate].
  cbn. intros H. injection H as <-. apply jseq_true_iff in E. now split.
Qed.

(** The keys listed: the array indices in ascending order, then the other
    keys as they were created. *)
Lemma insertKey_shape idx str k :
  Forall (fun x => isArrayIndex x = true) idx -> ascending idx ->
  Forall (fun x => isArrayIndex x = false) str -> ~ In k idx ->
  exists idx',
    insertKey (idx ++ str) k
    = idx' ++ str ++ (if isArrayIndex k then [] else [k]) /\
    Forall (fun x => isArrayIndex x = true) idx' /\ ascending idx' /\
    (forall x, In x idx' <-> In x idx \/ (x = k /\ isArrayIndex k = true)).
Proof.
  intros Hidx Hasc Hstr Hk.
  destruct (isArrayIndex k) eqn:Ek.
  - (* an array index goes to its place among the array indices *)
    unfold isArrayIndex in Ek. destruct (arrayIndex k) as [i|] eqn:Ei; [|discriminate].
    induction idx as [|k' idx IH]; cbn [app].
    + exists [k]. rewrite app_nil_r. split; [|split; [|split]].
      * destruct str as [|k' str]; cbn; [reflexivity|].
        inversion Hstr as [|? ? H0 _]; subst. unfold comesBefore, isArrayIndex in *.
        rewrite Ei. now destruct (arrayIndex k').
      * repeat constructor. unfold isArrayIndex. now rewrite Ei.
      * repeat constructor.
      * intros x. cbn. intuition.
    + inversion Hidx as [|? ? H0 Hidx']; subst.
      inversion Hasc as [|? ? Hasc' Hlt]; subst.
      unfold isArrayIndex in H0. destruct (arrayIndex k') as [i'|] eqn:Ei'; [|discriminate].
      destruct (arrayIndex_decimal _ _ Ei) as [Hkd Hki].
      destruct (arrayIndex_decimal _ _ Ei') as [Hkd' Hki'].
      cbn [insertKey]. unfold comesBefore at 1. rewrite Ei, Ei'.
      destruct (N.ltb_spec i i') as [Hlt' | Hge].
      * exists (k :: k' :: idx). rewrite app_nil_r. split; [reflexivity|].
        split; [|split].
        -- constructor; [unfold isArrayIndex; now rewrite Ei|].
           constructor; [unfold isArrayIndex; now rewrite Ei' | assumption].
        -- constructor; [now constructor|].
           constructor; [now rewrite <- Hki, <- Hki'|].
           eapply Forall_impl; [|exact Hlt]. cbn. intros a Ha.
           rewrite <- Hki. rewrite <- Hki' in Ha. now apply (N.lt_trans _ i').
        -- intros x. cbn. intuition.
      * assert (Hne : i <> i').
        { intros ->. apply Hk. left. now rewrite Hkd, Hkd'. }
        destruct IH as (idx' & E & F & A & I);
          [assumption | assumption | intros H; apply Hk; now right|].
        exists (k' :: idx'). rewrite app_nil_r in *. split; [cbn; now rewrite E|].
        split; [|split].
        -- constructor; [unfold isArrayIndex; now rewrite Ei' | assumption].
        -- constructor; [assumption|]. apply Forall_forall. intros x Hx.
           apply I in Hx as [Hx | [-> _]].
           ++ now apply (proj1 (Forall_forall _ _) Hlt).
           ++ rewrite <- Hki, <- Hki'. apply N.le_neq. split; [assumption | congruence].
        -- intros x. cbn. rewrite I. intuition.
  - (* any other key goes to the end *)
    exists idx. split; [|split; [assumption | split; [assumption|]]].
    + assert (H : forall l, insertKey l k = l ++ [k]).
      { induction l as [|k' l IH]; cbn; [reflexivity|].
        unfold comesBefore, isArrayIndex in *.
        destruct (arrayIndex k); [discriminate | now rewrite IH]. }
      rewrite H. now rewrite app_assoc.
    + intros x. intuition discriminate.
Qed.

Lemma ownKeys_shape created :
  NoDup created ->
  exists idx,
    ownKeys created = idx ++ filter (fun k => negb (isArrayIndex k)) created /\
    Forall (fun x => isArrayIndex x = true) idx /\ ascending idx /\
    (forall x, In x idx <-> In x created /\ isArrayIndex x = true).
Proof.
  induction created as [|k ks IH] using rev_ind; intros Hnd.
  - exists []. repeat split; try constructor; cbn; intuition.
  - apply NoDup_remove in Hnd as [Hnd Hk]. rewrite app_nil_r in *.
    destruct (IH Hnd) as (idx & E & F & A & I).
    assert (Hstr : Forall (fun x => isArrayIndex x = false)
                     (filter (fun k => negb (isArrayIndex k)) ks)).
    { apply Forall_forall. intros x Hx. apply filter_In in Hx as [_ Hx].
      now apply negb_true_iff. }
    destruct (insertKey_shape idx _ k F A Hstr) as (idx' & E' & F' & A' & I').
    { intros H. apply I in H as [H _]. contradiction. }
    exists idx'. rewrite ownKeys_snoc, E, E', filter_app. cbn [filter].
    split; [now destruct (isArrayIndex k)|]. split; [assumption|]. split; [assumption|].
    intros x. rewrite I', I, in_app_iff. cbn. intuition (subst; auto).
Qed.

Lemma push_keyed (h : jsstring -> list Channel) ks season c :
  NoDup ks ->
  push (map (fun sk => (sk, h sk)) ks) season c
  = map (fun sk => (sk, if jseq sk season then h sk ++ [c] else h sk)) ks.
Proof.
  induction ks as [|k ks IH]; cbn; [reflexivity|].
  intros Hnd. inversion Hnd as [|? ? Hn Hd]; subst.
  destruct (jseq k season) eqn:E; cbn.
  - apply jseq_true_iff in E. subst k. f_equal.
    apply map_ext_in. intros a Ha.
    destruct (jseq a season) eqn:E'; [|reflexivity].
    apply jseq_true_iff in E'. now subst a.
  - now rewrite (IH Hd).
Qed.

Lemma defineProperty_keyed (V : Type) (g : jsstring -> V) ks k v :
  ~ In k ks ->
  defineProperty (map (fun sk => (sk, g sk)) ks) k v
  = map (fun sk => (sk, if jseq sk k then v else g sk)) (insertKey ks k).
Proof.
  induction ks as [|k' ks IH]; cbn; intros Hk.
  - now rewrite jseq_refl.
  - assert (Hother : forall a, In a (k' :: ks) -> jseq a k = false).
    { intros a Ha. apply jseq_false_iff. intros ->. contradiction. }
    destruct (comesBefore k k'); cbn.
    + rewrite jseq_refl, (Hother k') by now left. f_equal. f_equal.
      apply map_ext_in. intros a Ha. now rewrite Hother by now right.
    + rewrite (Hother k') by now left. f_equal. apply IH. intros H. apply Hk. now right.
Qed.

Lemma hasOwn_keyed (V : Type) (g : jsstring -> V) ks k :
  hasOwn (map (fun sk => (sk, g sk)) ks) k = existsb (jseq k) ks.
Proof.
  unfold hasOwn. induction ks as [|k' ks IH]; cbn; [reflexivity|].
  now rewrite IH, (jseq_sym k' k).
Qed.

Lemma pushEpisode_keyed (g : jsstring -> list Channel) ks season c :
  NoDup ks ->
  pushEpisode (map (fun sk => (sk, g sk)) ks) season c
  = if existsb (jseq season) ks
    then map (fun sk => (sk, if jseq sk season then g sk ++ [c] else g sk)) ks
    else map (fun sk => (sk, if jseq sk season then [c] else g sk)) (insertKey ks season).
Proof.
  intros Hnd. unfold pushEpisode. cbv zeta. rewrite hasOwn_keyed.
  destruct (existsb (jseq season) ks) eqn:E; [now apply push_keyed|].
  apply existsb_jseq_notIn in E.
  rewrite (defineProperty_keyed _ g ks season [] E).
  rewrite push_keyed by now apply insertKey_NoDup.
  apply map_ext. intros a. now destruct (jseq a season).
Qed.

(** *** One more channel *)

Lemma ofSeries_snoc k done c :
  ofSeries k (done ++ [c])
  = ofSeries k done ++ (if jseq (seriesIdOf c) k then [c] else []).
Proof. unfold ofSeries. rewrite filter_app. reflexivity. Qed.

Lemma ofSeason_snoc sk l c :
  ofSeason sk (l ++ [c]) = ofSeason sk l ++ (if jseq (seasonOf c) sk then [c] else []).
Proof. unfold ofSeason. rewrite filter_app. reflexivity. Qed.

Lemma ofSeries_nil k done : ~ In k (map seriesIdOf done) -> ofSeries k done = [].
Proof.
  unfold ofSeries. induction done as [|c done IH]; cbn; [reflexivity|].
  intros H. destruct (jseq (seriesIdOf c) k) eqn:E.
  - apply jseq_true_iff in E. exfalso. apply H. now left.
  - apply IH. intros H'. apply H. now right.
Qed.

Lemma ofSeries_cons k done :
  In k (map seriesIdOf done) -> exists c0 rest, ofSeries k done = c0 :: rest.
Proof.
  unfold ofSeries. induction done as [|c done IH]; cbn; [contradiction|].
  destruct (jseq (seriesIdOf c) k) eqn:E; [intros _; now eexists; eexists|].
  intros [H | H]; [subst k; now rewrite jseq_refl in E | now apply IH].
Qed.

Lemma ofSeason_none l sk : ~ In sk (map seasonOf l) -> ofSeason sk l = [].
Proof.
  unfold ofSeason. induction l as [|x l IH]; cbn; [reflexivity|].
  intros H. destruct (jseq (seasonOf x) sk) eqn:Ex.
  - apply jseq_true_iff in Ex. exfalso. apply H. now left.
  - apply IH. intros H'. apply H. now right.
Qed.

Lemma seasonsOf_snoc l c :
  pushEpisode (seasonsOf l) (seasonOf c) c = seasonsOf (l ++ [c]).
Proof.
  unfold seasonsOf.
  rewrite pushEpisode_keyed by (apply ownKeys_NoDup, firstSeen_NoDup).
  rewrite (map_app seasonOf l [c]).
  change (map seasonOf [c]) with [seasonOf c].
  rewrite firstSeen_snoc, ownKeys_setAdd, existsb_ownKeys.
  destruct (existsb (jseq (seasonOf c)) (firstSeen (map seasonOf l))) eqn:E.
  - apply map_ext. intros sk. rewrite ofSeason_snoc, (jseq_sym sk).
    destruct (jseq (seasonOf c) sk); [reflexivity | now rewrite app_nil_r].
  - apply existsb_jseq_notIn in E. rewrite firstSeen_In in E.
    apply map_ext. intros sk. rewrite ofSeason_snoc, (jseq_sym sk).
    destruct (jseq (seasonOf c) sk) eqn:E'; [|now rewrite app_nil_r].
    apply jseq_true_iff in E'. subst sk. now rewrite (ofSeason_none l _ E).
Qed.

Lemma find_snoc {A : Type} (p : A -> bool) l x :
  find p (l ++ [x])
  = match find p l with
    | Some y => Some y
    | None => if p x then Some x else None
    end.
Proof.
  induction l as [|y l IH]; cbn; [reflexivity|]. now destruct (p y).
Qed.

Lemma coverOf_snoc c0 rest c :
  coverOf ((c0 :: rest) ++ [c])
  = if (negb (truthy (coverOf (c0 :: rest))) && truthy (logo c))%bool
    then logo c else coverOf (c0 :: rest).
Proof.
  unfold coverOf. rewrite find_snoc.
  destruct (find (fun c => truthy (logo c)) (c0 :: rest)) as [y|] eqn:E.
  - apply find_some in E as [_ E]. now rewrite E.
  - cbn [app]. assert (H0 : truthy (logo c0) = false).
    { apply (find_none _ _ E). now left. }
    rewrite H0. cbn [negb andb]. now destruct (truthy (logo c)).
Qed.

(** What [addChannel] does to a map that lists the channels seen so far by
    series. *)
Lemma addChannel_grouped done c :
  addChannel (grouped done) c = grouped (done ++ [c]).
Proof.
  unfold addChannel.
  assert (Hid : interpolate (group c) ++ lit "-" ++ fst (parseName (name c))
                = seriesIdOf c) by reflexivity.
  assert (Hse : snd (parseName (name c)) = seasonOf c) by reflexivity.
  assert (Hsh : fst (parseName (name c)) = showNameOf c) by reflexivity.
  destruct (parseName (name c)) as [showName season]. cbn [fst snd] in Hid, Hse, Hsh.
  rewrite Hid. subst season showName. set (k := seriesIdOf c) in *.
  fold (groupOf c).
  set (fresh := mkSeries k (showNameOf c) (logo c) (groupOf c) [] 0).
  set (ks := firstSeen (map seriesIdOf done)).
  assert (Hks : NoDup ks) by apply firstSeen_NoDup.
  assert (Hnew : firstSeen (map seriesIdOf (done ++ [c])) = setAdd ks k)
    by (rewrite map_app; apply firstSeen_snoc).
  assert (Hother : forall k', k' <> k -> ofSeries k' (done ++ [c]) = ofSeries k' done).
  { intros k' Hk'. rewrite ofSeries_snoc. fold k.
    destruct (jseq k k') eqn:E; [|apply app_nil_r].
    apply jseq_true_iff in E. congruence. }
  assert (Hmine : ofSeries k (done ++ [c]) = ofSeries k done ++ [c])
    by (rewrite ofSeries_snoc; fold k; now rewrite jseq_refl).
  assert (Hgoal : grouped (done ++ [c])
                  = map (fun k' => (k', seriesOf k' (ofSeries k' (done ++ [c]))))
                      (setAdd ks k))
    by (unfold grouped; now rewrite Hnew).
  assert (Hg : grouped done = map (fun k' => (k', seriesOf k' (ofSeries k' done))) ks)
    by reflexivity.
  rewrite Hgoal. clear Hgoal Hnew. unfold setAdd.
  assert (Hhas : has (grouped done) k = existsb (jseq k) ks).
  { rewrite Hg. apply has_keyed. }
  rewrite Hhas. clear Hhas.
  destruct (existsb (jseq k) ks) eqn:E.
  - (* the series is there already *)
    apply existsb_jseq_In in E.
    rewrite Hg, (get_keyed _ ks k E), (set_keyed _ ks k _ Hks E).
    apply map_ext_in. intros k' Hk'. f_equal.
    destruct (jseq k' k) eqn:E'.
    + apply jseq_true_iff in E'. subst k'. rewrite Hmine.
      destruct (ofSeries_cons k done) as (c0 & rest & Hc0);
        [now apply firstSeen_In|].
      unfold seriesOf. cbn [seasons cover sid sname sgroup episodeCount].
      rewrite seasonsOf_snoc. rewrite Hc0. rewrite coverOf_snoc.
      cbn [app]. f_equal.
      cbn [List.length]. rewrite length_app. cbn [List.length]. lia.
    + rewrite Hother; [reflexivity|]. intros ->. now rewrite jseq_refl in E'.
  - (* a new series *)
    apply existsb_jseq_notIn in E.
    assert (Hfresh : ~ In k (keys (grouped done)))
      by (rewrite Hg, keyed_keys; exact E).
    rewrite (set_fresh _ k fresh Hfresh), (get_app_fresh _ k fresh Hfresh).
    rewrite (set_app_fresh _ k fresh _ Hfresh).
    rewrite map_app. cbn [map]. f_equal.
    + rewrite Hg. apply map_ext_in. intros k' Hk'. f_equal. f_equal.
      symmetry. apply Hother. intros ->. contradiction.
    + rewrite Hmine. rewrite (ofSeries_nil k done)
        by (intros H; apply E; apply firstSeen_In; exact H).
      cbn [app]. unfold seriesOf, fresh.
      cbn [seasons cover sid sname sgroup episodeCount].
      assert (Hcover : (if (negb (truthy (logo c)) && truthy (logo c))%bool
                        then logo c else logo c) = coverOf [c]).
      { unfold coverOf. cbn [find]. now destruct (truthy (logo c)). }
      assert (Hseasons : pushEpisode [] (seasonOf c) c = seasonsOf [c]).
      { unfold pushEpisode, seasonsOf, ofSeason, ownKeys, firstSeen, setAdd. cbn.
        now rewrite !jseq_refl. }
      now rewrite Hcover, Hseasons.
Qed.

Lemma fold_addChannel_grouped channels : forall done,
  fold_left addChannel channels (grouped done) = grouped (done ++ channels).
Proof.
  induction channels as [|c channels IH]; intros done; cbn.
  - now rewrite app_nil_r.
  - rewrite addChannel_grouped, IH. now rewrite <- app_assoc.
Qed.

(** [processSeries] is the grouping of the playlist by series. *)
Lemma processSeries_grouped channels :
  processSeries channels
  = map (fun k => seriesOf k (ofSeries k channels))
        (firstSeen (map seriesIdOf channels)).
Proof.
  unfold processSeries. change (@nil (jsstring * Series)) with (grouped []).
  rewrite fold_addChannel_grouped. cbn [app]. unfold grouped.
  rewrite map_map. reflexivity.
Qed.

Lemma ofSeries_first k cs c0 rest :
  ofSeries k cs = c0 :: rest ->
  exists before after,
    cs = before ++ c0 :: after /\ seriesIdOf c0 = k /\
    Forall (fun c => seriesIdOf c <> k) before.
Proof.
  unfold ofSeries. revert c0 rest. induction cs as [|c cs IH]; cbn; [discriminate|].
  intros c0 rest. destruct (jseq (seriesIdOf c) k) eqn:E.
  - intros H. injection H as -> _. apply jseq_true_iff in E.
    exists [], cs. repeat split; [assumption | constructor].
  - intros H. destruct (IH _ _ H) as (b & a & -> & Hk & Hb).
    exists (c :: b), a. repeat split; [assumption|].
    constructor; [now apply jseq_false_iff | assumption].
Qed.

(** X14.  The series come out in the order in which their first episode
    stands in the playlist: the ids of the result are the distinct series
    ids of the channels, each at its first occurrence.  So there are as many
    series as distinct ids, and an empty playlist gives no series. *)
Theorem processSeries_order (channels : list Channel) :
  map sid (processSeries channels) = firstSeen (map seriesIdOf channels) /\
  (forall k, In k (map sid (processSeries channels))
             <-> exists c, In c channels /\ seriesIdOf c = k) /\
  (forall done c,
     map sid (processSeries (done ++ [c]))
     = if existsb (jseq (seriesIdOf c)) (map sid (processSeries done))
       then map sid (processSeries done)
       else map sid (processSeries done) ++ [seriesIdOf c]).
Proof.
  assert (H : forall cs, map sid (processSeries cs) = firstSeen (map seriesIdOf cs)).
  { intros cs. rewrite processSeries_grouped, map_map. cbn. apply map_id. }
  split; [apply H|]. split.
  - intros k. rewrite H, firstSeen_In, in_map_iff.
    split; intros [c [H1 H2]]; exists c; now split.
  - intros done c. rewrite !H, map_app. cbn [map]. now rewrite firstSeen_snoc.
Qed.

(** X15.  Inside a series the season keys stand as the object of seasons
    lists them: first the seasons that are array indices (the numerals of the
    integers up to 2^32 - 2), in ascending order, then the other seasons in
    the order of their first episode.  These are the seasons of the channels
    of the series, each once.  Each season holds exactly the channels of the
    playlist with that series id and that season, in playlist order; no
    season is empty, and the episode count is the number of channels of the
    series. *)
Theorem processSeries_seasons (channels : list Channel) (s : Series) :
  In s (processSeries channels) ->
  let mine := filter (fun c => jseq (seriesIdOf c) (sid s)) channels in
  (exists indices,
     map fst (seasons s)
     = indices ++ filter (fun k => negb (isArrayIndex k)) (firstSeen (map seasonOf mine)) /\
     ascending indices /\
     (forall k, In k indices <-> In k (map seasonOf mine) /\ isArrayIndex k = true)) /\
  NoDup (map fst (seasons s)) /\
  (forall sk b, In (sk, b) (seasons s) ->
     b = filter (fun c => (jseq (seriesIdOf c) (sid s) && jseq (seasonOf c) sk)%bool)
           channels /\
     b <> []) /\
  episodeCount s = Z.of_nat (List.length mine).
Proof.
  rewrite processSeries_grouped. intros Hs. cbv zeta.
  apply in_map_iff in Hs as [k [<- Hk]].
  cbn [sid seasons episodeCount seriesOf]. fold (ofSeries k channels).
  assert (Hkeys : map fst (seasonsOf (ofSeries k channels))
                  = ownKeys (firstSeen (map seasonOf (ofSeries k channels)))).
  { unfold seasonsOf. rewrite map_map. cbn. apply map_id. }
  split; [|split; [|split; [|reflexivity]]].
  - destruct (ownKeys_shape (firstSeen (map seasonOf (ofSeries k channels)))
                (firstSeen_NoDup _)) as (idx & E & _ & A & I).
    exists idx. rewrite Hkeys. split; [exact E|]. split; [exact A|].
    intros x. rewrite I, firstSeen_In. reflexivity.
  - rewrite Hkeys. apply ownKeys_NoDup, firstSeen_NoDup.
  - intros sk b Hb. unfold seasonsOf in Hb.
    apply in_map_iff in Hb as [sk' [E Hsk]]. injection E as -> <-.
    split.
    + unfold ofSeason, ofSeries. clear. induction channels as [|c cs IH]; cbn;
        [reflexivity|].
      destruct (jseq (seriesIdOf c) k); cbn; [|exact IH].
      destruct (jseq (seasonOf c) sk); [now f_equal | exact IH].
    + apply (proj1 (ownKeys_In _ _)) in Hsk.
      apply (proj1 (firstSeen_In _ _)) in Hsk. apply in_map_iff in Hsk as [c [Hc Hin]].
      intros Hnil. assert (Hc' : In c (ofSeason sk (ofSeries k channels))).
      { unfold ofSeason. apply filter_In. split; [assumption|].
        rewrite Hc. apply jseq_refl. }
      rewrite Hnil in Hc'. contradiction.
Qed.

(** X16.  A series takes its name and its group from its first channel in
    the playlist (the group is "Uncategorized" when that channel has none or
    an empty one), whatever the later channels say; its cover is the first
    logo among its channels that is not empty, and the first channel's logo
    when there is none. *)
Theorem processSeries_metadata (channels : list Channel) (s : Series) :
  In s (processSeries channels) ->
  exists before c0 after,
    channels = before ++ c0 :: after /\
    seriesIdOf c0 = sid s /\
    Forall (fun c => seriesIdOf c <> sid s) before /\
    sname s = fst (parseName (name c0)) /\
    sgroup s = (if truthy (group c0) then interpolate (group c0)
                else lit "Uncategorized") /\
    cover s = match find (fun c => (jseq (seriesIdOf c) (sid s) && truthy (logo c))%bool)
                      channels with
              | Some c => logo c
              | None => logo c0
              end.
Proof.
  rewrite processSeries_grouped. intros Hs.
  apply in_map_iff in Hs as [k [<- Hk]].
  apply (proj1 (firstSeen_In _ _)) in Hk. destruct (ofSeries_cons k channels Hk) as (c0 & rest & E).
  destruct (ofSeries_first k channels c0 rest E) as (before & after & Hsplit & Hid & Hb).
  exists before, c0, after. cbn [sid sname sgroup cover seriesOf]. rewrite E.
  split; [assumption|]. split; [assumption|]. split; [assumption|].
  split; [reflexivity|]. split; [reflexivity|].
  unfold coverOf. rewrite <- E.
  assert (Hfind : find (fun c => truthy (logo c)) (ofSeries k channels)
                  = find (fun c => (jseq (seriesIdOf c) k && truthy (logo c))%bool)
                      channels).
  { unfold ofSeries. clear. induction channels as [|c cs IH]; cbn; [reflexivity|].
    destruct (jseq (seriesIdOf c) k); cbn; [|exact IH].
    destruct (truthy (logo c)); [reflexivity | exact IH]. }
  rewrite Hfind. destruct (find _ channels); reflexivity.
Qed.

Lemma processSeries_seasons_witness :
  let e1 := mkChannel (lit "1") (lit "A S02E01") None (Some (lit "G")) (lit "u1") SERIES in
  let e2 := mkChannel (lit "2") (lit "B 1x02") None None (lit "u2") SERIES in
  let e3 := mkChannel (lit "3") (lit "A S01E01") (Some (lit "l")) (Some (lit "G"))
              (lit "u3") SERIES in
  let e4 := mkChannel (lit "4") (lit "A S02E02") None (Some (lit "G")) (lit "u4") SERIES in
  exists s, In s (processSeries [e1; e2; e3; e4]) /\
            map fst (seasons s) = [lit "1"; lit "2"] /\
            NoDup (map fst (seasons s)) /\
            episodeCount s = 3.
Proof.
  cbv zeta.
  set (e1 := mkChannel (lit "1") (lit "A S02E01") None (Some (lit "G")) (lit "u1") SERIES).
  set (e2 := mkChannel (lit "2") (lit "B 1x02") None None (lit "u2") SERIES).
  set (e3 := mkChannel (lit "3") (lit "A S01E01") (Some (lit "l")) (Some (lit "G"))
               (lit "u3") SERIES).
  set (e4 := mkChannel (lit "4") (lit "A S02E02") None (Some (lit "G")) (lit "u4") SERIES).
  destruct (processSeries [e1; e2; e3; e4]) as [|s l] eqn:E;
    [vm_compute in E; discriminate|].
  assert (Hin : In s (processSeries [e1; e2; e3; e4])) by (rewrite E; now left).
  exists s. split; [rewrite <- E; exact Hin|].
  destruct (processSeries_seasons [e1; e2; e3; e4] s Hin) as (_ & H2 & _ & H4).
  split; [|split; [exact H2|]].
  - vm_compute in E. injection E as <- _. vm_compute. reflexivity.
  - rewrite H4. vm_compute in E. injection E as <- _. vm_compute. reflexivity.
Defined.

Lemma processSeries_metadata_witness :
  let e1 := mkChannel (lit "1") (lit "A S02E01") None (Some (lit "G")) (lit "u1") SERIES in
  let e3 := mkChannel (lit "3") (lit "A S01E01") (Some (lit "l")) (Some (lit "G"))
              (lit "u3") SERIES in
  exists s c0, In s (processSeries [e1; e3]) /\ sname s = fst (parseName (name c0)).
Proof.
  cbv zeta.
  set (e1 := mkChannel (lit "1") (lit "A S02E01") None (Some (lit "G")) (lit "u1") SERIES).
  set (e3 := mkChannel (lit "3") (lit "A S01E01") (Some (lit "l")) (Some (lit "G"))
               (lit "u3") SERIES).
  destruct (processSeries [e1; e3]) as [|s l] eqn:E; [vm_compute in E; discriminate|].
  assert (Hin : In s (processSeries [e1; e3])) by (rewrite E; now left).
  destruct (processSeries_metadata _ s Hin) as (_ & c0 & _ & _ & _ & _ & H & _).
  exists s, c0. split; [rewrite <- E; exact Hin | exact H].
Defined.

End SeriesShapeFacts.

(** ** What the two patterns capture *)
Module ParseNameFacts.

Import JsFacts JsMore Types DataProcessor Numerals.

Local Open Scope N_scope.

Section MatcherFacts.

Context {A : Type}.

Lemma chr_sound p (k : jsstring -> option A) s x :
  chr p k s = Some x -> exists c r, s = c :: r /\ p c = true /\ k r = Some x.
Proof.
  unfold chr. destruct s as [|c r]; [discriminate|].
  destruct (p c) eqn:E; [|discriminate]. intros H. now exists c, r.
Qed.

Lemma opt_sound p (k : jsstring -> option A) s x :
  opt p k s = Some x -> exists pre r, s = pre ++ r /\ k r = Some x.
Proof.
  unfold opt. destruct (chr p k s) as [y|] eqn:E.
  - intros H. injection H as ->.
    destruct (chr_sound _ _ _ _ E) as (c & r & -> & _ & Hk). now exists [c], r.
  - intros H. now exists [], s.
Qed.

Lemma many_sound p (k : jsstring -> jsstring -> option A) s : forall acc x,
  many p k acc s = Some x ->
  exists g r, s = g ++ r /\ forallb p g = true /\ k (acc ++ g) r = Some x.
Proof.
  induction s as [|c s IH]; intros acc x; cbn [many].
  - intros H. exists [], []. rewrite (app_nil_r acc). now repeat split.
  - destruct (p c) eqn:E.
    + destruct (many p k (acc ++ [c]) s) as [y|] eqn:Em.
      * intros H. injection H as ->.
        destruct (IH _ _ Em) as (g & r & -> & Hg & Hk).
        exists (c :: g), r. rewrite <- app_assoc in Hk. cbn.
        rewrite E. now repeat split.
      * intros H. exists [], (c :: s). rewrite (app_nil_r acc). now repeat split.
    + intros H. exists [], (c :: s). rewrite (app_nil_r acc). now repeat split.
Qed.

Lemma plus_sound p (k : jsstring -> jsstring -> option A) s x :
  plus p k s = Some x ->
  exists g r, s = g ++ r /\ g <> [] /\ forallb p g = true /\ k g r = Some x.
Proof.
  unfold plus. destruct s as [|c s]; [discriminate|].
  destruct (p c) eqn:E; [|discriminate]. intros H.
  destruct (many_sound _ _ _ _ _ H) as (g & r & -> & Hg & Hk).
  exists (c :: g), r. cbn. rewrite E. now repeat split.
Qed.

Lemma lazyMany_sound p (k : jsstring -> jsstring -> option A) s : forall acc x,
  lazyMany p k acc s = Some x ->
  exists g r, s = g ++ r /\ forallb p g = true /\ k (acc ++ g) r = Some x.
Proof.
  induction s as [|c s IH]; intros acc x; cbn [lazyMany].
  - destruct (k acc []) as [y|] eqn:E; [|discriminate].
    intros H. injection H as ->. exists [], []. rewrite (app_nil_r acc). now repeat split.
  - destruct (k acc (c :: s)) as [y|] eqn:E.
    + intros H. injection H as ->. exists [], (c :: s). rewrite (app_nil_r acc).
      now repeat split.
    + destruct (p c) eqn:Ep; [|discriminate]. intros H.
      destruct (IH _ _ H) as (g & r & -> & Hg & Hk).
      exists (c :: g), r. rewrite <- app_assoc in Hk. cbn. rewrite Ep.
      now repeat split.
Qed.

End MatcherFacts.

Lemma occursIn_here (p r : jsstring) : occursIn p (p ++ r).
Proof. now exists [], r. Qed.

Lemma occursIn_app_r (p a s : jsstring) : occursIn p s -> occursIn p (a ++ s).
Proof. intros (l & r & ->). exists (a ++ l), r. now rewrite <- app_assoc. Qed.

Lemma occursIn_cons (p : jsstring) c s : occursIn p s -> occursIn p (c :: s).
Proof. apply (occursIn_app_r p [c] s). Qed.

Ltac peel H :=
  first
    [ apply opt_sound in H as (? & ? & -> & H)
    | apply chr_sound in H as (? & ? & -> & ? & H) ].

Lemma matchSERIES_REGEX_sound name g1 g2 :
  matchSERIES_REGEX name = Some (g1, g2) ->
  (exists rest, name = g1 ++ rest) /\ g2 <> [] /\ forallb isDigit g2 = true /\
  forallb isDot g1 = true /\ occursIn g2 name.
Proof.
  unfold matchSERIES_REGEX. intros H.
  apply lazyMany_sound in H as (g & r & -> & Hg & H). cbn [app] in H.
  peel H. peel H. peel H. peel H.
  apply plus_sound in H as (d & r' & -> & Hd & Hdig & H).
  peel H. peel H.
  apply plus_sound in H as (d' & r'' & -> & _ & _ & H).
  injection H as <- <-.
  split; [eexists; reflexivity|]. split; [assumption|]. split; [assumption|].
  split; [assumption|].
  repeat first [apply occursIn_here | apply occursIn_app_r | apply occursIn_cons].
Qed.

Lemma matchALT_SERIES_REGEX_sound name g1 g2 :
  matchALT_SERIES_REGEX name = Some (g1, g2) ->
  (exists rest, name = g1 ++ rest) /\ g2 <> [] /\ forallb isDigit g2 = true /\
  forallb isDot g1 = true /\ occursIn g2 name.
Proof.
  unfold matchALT_SERIES_REGEX. intros H.
  apply lazyMany_sound in H as (g & r & -> & Hg & H). cbn [app] in H.
  peel H. peel H. peel H.
  apply plus_sound in H as (d & r' & -> & Hd & Hdig & H).
  peel H.
  apply plus_sound in H as (d' & r'' & -> & _ & _ & H).
  injection H as <- <-.
  split; [eexists; reflexivity|]. split; [assumption|]. split; [assumption|].
  split; [assumption|].
  repeat first [apply occursIn_here | apply occursIn_app_r | apply occursIn_cons].
Qed.

Lemma isDigit_cases c :
  isDigit c = true ->
  c = 48 \/ c = 49 \/ c = 50 \/ c = 51 \/ c = 52 \/ c = 53 \/ c = 54 \/ c = 55 \/
  c = 56 \/ c = 57.
Proof.
  unfold isDigit, inRange. rewrite andb_true_iff, !N.leb_le. lia.
Qed.

Lemma digits_numeral s : forallb isDigit s = true -> digits (numeral s) = s.
Proof.
  induction s as [|c s IH]; cbn [forallb numeral]; [reflexivity|].
  intros H. apply andb_true_iff in H as [Hc Hs]. rewrite Hc.
  specialize (IH Hs).
  destruct (isDigit_cases c Hc) as [-> | [-> | [-> | [-> | [-> | [-> | [-> | [-> | [-> | ->]]]]]]]]];
    cbn; now rewrite IH.
Qed.

Lemma digits_nzhead s :
  forallb isDigit s = true -> digits (Decimal.nzhead (numeral s)) = dropZeros s.
Proof.
  induction s as [|c s IH]; cbn [forallb numeral dropZeros]; [reflexivity|].
  intros H. apply andb_true_iff in H as [Hc Hs]. rewrite Hc.
  pose proof (digits_numeral s Hs) as Hr.
  destruct (isDigit_cases c Hc) as [-> | [-> | [-> | [-> | [-> | [-> | [-> | [-> | [-> | ->]]]]]]]]];
    cbn; try (now rewrite Hr); now apply IH.
Qed.

Lemma decimal_mathInt s :
  forallb isDigit s = true ->
  decimal (mathInt s) = match dropZeros s with [] => [48] | d => d end.
Proof.
  intros H. unfold decimal, mathInt. rewrite DecimalN.Unsigned.to_of.
  rewrite <- (digits_nzhead s H). unfold Decimal.unorm.
  destruct (Decimal.nzhead (numeral s)); reflexivity.
Qed.

Lemma digits_isDigit d : forallb isDigit (digits d) = true.
Proof. induction d; cbn; auto. Qed.

Lemma nzhead_head d : hd 0 (digits (Decimal.nzhead d)) <> 48.
Proof. induction d; cbn; try discriminate. exact IHd. Qed.

Lemma decimal_canonical n : canonicalNumeral (decimal n).
Proof.
  unfold decimal. rewrite <- (DecimalN.Unsigned.of_to n) at 1. rewrite DecimalN.Unsigned.to_of.
  set (d := N.to_uint n). unfold canonicalNumeral.
  split; [|split; [apply digits_isDigit|]].
  - pose proof (DecimalFacts.unorm_nonnil d) as H. destruct (Decimal.unorm d); cbn; congruence.
  - unfold Decimal.unorm. pose proof (nzhead_head d) as H.
    destruct (Decimal.nzhead d); cbn in *; auto.
Qed.

Lemma decimal_inj a b : decimal a = decimal b -> a = b.
Proof.
  unfold decimal. intros H.
  assert (Hd : forall x y, digits x = digits y -> x = y).
  { induction x; destruct y; cbn; try discriminate; intros E;
      try reflexivity; injection E as E; f_equal; now apply IHx. }
  apply Hd in H. rewrite <- (DecimalN.Unsigned.of_to a), <- (DecimalN.Unsigned.of_to b). now rewrite H.
Qed.

(** Rounding *)
Lemma nearestDouble_exact n : n < 2 ^ 53 -> nearestDouble n = Some n.
Proof.
  intros H. unfold nearestDouble.
  assert (Hsh : N.log2 n + 1 - 53 = 0).
  { destruct (N.eq_dec n 0) as [-> | Hn]; [reflexivity|].
    assert (N.log2 n < 53) by (apply N.log2_lt_pow2; lia). lia. }
  rewrite Hsh. cbv zeta. rewrite N.pow_0_r, N.div_1_r, N.mod_1_r.
  cbn [N.ltb N.eqb N.mul N.compare orb andb]. rewrite N.mul_1_r.
  assert (H' : n < 2 ^ 1024).
  { eapply N.lt_trans; [exact H|]. apply N.pow_lt_mono_r; lia. }
  apply N.leb_gt in H'. now rewrite H'.
Qed.

Lemma nearestDouble_large n y :
  2 ^ 53 <= n -> nearestDouble n = Some y -> 2 ^ 53 <= y.
Proof.
  intros H. unfold nearestDouble. cbv zeta.
  set (sh := N.log2 n + 1 - 53). set (q := n / 2 ^ sh).
  assert (Hn : 0 < n) by (assert (0 < 2 ^ 53) by (apply N.neq_0_lt_0, N.pow_nonzero; lia); lia).
  assert (HL : 53 <= N.log2 n) by (apply N.log2_le_pow2; [exact Hn | exact H]).
  assert (Hsh : N.log2 n = 52 + sh) by (unfold sh; lia).
  assert (Hq : 2 ^ 52 <= q).
  { unfold q. apply N.div_le_lower_bound; [apply N.pow_nonzero; lia|].
    rewrite N.mul_comm, <- N.pow_add_r, <- Hsh. apply N.log2_spec. exact Hn. }
  assert (Hs : 2 <= 2 ^ sh).
  { change 2 with (2 ^ 1) at 1. apply N.pow_le_mono_r; [lia | unfold sh; lia]. }
  assert (Hv : forall q', q <= q' -> 2 ^ 53 <= q' * 2 ^ sh).
  { intros q' Hq'. change (2 ^ 53) with (2 ^ 52 * 2).
    apply N.mul_le_mono; [lia | exact Hs]. }
  destruct (_ || _)%bool; destruct (2 ^ 1024 <=? _); try discriminate;
    intros E; injection E as <-; apply Hv; lia.
Qed.

Lemma floor_bounds x P : P <> 0 -> x / P * P <= x /\ x < x / P * P + P.
Proof.
  intros HP. pose proof (N.div_mod x P HP) as Hdm. pose proof (N.mod_lt x P HP) as Hlt.
  rewrite (N.mul_comm (x / P) P).
  generalize dependent (x mod P). generalize dependent (P * (x / P)). intros; lia.
Qed.

Lemma shortest_step P x :
  x < 2 ^ 53 -> P <> 0 ->
  roundsTo (x / P * P) x = (x / P * P =? x) /\ roundsTo (x / P * P + P) x = false.
Proof.
  intros Hx HP. destruct (floor_bounds x P HP) as [H1 H2].
  generalize dependent (x / P * P). intros v1 H1 H2. split.
  - unfold roundsTo. rewrite nearestDouble_exact by lia. reflexivity.
  - unfold roundsTo.
    destruct (N.lt_ge_cases (v1 + P) (2 ^ 53)) as [Hs | Hb].
    + rewrite nearestDouble_exact by exact Hs. apply N.eqb_neq. lia.
    + destruct (nearestDouble (v1 + P)) as [y|] eqn:E; [|reflexivity].
      apply N.eqb_neq. pose proof (nearestDouble_large _ _ Hb E). lia.
Qed.

Lemma shortest_exact j x : x < 2 ^ 53 -> shortest j x = x.
Proof.
  intros Hx. induction j as [|j IH]; cbn [shortest]; cbv zeta.
  all: match goal with |- context [10 ^ ?e] => set (P := 10 ^ e) end.
  all: assert (HP : P <> 0) by (apply N.pow_nonzero; lia).
  all: destruct (shortest_step P x Hx HP) as [R1 R2]; rewrite R1, R2.
  all: destruct (N.eqb_spec (x / P * P) x) as [E | E]; [exact E | try reflexivity; try exact IH].
Qed.

Lemma toString_exact x : x < 2 ^ 53 -> toString (Integer x) = decimal x.
Proof.
  intros Hx. unfold toString. cbv zeta. rewrite shortest_exact by exact Hx.
  assert (H : x < 10 ^ 21).
  { eapply N.lt_trans; [exact Hx|]. vm_compute. reflexivity. }
  apply N.ltb_lt in H. now rewrite H.
Qed.

Lemma numeral_nonnil s : s <> [] -> forallb isDigit s = true -> numeral s <> Decimal.Nil.
Proof.
  destruct s as [|c s]; [congruence|]. intros _ H. cbn [forallb] in H.
  apply andb_true_iff in H as [Hc _]. cbn [numeral]. rewrite Hc.
  unfold digit. destruct (c - 48) as [|p]; [discriminate|].
  do 4 (destruct p as [p|p|]; try discriminate).
Qed.

Lemma parseInt_digits s :
  s <> [] -> forallb isDigit s = true ->
  parseInt s = match nearestDouble (mathInt s) with
               | Some v => Integer v
               | None => PlusInfinity
               end.
Proof.
  intros Hs Hd. unfold parseInt, mathInt.
  pose proof (numeral_nonnil s Hs Hd) as H.
  destruct (numeral s); [congruence | reflexivity ..].
Qed.

(** Below 2^53 the season is the numeral without its leading zeros. *)
Lemma normalizeSeason_exact s :
  s <> [] -> forallb isDigit s = true -> mathInt s < 2 ^ 53 ->
  normalizeSeason s = match dropZeros s with [] => lit "0" | d => d end.
Proof.
  intros Hs Hd Hlt. unfold normalizeSeason.
  rewrite (parseInt_digits s Hs Hd), (nearestDouble_exact _ Hlt), (toString_exact _ Hlt).
  now apply decimal_mathInt.
Qed.

(** What [toString] writes for an integer: a numeral in full, or digits with
    an exponent. *)
Lemma toString_Integer x :
  canonicalNumeral (toString (Integer x)) \/
  exists m e, toString (Integer x) = m ++ lit "e+" ++ decimal e.
Proof.
  unfold toString. cbv zeta.
  destruct (_ <? 10 ^ 21); [left; apply decimal_canonical|]. right.
  set (e := N.of_nat _).
  destruct (rev (dropZeros (rev (decimal _)))) as [|d [|d' frac]].
  - now exists [], e.
  - now exists [d], e.
  - exists (d :: lit "." ++ d' :: frac), e. change (lit ".") with [46]. reflexivity.
Qed.

Lemma normalizeSeason_shape s :
  s <> [] -> forallb isDigit s = true ->
  canonicalNumeral (normalizeSeason s) \/
  normalizeSeason s = lit "Infinity" \/
  exists m e, normalizeSeason s = m ++ lit "e+" ++ decimal e.
Proof.
  intros Hs Hd. unfold normalizeSeason. rewrite (parseInt_digits s Hs Hd).
  destruct (nearestDouble (mathInt s)) as [v|]; [|right; now left].
  destruct (toString_Integer v) as [H | H]; [now left | right; now right].
Qed.

(** The rounding of [parseInt] is that of the Numbers of the player, here on
    numbers at the edges: small ones, halfway cases above 2^53, powers of ten
    and the largest double. *)
Lemma nearestDouble_as_Double :
  forallb (fun n => match nearestDouble n, Double.valueOf (Double.ofZ (Z.of_N n)) with
                    | Some v, Some q => Qeq_bool q (inject_Z (Z.of_N v))
                    | None, None => true
                    | _, _ => false
                    end)
    [0; 1; 7; 2 ^ 53 - 1; 2 ^ 53; 2 ^ 53 + 1; 2 ^ 53 + 2; 2 ^ 53 + 3; 2 ^ 60 + 2 ^ 7;
     10 ^ 21; 10 ^ 22; 10 ^ 23; 10 ^ 308; 2 ^ 1024 - 2 ^ 970 - 1; 2 ^ 1024 - 2 ^ 970;
     2 ^ 1024; 10 ^ 309] = true.
Proof. vm_compute. reflexivity. Qed.

Lemma dropTrailingDash_prefix s : exists r, s = dropTrailingDash s ++ r.
Proof.
  unfold dropTrailingDash. destruct (rev s) as [|c r] eqn:E.
  - exists []. now rewrite app_nil_r.
  - destruct (isDashOrUnderscore c).
    + exists [c]. rewrite <- (rev_involutive s), E. reflexivity.
    + exists []. now rewrite app_nil_r.
Qed.

Lemma occursIn_trim s : occursIn (trim s) s.
Proof. destruct (trim_split s) as (l & r & E & _). now exists l, r. Qed.

Lemma occursIn_trans a b c : occursIn a b -> occursIn b c -> occursIn a c.
Proof.
  intros (l1 & r1 & ->) (l2 & r2 & ->). exists (l2 ++ l1), (r1 ++ r2).
  now rewrite <- !app_assoc.
Qed.

Lemma seriesMatch_sound name g1 g2 :
  seriesMatch name = Some (g1, g2) ->
  (exists rest, name = g1 ++ rest) /\ g2 <> [] /\ forallb isDigit g2 = true /\
  forallb isDot g1 = true /\ occursIn g2 name.
Proof.
  unfold seriesMatch. destruct (matchSERIES_REGEX name) as [m|] eqn:E1.
  - intros H. injection H as ->. now apply matchSERIES_REGEX_sound.
  - apply matchALT_SERIES_REGEX_sound.
Qed.

(** X17.  The show name [parseName] returns is a piece of the channel name.
    When neither pattern matches, the name comes back whole with season 1.
    When one does, the show name has no white space at either end and the
    season is [parseInt(digits, 10).toString()] for the run of decimal
    digits of the name that the pattern captured; when these digits spell a
    number below 2^53, the season is that run without its leading zeros
    ("0" when all are zeros).  In every case the season is a decimal numeral
    without leading zeros, [Infinity], or digits followed by an exponent:
    22 digits as in "A S1000000000000000000000E1" give the season "1e+21",
    and two seasons above 2^53 that round to the same Number give the same
    season. *)
Theorem parseName_shape (name : jsstring) :
  occursIn (fst (parseName name)) name /\
  (seriesMatch name = None -> parseName name = (name, lit "1")) /\
  (forall g1 digits, seriesMatch name = Some (g1, digits) ->
     digits <> [] /\ forallb isDigit digits = true /\ occursIn digits name /\
     trimmed (fst (parseName name)) /\
     snd (parseName name) = toString (parseInt digits) /\
     (mathInt digits < 2 ^ 53 ->
      snd (parseName name) = match dropZeros digits with [] => lit "0" | d => d end)) /\
  (canonicalNumeral (snd (parseName name)) \/
   snd (parseName name) = lit "Infinity" \/
   exists m e, snd (parseName name) = m ++ lit "e+" ++ decimal e) /\
  snd (parseName (lit "A S1000000000000000000000E1")) = lit "1e+21" /\
  snd (parseName (lit "A S9007199254740993E1")) = lit "9007199254740992" /\
  snd (parseName (lit "A S9007199254740992E1")) = lit "9007199254740992".
Proof.
  split; [|split; [|split; [|split; [|repeat split; vm_compute; reflexivity]]]].
  - unfold parseName. destruct (seriesMatch name) as [[g1 g2]|] eqn:E.
    + apply seriesMatch_sound in E as ([rest ->] & _). cbn [fst].
      apply (occursIn_trans _ (dropTrailingDash (trim g1))); [apply occursIn_trim|].
      apply (occursIn_trans _ (trim g1)).
      * destruct (dropTrailingDash_prefix (trim g1)) as [r Hr].
        exists [], r. exact Hr.
      * apply (occursIn_trans _ g1); [apply occursIn_trim|].
        exists [], rest. reflexivity.
    + exists [], []. cbn. now rewrite app_nil_r.
  - unfold parseName. now intros ->.
  - intros g1 digits E. unfold parseName. rewrite E. cbn [fst snd].
    apply seriesMatch_sound in E as (_ & Hne & Hd & _ & Hocc).
    split; [exact Hne|]. split; [exact Hd|]. split; [exact Hocc|].
    split; [apply trim_trimmed|]. split; [reflexivity|].
    now apply normalizeSeason_exact.
  - unfold parseName. destruct (seriesMatch name) as [[g1 g2]|] eqn:E.
    + apply seriesMatch_sound in E as (_ & Hne & Hd & _). cbn [snd].
      now apply normalizeSeason_shape.
    + left. cbn [snd]. unfold canonicalNumeral. vm_compute.
      repeat split; try discriminate. right. discriminate.
Qed.

Lemma parseName_shape_witness :
  seriesMatch (lit "Show - S01 E05") = Some (lit "Show", lit "01") /\
  snd (parseName (lit "Show - S01 E05")) = lit "1".
Proof.
  assert (E : seriesMatch (lit "Show - S01 E05") = Some (lit "Show", lit "01"))
    by (vm_compute; reflexivity).
  split; [exact E|].
  destruct (parseName_shape (lit "Show - S01 E05")) as (_ & _ & H & _).
  destruct (H _ _ E) as (_ & _ & _ & _ & _ & H').
  rewrite H'; vm_compute; reflexivity.
Defined.

End ParseNameFacts.

(** ** The playlist parser *)
Module M3uParserFacts.

Import JsFacts JsMore Types DataProcessor ParseNameFacts M3uParser.

Local Open Scope N_scope.

(** *** Splitting *)

Lemma split_cons s sep : exists x xs, split s sep = x :: xs.
Proof.
  induction s as [|c s (x & xs & IH)]; cbn; [now eexists; eexists|].
  destruct (N.eqb c sep); [now eexists; eexists|]. rewrite IH. now eexists; eexists.
Qed.

Lemma split_no_sep s sep : forall x, In x (split s sep) -> ~ In sep x.
Proof.
  induction s as [|c s IH]; cbn.
  - intros x [<- | []] [].
  - destruct (N.eqb c sep) eqn:E.
    + intros x [<- | H]; [intros [] | now apply IH].
    + destruct (split s sep) as [|y ys] eqn:Es.
      * intros x [<- | []] [H | []]. subst c. now rewrite N.eqb_refl in E.
      * intros x [<- | H].
        -- intros [H | H]; [subst c; now rewrite N.eqb_refl in E|].
           apply (IH y); [now left | assumption].
        -- apply IH. now right.
Qed.

Lemma last_In {A : Type} (l : list A) (d : A) : l <> [] -> In (last l d) l.
Proof.
  induction l as [|x l IH]; [congruence|]. intros _.
  destruct l as [|y l]; [now left|]. right. apply IH. discriminate.
Qed.

Lemma trim_In c s : In c (trim s) -> In c s.
Proof.
  destruct (trim_split s) as (l & r & E & _). intros H.
  rewrite E. apply in_or_app. right. apply in_or_app. now left.
Qed.

Lemma trim_nonblank_head s c r : trim s = c :: r -> isWhiteSpace c = false.
Proof. intros H. exact (proj1 (trim_trimmed s) c r H). Qed.

Lemma NoDup_map_injective {A B : Type} (f : A -> B) (l : list A) :
  (forall a b, f a = f b -> a = b) -> NoDup l -> NoDup (map f l).
Proof.
  intros Hinj. induction 1 as [|x l Hx _ IH]; cbn; constructor; [|exact IH].
  intros Hin. apply in_map_iff in Hin as (y & Hy & Hin).
  apply Hinj in Hy. now subst y.
Qed.

(** *** The attribute pattern *)

Lemma search_sound {A : Type} (m : jsstring -> option A) s x :
  search m s = Some x -> exists a b, s = a ++ b /\ m b = Some x.
Proof.
  induction s as [|c s IH]; cbn [search].
  - destruct (m []) eqn:E; [|discriminate]. intros H. injection H as ->.
    now exists [], [].
  - destruct (m (c :: s)) eqn:E.
    + intros H. injection H as ->. now exists [], (c :: s).
    + intros H. destruct (IH H) as (a & b & -> & Hb). now exists (c :: a), b.
Qed.

Lemma matchAttribute_no_quote key info g :
  matchAttribute key info = Some g -> ~ In 34 g /\ occursIn g info.
Proof.
  unfold matchAttribute. intros H.
  apply search_sound in H as (a & b & -> & H).
  unfold str in H. destruct (startsWith b (key ++ [61; 34])) eqn:Es; [|discriminate].
  apply many_sound in H as (v & r & Hr & Hv & H). cbn [app] in H.
  apply chr_sound in H as (c & r' & -> & _ & H). injection H as <-.
  split.
  - intros Hin. rewrite forallb_forall in Hv. specialize (Hv _ Hin).
    unfold isQuote in Hv. now rewrite N.eqb_refl in Hv.
  - exists (a ++ firstn (List.length (key ++ [61; 34])) b), (c :: r').
    rewrite <- app_assoc. f_equal.
    rewrite <- Hr. apply eq_sym, firstn_skipn.
Qed.

Section Host.

Variable toLowerCase : jsstring -> jsstring.
Variable randomUUID : nat -> jsstring.

(** *** Shape of the channels *)

Lemma info_name_ok info :
  let name := orElse (trim (last (split info 44) [])) (lit "Unknown Channel") in
  name <> [] /\ trimmed name /\ ~ In 44 name.
Proof.
  cbv zeta. unfold orElse.
  destruct (trim (last (split info 44) [])) as [|c r] eqn:E.
  - split; [discriminate|]. split.
    + split; intros c r Hc.
      * injection Hc as <- _. reflexivity.
      * change (lit "Unknown Channel") with (lit "Unknown Channe" ++ [108]) in Hc.
        apply app_inj_tail in Hc as [_ <-]. reflexivity.
    + vm_compute. intuition discriminate.
  - rewrite <- E. split; [rewrite E; discriminate|]. split; [apply trim_trimmed|].
    intros H. apply trim_In in H.
    destruct (split_cons info 44) as (x & xs & Hs).
    apply (split_no_sep info 44 (last (split info 44) [])); [|exact H].
    apply last_In. rewrite Hs. discriminate.
Qed.

Lemma parseLine_shapeOk st line :
  shapeOk toLowerCase st ->
  shapeOk toLowerCase (parseLine toLowerCase randomUUID st line).
Proof.
  intros [Hc Hp]. unfold M3uParser.parseLine.
  destruct (startsWith (trim line) (lit "#EXTINF:")) eqn:Ei.
  - split; cbn [channels currentChannel]; [exact Hc|].
    intros p Hp'. injection Hp' as <-. unfold pendingOk. cbn [p_name p_logo].
    destruct (info_name_ok (skipn 8 (trim line))) as (H1 & H2 & H3).
    repeat split; try assumption; try apply H2.
    intros l Hl. now apply matchAttribute_no_quote in Hl.
  - destruct (startsWith (trim line) (lit "http")) eqn:Eh; [|now split].
    destruct (currentChannel st) as [p|] eqn:Ep; [|split; [exact Hc | now rewrite Ep]].
    destruct (Hp p eq_refl) as (H1 & H2 & H3 & H4).
    destruct (p_name p) as [|c r] eqn:En; [congruence|].
    split; cbn [channels currentChannel]; [|discriminate].
    apply Forall_app. split; [exact Hc|]. constructor; [|constructor].
    split; cbn [name url group type logo].
    + exact (conj H1 (conj H2 H3)).
    + split; [apply trim_trimmed | exact Eh].
    + eexists. split; reflexivity.
    + exact H4.
Qed.

Lemma fold_parseLine_shapeOk lines : forall st,
  shapeOk toLowerCase st ->
  shapeOk toLowerCase (fold_left (parseLine toLowerCase randomUUID) lines st).
Proof.
  induction lines as [|l lines IH]; intros st H; cbn; [exact H|].
  apply IH. now apply parseLine_shapeOk.
Qed.

(** *** The identifiers *)

Lemma StronglySorted_snoc (l : list nat) n :
  StronglySorted lt l -> Forall (fun i => (i < n)%nat) l -> StronglySorted lt (l ++ [n]).
Proof.
  induction 1 as [|x l Hs IH Hx]; cbn; intros Hn.
  - constructor; constructor.
  - inversion Hn as [|? ? Hxn Hln]; subst. constructor; [now apply IH|].
    apply Forall_app. split; [exact Hx | now constructor].
Qed.

Lemma parseLine_idsOk st line :
  idsOk randomUUID st -> idsOk randomUUID (parseLine toLowerCase randomUUID st line).
Proof.
  intros (idxs & Hm & Hs & Hp). unfold M3uParser.parseLine.
  destruct (startsWith (trim line) (lit "#EXTINF:")) eqn:Ei.
  - exists idxs. cbn [channels currentChannel uuidCalls p_id].
    split; [exact Hm|]. split; [exact Hs|].
    exists (uuidCalls st). split; [reflexivity|]. split; [lia|].
    destruct (currentChannel st) as [p|].
    + destruct Hp as (n & _ & Hn & Hf). eapply Forall_impl; [|exact Hf].
      cbn. intros; lia.
    + exact Hp.
  - destruct (startsWith (trim line) (lit "http")) eqn:Eh; [|now exists idxs].
    destruct (currentChannel st) as [p|] eqn:Ep;
      [|exists idxs; rewrite Ep; now repeat split].
    destruct (p_name p) as [|c r] eqn:En;
      [exists idxs; rewrite Ep; now repeat split|].
    destruct Hp as (n & Hid & Hn & Hf).
    exists (idxs ++ [n]). cbn [channels currentChannel uuidCalls].
    split; [rewrite !map_app, Hm; cbn; now rewrite Hid|].
    split; [now apply StronglySorted_snoc|].
    apply Forall_app. split; [|now repeat constructor].
    eapply Forall_impl; [|exact Hf]. cbn. intros; lia.
Qed.

Lemma fold_parseLine_idsOk lines : forall st,
  idsOk randomUUID st ->
  idsOk randomUUID (fold_left (parseLine toLowerCase randomUUID) lines st).
Proof.
  induction lines as [|l lines IH]; intros st H; cbn; [exact H|].
  apply IH. now apply parseLine_idsOk.
Qed.

(** *** Counting *)

Lemma info_not_url line : isInfoLine line = true -> isUrlLine line = false.
Proof.
  unfold isInfoLine, isUrlLine. destruct (trim line) as [|c r]; [discriminate|].
  change (lit "#EXTINF:") with (35 :: lit "EXTINF:").
  change (lit "http") with (104 :: lit "ttp"). cbn [startsWith].
  destruct (N.eqb_spec 35 c) as [<- | _]; [intros _; reflexivity | discriminate].
Qed.

Lemma fold_parseLine_count lines : forall st,
  let st' := fold_left (parseLine toLowerCase randomUUID) lines st in
  (List.length (channels st') + pendingCount st'
   <= List.length (channels st) + pendingCount st
      + List.length (filter isInfoLine lines))%nat /\
  (List.length (channels st')
   <= List.length (channels st) + List.length (filter isUrlLine lines))%nat /\
  (exists more, channels st' = channels st ++ more).
Proof.
  induction lines as [|l lines IH]; intros st; cbv zeta; cbn [fold_left filter].
  - split; [lia|]. split; [cbn; lia|]. exists []. now rewrite app_nil_r.
  - specialize (IH (parseLine toLowerCase randomUUID st l)). cbv zeta in IH.
    destruct IH as (H1 & H2 & more & H3).
    assert (Hstep :
      (List.length (channels (parseLine toLowerCase randomUUID st l))
       + pendingCount (parseLine toLowerCase randomUUID st l)
       <= List.length (channels st) + pendingCount st
          + (if isInfoLine l then 1 else 0))%nat /\
      (List.length (channels (parseLine toLowerCase randomUUID st l))
       <= List.length (channels st) + (if isUrlLine l then 1 else 0))%nat /\
      exists one, channels (parseLine toLowerCase randomUUID st l) = channels st ++ one).
    { unfold M3uParser.parseLine. pose proof (info_not_url l) as Hnot.
      unfold isInfoLine, isUrlLine in *.
      destruct (startsWith (trim l) (lit "#EXTINF:")) eqn:Ei.
      - rewrite (Hnot eq_refl). unfold pendingCount. cbn [channels currentChannel].
        split; [destruct (currentChannel st); lia|]. split; [lia|].
        exists []. now rewrite app_nil_r.
      - destruct (startsWith (trim l) (lit "http")) eqn:Eh.
        + unfold pendingCount. destruct (currentChannel st) as [p|] eqn:Ep.
          * destruct (p_name p) as [|c r]; cbn [channels currentChannel].
            -- rewrite Ep. split; [lia|]. split; [lia|].
               exists []. now rewrite app_nil_r.
            -- rewrite length_app. cbn [List.length].
               split; [lia|]. split; [lia|]. eexists; reflexivity.
          * rewrite Ep. split; [lia|]. split; [lia|].
            exists []. now rewrite app_nil_r.
        + split; [lia|]. split; [lia|]. exists []. now rewrite app_nil_r. }
    destruct Hstep as (S1 & S2 & one & S3).
    split; [|split].
    + destruct (isInfoLine l); cbn [List.length]; lia.
    + destruct (isUrlLine l); cbn [List.length]; lia.
    + exists (one ++ more). rewrite H3, S3. now rewrite app_assoc.
Qed.

(** X18.  Every channel [parseM3U] returns has a name that is not empty,
    has no white space at either end and holds no comma; an address that
    starts with "http" and has no white space at either end; a group (never
    undefined), and the content type [detectType] gives for that group and
    address; and a logo, if any, without a double quote. *)
Theorem parseM3U_wellFormed (content : jsstring) (c : Channel) :
  In c (parseM3U toLowerCase randomUUID content) -> wellFormed toLowerCase c.
Proof.
  unfold M3uParser.parseM3U.
  assert (H : shapeOk toLowerCase
                (fold_left (parseLine toLowerCase randomUUID) (split content 10)
                   (mkParser [] None 0%nat))).
  { apply fold_parseLine_shapeOk. split; [constructor | discriminate]. }
  destruct H as [H _]. rewrite Forall_forall in H. apply H.
Qed.

(** X19.  The ids of the parsed channels are the results of distinct calls
    of [crypto.randomUUID], in the order of the calls; so the ids are
    pairwise distinct as soon as no two calls return the same identifier. *)
Theorem parseM3U_ids (content : jsstring) :
  (exists idxs, map id (parseM3U toLowerCase randomUUID content) = map randomUUID idxs /\
                StronglySorted lt idxs) /\
  ((forall m n, randomUUID m = randomUUID n -> m = n) ->
   NoDup (map id (parseM3U toLowerCase randomUUID content))).
Proof.
  unfold M3uParser.parseM3U.
  assert (H : idsOk randomUUID
                (fold_left (parseLine toLowerCase randomUUID) (split content 10)
                   (mkParser [] None 0%nat))).
  { apply fold_parseLine_idsOk. exists []. cbn. repeat split; constructor. }
  destruct H as (idxs & Hm & Hs & _).
  split; [now exists idxs|].
  intros Hinj. rewrite Hm. apply NoDup_map_injective; [exact Hinj|].
  clear Hm. induction Hs as [|x l Hs IH Hx]; constructor; [|exact IH].
  intros Hin. rewrite Forall_forall in Hx. specialize (Hx x Hin). lia.
Qed.

(** X20.  There are at most as many channels as [#EXTINF:] lines and at
    most as many as lines starting with "http"; a playlist without an
    [#EXTINF:] line, or without an address line, gives no channel. *)
Theorem parseM3U_count (content : jsstring) :
  let lines := split content 10 in
  let parsed := parseM3U toLowerCase randomUUID content in
  (List.length parsed <= List.length (filter isInfoLine lines))%nat /\
  (List.length parsed <= List.length (filter isUrlLine lines))%nat /\
  (forallb (fun l => negb (isInfoLine l)) lines = true -> parsed = []) /\
  (forallb (fun l => negb (isUrlLine l)) lines = true -> parsed = []).
Proof.
  cbv zeta. unfold M3uParser.parseM3U.
  destruct (fold_parseLine_count (split content 10) (mkParser [] None 0%nat))
    as (H1 & H2 & _).
  cbv zeta in H1, H2. cbn [channels List.length pendingCount currentChannel] in H1, H2.
  assert (Hnone : forall (p : jsstring -> bool) (l : list jsstring),
             forallb (fun x => negb (p x)) l = true -> filter p l = []).
  { intros p l. induction l as [|x l IH]; cbn; [reflexivity|].
    intros H. apply andb_true_iff in H as [Hx Hl].
    destruct (p x); [discriminate | now apply IH]. }
  split; [lia|]. split; [lia|]. split; intros H; apply Hnone in H; rewrite H in *;
    cbn [List.length] in *; apply length_zero_iff_nil; lia.
Qed.

End Host.

Lemma parseM3U_wellFormed_witness :
  let content := lit "#EXTM3U" ++ [10] ++ lit "#EXTINF:-1 group-title=" ++ [34]
                 ++ lit "News" ++ [34] ++ lit ",One" ++ [10] ++ lit " http://h/1 " in
  exists c, In c (parseM3U (fun s => s) (fun n => [N.of_nat n]) content) /\
            startsWith (url c) (lit "http") = true /\ group c = Some (lit "News").
Proof.
  cbv zeta.
  match goal with |- exists c, In c ?l /\ _ =>
    destruct l as [|c l'] eqn:E; [vm_compute in E; discriminate|]
  end.
  exists c. split; [now left|]. split.
  - refine (proj2 (wf_url _ _ (parseM3U_wellFormed (fun s => s)
                                 (fun n => [N.of_nat n]) _ c _))).
    rewrite E. now left.
  - vm_compute in E. injection E as <- _. reflexivity.
Defined.

Lemma parseM3U_ids_witness :
  NoDup (map id (parseM3U (fun s => s) (fun n => [N.of_nat n])
                   (lit "#EXTINF:-1,One" ++ [10] ++ lit "http://h/1" ++ [10]
                    ++ lit "#EXTINF:-1,Two" ++ [10] ++ lit "http://h/2"))).
Proof.
  apply (proj2 (parseM3U_ids (fun s => s) (fun n => [N.of_nat n]) _)).
  intros m n H. injection H as H. now apply Nat2N.inj.
Defined.

Lemma parseM3U_count_witness :
  parseM3U (fun s => s) (fun n => [N.of_nat n])
    (lit "#EXTM3U" ++ [10] ++ lit "http://h/1") = [].
Proof.
  apply (proj1 (proj2 (proj2 (parseM3U_count (fun s => s)
                                (fun n => [N.of_nat n]) _)))).
  vm_compute. reflexivity.
Defined.

End M3uParserFacts.

(** ** Loading a playlist *)
Module AppLoadFacts.

Import JsFacts JsMore GatewayFacts AppLoad.

Local Open Scope N_scope.

Section Network.

Variable fetch : jsstring -> option jsstring.

Lemma tryProxies_served ps url : forall asked,
  Forall (fun b => accepted fetch b = false) asked ->
  served fetch (asked ++ proxyAddresses ps url) (tryProxies fetch ps url asked).
Proof.
  induction ps as [|proxyGen ps IH]; intros asked Hasked;
    cbn [tryProxies proxyAddresses flat_map].
  - rewrite app_nil_r. now split.
  - fold (proxyAddresses ps url). destruct (proxyGen url) as [a|]; [|now apply IH].
    cbn [app].
    assert (Hrej : accepted fetch a = false ->
              served fetch (asked ++ a :: proxyAddresses ps url)
                (tryProxies fetch ps url (asked ++ [a]))).
    { intros Ha. replace (asked ++ a :: proxyAddresses ps url)
        with ((asked ++ [a]) ++ proxyAddresses ps url) by (now rewrite <- app_assoc).
      apply IH. apply Forall_app. split; [exact Hasked | now constructor]. }
    unfold accepted in Hrej.
    destruct (fetch a) as [text|] eqn:Ef; [|now apply Hrej].
    destruct (validateContent text) eqn:Ev; [|now apply Hrej].
    exists asked, a, (proxyAddresses ps url). now repeat split.
Qed.

Lemma fetchPlaylist_served url :
  served fetch (candidates url) (fetchPlaylist fetch url).
Proof.
  unfold fetchPlaylist, candidates.
  assert (Hrej : accepted fetch url = false ->
            served fetch (url :: proxyAddresses proxies url)
              (tryProxies fetch proxies url [url])).
  { intros Hu. apply (tryProxies_served proxies url [url]). now constructor. }
  unfold accepted in Hrej.
  destruct (fetch url) as [text|] eqn:Ef; [|now apply Hrej].
  destruct (validateContent text) eqn:Ev; [|now apply Hrej].
  exists [], url, (proxyAddresses proxies url). now repeat split.
Qed.

(** X21.  [fetchPlaylist] returns the answer of the first candidate address
    whose answer passes [validateContent]: the address itself first, then
    the three proxies in their order.  The requests made are the candidates
    up to that one and no further; when it throws, every candidate was
    requested once and none was acceptable. *)
Theorem fetchPlaylist_first_acceptable (url : jsstring) :
  match fetchPlaylist fetch url with
  | (asked, Some text) =>
      exists earlier a rest,
        candidates url = earlier ++ a :: rest /\ asked = earlier ++ [a] /\
        fetch a = Some text /\ validateContent text = true /\
        Forall (fun b => accepted fetch b = false) earlier
  | (asked, None) =>
      asked = candidates url /\ Forall (fun b => accepted fetch b = false) asked
  end.
Proof. exact (fetchPlaylist_served url). Qed.

Lemma candidates_length url :
  List.length (candidates url) = if isWellFormed url then 4%nat else 1%nat.
Proof.
  unfold candidates, proxyAddresses, proxies. cbn [flat_map].
  pose proof (encodeURIComponent_isWellFormed url) as H.
  destruct (encodeURIComponent url) as [q|] eqn:E.
  - rewrite (proj2 H) by now exists q. reflexivity.
  - destruct (isWellFormed url); [|reflexivity].
    destruct (proj1 H eq_refl) as [q Hq]. discriminate.
Qed.

Lemma validateContent_true text :
  validateContent text = true ->
  (50 <= List.length text)%nat /\
  (includes text (lit "<!DOCTYPE html>") = true \/ includes text (lit "<html") = true ->
   includes text (lit "#EXTM3U") = true).
Proof.
  unfold validateContent. destruct (N.ltb_spec (N.of_nat (List.length text)) 50);
    [discriminate|].
  intros Hv. split; [lia|]. intros Hh.
  assert (E : (includes text (lit "<!DOCTYPE html>") || includes text (lit "<html"))%bool
              = true) by (apply orb_true_iff; exact Hh).
  now rewrite E in Hv.
Qed.

(** X22.  A playlist that the address itself serves acceptably costs one
    request and no proxy is asked; never more than four requests are made.
    A failure comes after exactly four requests when the address is well
    formed, so when it holds no surrogate code unit, and after the direct
    request alone when it is not (no proxy address can be built).  A text
    that is returned has at least 50 code units and, if it looks like an
    HTML page, holds the [#EXTM3U] marker. *)
Theorem fetchPlaylist_requests (url : jsstring) :
  (accepted fetch url = true -> fetchPlaylist fetch url = ([url], fetch url)) /\
  (1 <= List.length (fst (fetchPlaylist fetch url)) <= 4)%nat /\
  (snd (fetchPlaylist fetch url) = None ->
   List.length (fst (fetchPlaylist fetch url))
   = if isWellFormed url then 4%nat else 1%nat) /\
  (surrogateFree url -> isWellFormed url = true) /\
  (forall text, snd (fetchPlaylist fetch url) = Some text ->
     (50 <= List.length text)%nat /\
     (includes text (lit "<!DOCTYPE html>") = true \/ includes text (lit "<html") = true ->
      includes text (lit "#EXTM3U") = true)).
Proof.
  pose proof (fetchPlaylist_served url) as H. unfold served in H.
  pose proof (candidates_length url) as Heq.
  assert (Hle : (List.length (candidates url) <= 4)%nat)
    by (rewrite Heq; destruct (isWellFormed url); lia).
  split.
  - unfold accepted, fetchPlaylist. destruct (fetch url) as [text|]; [|discriminate].
    now intros ->.
  - destruct (fetchPlaylist fetch url) as [asked [text|]]; cbn [fst snd].
    + destruct H as (earlier & a & rest & H1 & H2 & H3 & H4 & H5).
      assert (Hlen : (List.length asked <= List.length (candidates url))%nat).
      { rewrite H1, H2, !length_app. cbn [List.length]. lia. }
      split; [rewrite H2 in Hlen |- *; rewrite length_app in *;
              cbn [List.length] in *; lia|].
      split; [discriminate|]. split; [apply surrogateFree_isWellFormed|].
      intros t Ht. injection Ht as <-. now apply validateContent_true.
    + destruct H as [H1 H2]. rewrite H1.
      split; [split; [unfold candidates; cbn; lia | exact Hle]|].
      split; [intros _; exact Heq|].
      split; [apply surrogateFree_isWellFormed | discriminate].
Qed.

End Network.

Lemma startsWith_app s p : startsWith (p ++ s) p = true.
Proof. induction p as [|c p IH]; cbn; [reflexivity|]. now rewrite N.eqb_refl. Qed.

Lemma startsWith_removelast s p :
  startsWith s p = true -> (List.length p < List.length s)%nat ->
  startsWith (removelast s) p = true.
Proof.
  revert s. induction p as [|c p IH]; intros s; [reflexivity|].
  destruct s as [|d s]; cbn [startsWith]; [discriminate|].
  intros H Hl. apply andb_true_iff in H as [Hc Hp]. cbn [List.length] in Hl.
  destruct s as [|e s]; [cbn in Hl; lia|].
  cbn [removelast]. cbn [startsWith]. rewrite Hc. cbn [andb].
  apply (IH (e :: s)); [exact Hp | cbn [List.length] in *; lia].
Qed.

Lemma startsWith_length s p :
  startsWith s p = true -> (List.length p <= List.length s)%nat.
Proof.
  revert s. induction p as [|c p IH]; intros s; cbn; [lia|].
  destruct s as [|d s]; [discriminate|]. intros H.
  apply andb_true_iff in H as [_ H]. apply IH in H. cbn. lia.
Qed.

Lemma startsWith_same_length s p :
  startsWith s p = true -> List.length s = List.length p -> s = p.
Proof.
  revert s. induction p as [|c p IH]; intros s; cbn.
  - destruct s; [reflexivity | discriminate].
  - destruct s as [|d s]; [discriminate|]. intros H Hl.
    apply andb_true_iff in H as [Hc H]. apply N.eqb_eq in Hc. subst d.
    f_equal. apply IH; [exact H | now injection Hl].
Qed.

Lemma endsWith_slash (x : jsstring) :
  endsWith x (lit "/") = true <-> exists y, x = y ++ lit "/".
Proof.
  unfold endsWith. change (rev (lit "/")) with [47]. split.
  - destruct (rev x) as [|c r] eqn:Er; [discriminate|].
    cbn [startsWith]. rewrite andb_true_r. intros E. apply N.eqb_eq in E. subst c.
    exists (rev r). rewrite <- (rev_involutive x), Er. reflexivity.
  - intros [y ->]. rewrite rev_app_distr. reflexivity.
Qed.

Lemma cut_lessOneSlash (full : jsstring) :
  lessOneSlash full (if endsWith full (lit "/") then removelast full else full).
Proof.
  destruct (endsWith full (lit "/")) eqn:E.
  - apply endsWith_slash in E as [y ->]. left. exists y.
    split; [reflexivity | apply removelast_last].
  - right. split; [|reflexivity]. intros y Hy.
    assert (E' : endsWith full (lit "/") = true) by (apply endsWith_slash; now exists y).
    congruence.
Qed.

(** X23.  The Xtream base address is the trimmed input, with "http://" put
    before it exactly when it starts with neither "http://" nor "https://",
    and then less its trailing slash if it has one (one slash, not more).
    Unless the trimmed input is empty or a bare scheme, the result starts
    with "http://" or "https://"; on an empty or blank input the slash of
    the added scheme itself is cut and the result is "http:/". *)
Theorem xtreamBaseUrl_scheme (url : jsstring) :
  (startsWith (trim url) (lit "http://") = true \/
   startsWith (trim url) (lit "https://") = true ->
   lessOneSlash (trim url) (xtreamBaseUrl url)) /\
  (startsWith (trim url) (lit "http://") = false ->
   startsWith (trim url) (lit "https://") = false ->
   lessOneSlash (lit "http://" ++ trim url) (xtreamBaseUrl url)) /\
  (trim url <> [] -> trim url <> lit "http://" -> trim url <> lit "https://" ->
   startsWith (xtreamBaseUrl url) (lit "http://") = true \/
   startsWith (xtreamBaseUrl url) (lit "https://") = true) /\
  (trim url = [] -> xtreamBaseUrl url = lit "http:/").
Proof.
  split; [|split; [|split]].
  - intros H. unfold xtreamBaseUrl. cbv zeta.
    assert (E : (negb (startsWith (trim url) (lit "http://"))
                 && negb (startsWith (trim url) (lit "https://")))%bool = false).
    { destruct H as [-> | ->]; [reflexivity | apply andb_false_r]. }
    rewrite E. apply cut_lessOneSlash.
  - intros E1 E2. unfold xtreamBaseUrl. cbv zeta. rewrite E1, E2. cbn [negb andb].
    apply cut_lessOneSlash.
  - intros Hne H1 H2. unfold xtreamBaseUrl. cbv zeta.
    set (b := if (negb (startsWith (trim url) (lit "http://"))
                  && negb (startsWith (trim url) (lit "https://")))%bool
              then lit "http://" ++ trim url else trim url).
    assert (Hb : (startsWith b (lit "http://") = true
                  /\ (List.length (lit "http://") < List.length b)%nat)
                 \/ (startsWith b (lit "https://") = true
                     /\ (List.length (lit "https://") < List.length b)%nat)).
    { subst b. destruct (startsWith (trim url) (lit "http://")) eqn:E1; cbn [negb andb].
      - left. split; [exact E1|]. pose proof (startsWith_length _ _ E1) as Hl.
        destruct (Nat.eq_dec (List.length (trim url)) (List.length (lit "http://")))
          as [He | Hn]; [|lia].
        exfalso. apply H1. now apply startsWith_same_length.
      - destruct (startsWith (trim url) (lit "https://")) eqn:E2; cbn [negb].
        + right. split; [exact E2|]. pose proof (startsWith_length _ _ E2) as Hl.
          destruct (Nat.eq_dec (List.length (trim url)) (List.length (lit "https://")))
            as [He | Hn]; [|lia].
          exfalso. apply H2. now apply startsWith_same_length.
        + left. split; [apply startsWith_app|]. rewrite length_app.
          destruct (trim url); [congruence | cbn; lia]. }
    destruct (endsWith b (lit "/")).
    + destruct Hb as [[Hs Hl] | [Hs Hl]];
        [left | right]; now apply startsWith_removelast.
    + destruct Hb as [[Hs _] | [Hs _]]; [now left | now right].
  - intros H. unfold xtreamBaseUrl. rewrite H. reflexivity.
Qed.

Lemma fetchPlaylist_requests_witness :
  let page := lit "#EXTM3U ......................................................" in
  let fetch := fun a : jsstring => if jseq a (lit "http://h/list") then Some page else None in
  fetchPlaylist fetch (lit "http://h/list")
  = ([lit "http://h/list"], fetch (lit "http://h/list")).
Proof.
  intros page fetch.
  apply (proj1 (fetchPlaylist_requests fetch (lit "http://h/list"))).
  vm_compute. reflexivity.
Defined.

Lemma xtreamBaseUrl_scheme_witness :
  lessOneSlash (lit "http://host:8080/") (xtreamBaseUrl (lit " host:8080/ ")) /\
  xtreamBaseUrl (lit " host:8080/ ") = lit "http://host:8080" /\
  lessOneSlash (lit "https://host/") (xtreamBaseUrl (lit "https://host/")).
Proof.
  split; [|split].
  - apply (proj1 (proj2 (xtreamBaseUrl_scheme (lit " host:8080/ "))));
      vm_compute; reflexivity.
  - vm_compute. reflexivity.
  - apply (proj1 (xtreamBaseUrl_scheme (lit "https://host/"))).
    right. vm_compute. reflexivity.
Defined.

End AppLoadFacts.

(** ** The category list and the sort button *)
Module ChannelListFacts.

Import JsFacts JsMore Types Sorting SortingFacts SeriesShape SeriesShapeFacts
       ChannelList Dashboard.

(** *** Pinning *)

Lemma arrayIncludes_In l x : arrayIncludes l x = true <-> In x l.
Proof. apply existsb_jseq_In. Qed.

Lemma filter_other_In (l : list jsstring) x c :
  In c (filter (fun y => negb (jseq y x)) l) <-> In c l /\ c <> x.
Proof.
  rewrite filter_In, negb_true_iff, jseq_false_iff. reflexivity.
Qed.

Lemma filter_other_id (l : list jsstring) x :
  ~ In x l -> filter (fun y => negb (jseq y x)) l = l.
Proof.
  induction l as [|y l IH]; cbn; [reflexivity|]. intros H.
  destruct (jseq y x) eqn:E.
  - apply jseq_true_iff in E. exfalso. apply H. now left.
  - cbn. f_equal. apply IH. intros H'. apply H. now right.
Qed.

(** X24.  [togglePin] flips the membership of the category and of no other:
    a pinned category is removed (every copy of it), an unpinned one goes to
    the end.  A list without duplicates stays so, and pinning a category and
    unpinning it gives the old list back. *)
Theorem togglePin_flips (pinnedCategories : list jsstring) (category : jsstring) :
  (forall c, In c (togglePin pinnedCategories category)
             <-> (c <> category /\ In c pinnedCategories)
                 \/ (c = category /\ ~ In category pinnedCategories)) /\
  (NoDup pinnedCategories -> NoDup (togglePin pinnedCategories category)) /\
  (~ In category pinnedCategories ->
   togglePin pinnedCategories category = pinnedCategories ++ [category] /\
   togglePin (togglePin pinnedCategories category) category = pinnedCategories).
Proof.
  assert (Hcase : (In category pinnedCategories /\
                   togglePin pinnedCategories category
                   = filter (fun c => negb (jseq c category)) pinnedCategories)
                  \/ (~ In category pinnedCategories /\
                      togglePin pinnedCategories category
                      = pinnedCategories ++ [category])).
  { unfold togglePin. destruct (arrayIncludes pinnedCategories category) eqn:E.
    - left. split; [now apply arrayIncludes_In | reflexivity].
    - right. split; [|reflexivity]. intros H. apply arrayIncludes_In in H. congruence. }
  destruct Hcase as [[Hin E] | [Hn E]]; rewrite E; clear E.
  - split; [|split].
    + intros c. rewrite filter_other_In. intuition.
    + intros H. now apply NoDup_filter.
    + intros H. contradiction.
  - split; [|split].
    + intros c. rewrite in_app_iff. cbn. split.
      * intros [H | [<- | []]]; [left | right]; split; try assumption; try reflexivity.
        intros ->. contradiction.
      * intros [[_ H] | [-> _]]; [left | right; left]; auto.
    + intros H. apply NoDup_app; [assumption | repeat constructor; intros [] |].
      intros x Hx [<- | []]. contradiction.
    + intros _. split; [reflexivity|]. unfold togglePin.
      assert (E' : arrayIncludes (pinnedCategories ++ [category]) category = true).
      { apply arrayIncludes_In. apply in_or_app. right. now left. }
      rewrite E', filter_app, (filter_other_id _ _ Hn). cbn.
      rewrite jseq_refl. cbn. apply app_nil_r.
Qed.

(** *** The categories *)

Lemma uniqueGroups_firstSeen typeFiltered :
  uniqueGroups typeFiltered = firstSeen (map groupLabel typeFiltered).
Proof.
  unfold uniqueGroups, firstSeen. generalize (@nil jsstring) as acc.
  induction typeFiltered as [|c l IH]; intros acc; cbn; [reflexivity | apply IH].
Qed.

Lemma StronglySorted_strict (l : list jsstring) :
  StronglySorted (fun a b => compareCodeUnits a b <> Gt) l -> NoDup l ->
  StronglySorted (fun a b => compareCodeUnits a b = Lt) l.
Proof.
  induction 1 as [|x l Hs IH Hx]; intros Hnd; constructor;
    inversion Hnd as [|? ? Hn Hd]; subst.
  - now apply IH.
  - apply Forall_forall. intros y Hy. rewrite Forall_forall in Hx.
    specialize (Hx y Hy). destruct (compareCodeUnits x y) eqn:E; try congruence.
    apply compareCodeUnits_Eq in E. subst y. contradiction.
Qed.

Lemma StronglySorted_filter {A : Type} (R : A -> A -> Prop) (p : A -> bool) l :
  StronglySorted R l -> StronglySorted R (filter p l).
Proof.
  induction 1 as [|x l Hs IH Hx]; cbn; [constructor|].
  destruct (p x); [|exact IH]. constructor; [exact IH|].
  apply Forall_forall. intros y Hy. apply filter_In in Hy as [Hy _].
  rewrite Forall_forall in Hx. now apply Hx.
Qed.

Lemma NoDup_partition {A : Type} (p : A -> bool) (l : list A) :
  NoDup l -> NoDup (filter p l ++ filter (fun x => negb (p x)) l).
Proof.
  intros H. apply NoDup_app; try now apply NoDup_filter.
  intros x H1 H2. apply filter_In in H1 as [_ H1]. apply filter_In in H2 as [_ H2].
  rewrite H1 in H2. discriminate.
Qed.

Lemma In_partition {A : Type} (p : A -> bool) (l : list A) x :
  In x (filter p l ++ filter (fun x => negb (p x)) l) <-> In x l.
Proof.
  rewrite in_app_iff, !filter_In. destruct (p x); cbn; intuition congruence.
Qed.

(** X25.  The category list is "All", then the pinned groups, then the
    others; each of the two parts is in strictly ascending code unit order,
    and together they hold each group of the shown channels exactly once
    ("Uncategorized" standing for a missing or empty group).  Hence the
    whole list has a duplicate exactly when some channel's group is itself
    called "All". *)
Theorem sortedCategories_shape (typeFiltered : list Channel)
        (pinnedCategories : list jsstring) :
  exists pinnedPart otherPart,
    sortedCategories typeFiltered pinnedCategories
    = lit "All" :: pinnedPart ++ otherPart /\
    StronglySorted (fun a b => compareCodeUnits a b = Lt) pinnedPart /\
    StronglySorted (fun a b => compareCodeUnits a b = Lt) otherPart /\
    Forall (fun g => In g pinnedCategories) pinnedPart /\
    Forall (fun g => ~ In g pinnedCategories) otherPart /\
    NoDup (pinnedPart ++ otherPart) /\
    (forall g, In g (pinnedPart ++ otherPart)
               <-> exists c, In c typeFiltered /\ groupLabel c = g) /\
    (NoDup (sortedCategories typeFiltered pinnedCategories)
     <-> ~ exists c, In c typeFiltered /\ groupLabel c = lit "All").
Proof.
  unfold sortedCategories. cbv zeta.
  set (allCats := sort compareCodeUnits (uniqueGroups typeFiltered)).
  assert (Hperm : Permutation (uniqueGroups typeFiltered) allCats)
    by apply sort_perm.
  assert (Hnd : NoDup allCats).
  { apply (Permutation_NoDup Hperm). rewrite uniqueGroups_firstSeen.
    apply firstSeen_NoDup. }
  assert (Hsorted : StronglySorted (fun a b => compareCodeUnits a b = Lt) allCats).
  { apply StronglySorted_strict; [|exact Hnd].
    apply sort_sorted. exact compareCodeUnits_consistent. }
  assert (Hin : forall g, In g allCats
                          <-> exists c, In c typeFiltered /\ groupLabel c = g).
  { intros g. split.
    - intros H. apply (Permutation_in _ (Permutation_sym Hperm)) in H.
      rewrite uniqueGroups_firstSeen in H. apply (proj1 (firstSeen_In _ _)) in H.
      apply in_map_iff in H as (c & H1 & H2). now exists c.
    - intros (c & H1 & H2). apply (Permutation_in _ Hperm).
      rewrite uniqueGroups_firstSeen. apply firstSeen_In.
      apply in_map_iff. now exists c. }
  set (p := fun c => arrayIncludes pinnedCategories c).
  assert (Hall : forall g, In g (filter p allCats ++ filter (fun c => negb (p c)) allCats)
                           <-> exists c, In c typeFiltered /\ groupLabel c = g).
  { intros g. rewrite In_partition. apply Hin. }
  exists (filter p allCats), (filter (fun c => negb (p c)) allCats).
  split; [reflexivity|].
  split; [now apply StronglySorted_filter|].
  split; [now apply StronglySorted_filter|].
  split.
  { apply Forall_forall. intros g Hg. apply filter_In in Hg as [_ Hg].
    now apply arrayIncludes_In. }
  split.
  { apply Forall_forall. intros g Hg. apply filter_In in Hg as [_ Hg].
    intros H. apply arrayIncludes_In in H. unfold p in Hg. rewrite H in Hg.
    discriminate. }
  split; [now apply NoDup_partition|].
  split; [exact Hall|].
  split.
  - intros H. inversion H as [|? ? Hn _]; subst. intros Hc. apply Hn.
    now apply Hall.
  - intros H. constructor; [|now apply NoDup_partition].
    intros Hc. apply H. now apply Hall.
Qed.

(** *** The sort button *)

(** X26.  [toggleSort] never yields an undefined sort order: from each of
    the five orders it moves to another one, no two orders share a
    successor, and five presses return to the start after going through all
    five, in the order DEFAULT, A_Z, Z_A, RECENT, OLD. *)
Theorem toggleSort_cycles (o : SortOption) :
  (exists o', toggleSort o = Some o' /\ o' <> o) /\
  (forall o2, toggleSort o2 = toggleSort o -> o2 = o) /\
  (exists a b c d,
     toggleSort o = Some a /\ toggleSort a = Some b /\ toggleSort b = Some c /\
     toggleSort c = Some d /\ toggleSort d = Some o /\ NoDup [o; a; b; c; d]) /\
  match nth_error cycle (Z.to_nat (indexOf cycle o)) with
  | Some x => x = o
  | None => False
  end.
Proof.
  split; [|split; [|split]].
  - destruct o; eexists; (split; [reflexivity | discriminate]).
  - intros o2. destruct o, o2; vm_compute; congruence.
  - destruct o; do 4 eexists; repeat (split; [reflexivity|]);
      repeat constructor; cbn; intuition discriminate.
  - destruct o; reflexivity.
Qed.

Lemma toggleSort_cycles_witness :
  exists o', toggleSort OLD = Some o' /\ o' <> OLD.
Proof. exact (proj1 (toggleSort_cycles OLD)). Defined.

Lemma togglePin_flips_witness :
  togglePin (togglePin [lit "News"] (lit "Sport")) (lit "Sport") = [lit "News"].
Proof.
  apply (proj2 (proj2 (togglePin_flips [lit "News"] (lit "Sport")))).
  vm_compute. intuition discriminate.
Defined.

End ChannelListFacts.

(** ** Categories offered and categories served *)
Module BrowseFacts.

Import JsFacts JsMore Types DataProcessor Sorting SortingFacts SeriesShape
       SeriesShapeFacts ChannelList ChannelListFacts Dashboard.

Lemma groupLabel_nonempty c : groupLabel c <> [].
Proof. unfold groupLabel. destruct (group c) as [[|x g]|]; discriminate. Qed.

Lemma groupIs_label c : truthy (group c) = true -> groupIs c (groupLabel c) = true.
Proof.
  unfold truthy, groupIs, groupLabel. destruct (group c) as [[|x g]|]; try discriminate.
  intros _. apply jseq_refl.
Qed.

Lemma groupIs_falsy c cat :
  truthy (group c) = false -> cat <> [] -> groupIs c cat = false.
Proof.
  unfold truthy, groupIs. destruct (group c) as [[|x g]|]; try discriminate;
    [|reflexivity].
  intros _ H. apply jseq_false_iff. congruence.
Qed.

Lemma labels_In (l : list Channel) g :
  In g (sort compareCodeUnits (fold_left (fun set c => setAdd set (groupLabel c)) l []))
  <-> exists c, In c l /\ groupLabel c = g.
Proof.
  fold (uniqueGroups l). rewrite uniqueGroups_firstSeen. split.
  - intros H. apply (Permutation_in _ (Permutation_sym (sort_perm _ _))) in H.
    apply (proj1 (firstSeen_In _ _)) in H.
    apply in_map_iff in H as (c & H1 & H2). now exists c.
  - intros (c & H1 & H2). apply (Permutation_in _ (sort_perm _ _)).
    apply firstSeen_In. apply in_map_iff. now exists c.
Qed.

Lemma sortedCategories_In typeFiltered pinnedCategories g :
  In g (sortedCategories typeFiltered pinnedCategories)
  <-> g = lit "All" \/ exists c, In c typeFiltered /\ groupLabel c = g.
Proof.
  unfold sortedCategories. cbv zeta. cbn [In].
  rewrite (In_partition (fun c => arrayIncludes pinnedCategories c)).
  unfold uniqueGroups. rewrite labels_In. intuition.
Qed.

Lemma sortChannels_In localeCompare items o c :
  In c (sortChannels localeCompare items o) <-> In c items.
Proof.
  assert (H : Permutation items (sortChannels localeCompare items o)).
  { destruct o; cbn; try reflexivity; try apply sort_perm. apply Permutation_rev. }
  split; [apply (Permutation_in _ (Permutation_sym H)) | apply (Permutation_in _ H)].
Qed.

Lemma sortSeries_In localeCompare items o s :
  In s (sortSeries localeCompare items o) <-> In s items.
Proof.
  assert (H : Permutation items (sortSeries localeCompare items o)).
  { destruct o; cbn; try reflexivity; try apply sort_perm. apply Permutation_rev. }
  split; [apply (Permutation_in _ (Permutation_sym H)) | apply (Permutation_in _ H)].
Qed.

Lemma ChannelItem_In c l : In (ChannelItem c) (map ChannelItem l) <-> In c l.
Proof.
  rewrite in_map_iff. split; [intros (x & E & H); now injection E as -> |].
  intros H. now exists c.
Qed.

Lemma SeriesItem_In s l : In (SeriesItem s) (map SeriesItem l) <-> In s l.
Proof.
  rewrite in_map_iff. split; [intros (x & E & H); now injection E as -> |].
  intros H. now exists s.
Qed.

Section ListHost.

Variable toLowerCase : jsstring -> jsstring.

Lemma finalFilteredChannels_In typeFiltered cat c :
  In c (finalFilteredChannels toLowerCase typeFiltered cat [])
  <-> In c typeFiltered /\ (cat = lit "All" \/ groupIs c cat = true).
Proof.
  unfold finalFilteredChannels. cbn [isEmpty]. rewrite andb_true_r.
  destruct (jseq cat (lit "All")) eqn:E.
  - apply jseq_true_iff in E. intuition.
  - apply jseq_false_iff in E. rewrite filter_In. cbv zeta. cbn [orb].
    destruct (groupIs c cat); cbn; intuition congruence.
Qed.

(** X27.  In the channel list every shown channel has its group among the
    categories offered.  Choosing that category shows the channel when its
    group is a non-empty string; a channel whose group is missing or empty
    is offered under "Uncategorized" but shown under no category except
    "All". *)
Theorem category_coverage (channels : list Channel) (selected : ContentType)
        (pinnedCategories : list jsstring) (c : Channel) :
  let typeFiltered := typeFilteredChannels channels selected in
  In c typeFiltered ->
  In (groupLabel c) (sortedCategories typeFiltered pinnedCategories) /\
  (truthy (group c) = true ->
   In c (finalFilteredChannels toLowerCase typeFiltered (groupLabel c) [])) /\
  (truthy (group c) = false ->
   groupLabel c = lit "Uncategorized" /\
   forall cat, In cat (sortedCategories typeFiltered pinnedCategories) ->
     (In c (finalFilteredChannels toLowerCase typeFiltered cat []) <-> cat = lit "All")).
Proof.
  cbv zeta. intros Hc. split; [|split].
  - apply sortedCategories_In. right. now exists c.
  - intros Ht. apply finalFilteredChannels_In. split; [exact Hc|].
    right. now apply groupIs_label.
  - intros Hf. split.
    { unfold groupLabel, truthy in *. now destruct (group c) as [[|x g]|]. }
    intros cat Hcat. rewrite finalFilteredChannels_In.
    apply sortedCategories_In in Hcat as [-> | (c' & _ & <-)].
    + intuition.
    + rewrite (groupIs_falsy c _ Hf (groupLabel_nonempty c')). intuition congruence.
Qed.

End ListHost.

Lemma categories_series_In channels g :
  In g (categories channels TabSERIES)
  <-> g = lit "All" \/ exists s, In s (allSeries channels) /\ sgroup s = g.
Proof.
  unfold categories. cbv zeta. cbn [In].
  assert (E : fold_left (fun set s => setAdd set (sgroup s)) (allSeries channels) []
              = firstSeen (map sgroup (allSeries channels))).
  { unfold firstSeen. generalize (@nil jsstring) as acc.
    induction (allSeries channels) as [|s l IH]; intros acc; cbn;
      [reflexivity | apply IH]. }
  rewrite E. split.
  - intros [H | H]; [now left | right].
    apply (Permutation_in _ (Permutation_sym (sort_perm _ _))) in H.
    apply (proj1 (firstSeen_In _ _)) in H.
    apply in_map_iff in H as (s & H1 & H2). now exists s.
  - intros [H | (s & H1 & H2)]; [now left | right].
    apply (Permutation_in _ (sort_perm _ _)). apply firstSeen_In.
    apply in_map_iff. now exists s.
Qed.

Lemma categories_channels_In channels tab g :
  tab = TabLIVE \/ tab = TabMOVIE ->
  (In g (categories channels tab)
   <-> g = lit "All" \/ exists c, In c (baseData channels tab) /\ groupLabel c = g).
Proof.
  intros [-> | ->]; unfold categories; cbv zeta; cbn [In]; rewrite labels_In;
    intuition.
Qed.

Section DashboardHost.

Variable toLowerCase : jsstring -> jsstring.
Variable localeCompare : jsstring -> jsstring -> comparison.

(** X28.  On the dashboard every series is offered under its group and
    shown when that group is chosen, whatever the sort order.  Channels of
    the Live and Movie tabs are offered under their group too, but one whose
    group is missing or empty is shown under no offered category except
    "All". *)
Theorem dashboard_coverage (channels : list Channel) (searchQuery : jsstring)
        (sortOrder : SortOption) :
  (forall s, In s (allSeries channels) ->
     In (sgroup s) (categories channels TabSERIES) /\
     In (SeriesItem s)
        (filteredItems toLowerCase localeCompare channels TabSERIES (sgroup s)
           searchQuery sortOrder)) /\
  (forall tab c, tab = TabLIVE \/ tab = TabMOVIE -> In c (baseData channels tab) ->
     In (groupLabel c) (categories channels tab) /\
     (truthy (group c) = true ->
      In (ChannelItem c)
         (filteredItems toLowerCase localeCompare channels tab (groupLabel c)
            searchQuery sortOrder)) /\
     (truthy (group c) = false ->
      forall cat, In cat (categories channels tab) ->
        (In (ChannelItem c)
            (filteredItems toLowerCase localeCompare channels tab cat
               searchQuery sortOrder)
         <-> cat = lit "All"))).
Proof.
  split.
  - intros s Hs. split; [apply categories_series_In; right; now exists s|].
    unfold filteredItems. cbv zeta. rewrite SeriesItem_In, sortSeries_In.
    destruct (jseq (sgroup s) (lit "All")); cbn [negb]; [exact Hs|].
    apply filter_In. split; [exact Hs | apply jseq_refl].
  - intros tab c Htab Hc.
    assert (Hitems : forall cat,
              In (ChannelItem c)
                 (filteredItems toLowerCase localeCompare channels tab cat
                    searchQuery sortOrder)
              <-> cat = lit "All" \/ groupIs c cat = true).
    { intros cat.
      assert (E : filteredItems toLowerCase localeCompare channels tab cat
                    searchQuery sortOrder
                  = map ChannelItem
                      (sortChannels localeCompare
                         (if negb (jseq cat (lit "All"))
                          then filter (fun c => groupIs c cat) (baseData channels tab)
                          else baseData channels tab) sortOrder))
        by (destruct Htab as [-> | ->]; reflexivity).
      rewrite E, ChannelItem_In, sortChannels_In.
      destruct (jseq cat (lit "All")) eqn:Ec; cbn [negb].
      - apply jseq_true_iff in Ec. intuition.
      - apply jseq_false_iff in Ec. rewrite filter_In. intuition congruence. }
    split; [apply (categories_channels_In _ _ _ Htab); right; now exists c|].
    split.
    + intros Ht. apply Hitems. right. now apply groupIs_label.
    + intros Hf cat Hcat. rewrite Hitems.
      apply (categories_channels_In _ _ _ Htab) in Hcat as [-> | (c' & _ & <-)].
      * intuition.
      * rewrite (groupIs_falsy c _ Hf (groupLabel_nonempty c')). intuition congruence.
Qed.

End DashboardHost.

Lemma category_coverage_witness :
  let c := mkChannel (lit "1") (lit "One") None (Some []) (lit "http://h/1") LIVE in
  In (lit "Uncategorized") (sortedCategories (typeFilteredChannels [c] LIVE) []) /\
  ~ In c (finalFilteredChannels (fun s => s) (typeFilteredChannels [c] LIVE)
            (lit "Uncategorized") []).
Proof.
  cbv zeta.
  set (c := mkChannel (lit "1") (lit "One") None (Some []) (lit "http://h/1") LIVE).
  assert (Hc : In c (typeFilteredChannels [c] LIVE)) by (now left).
  destruct (category_coverage (fun s => s) [c] LIVE [] c Hc) as (H1 & _ & H3).
  split; [exact H1|].
  destruct (H3 eq_refl) as [_ H]. intros Hin.
  apply (H (lit "Uncategorized") H1) in Hin. vm_compute in Hin. discriminate.
Defined.

Lemma dashboard_coverage_witness :
  let c := mkChannel (lit "1") (lit "Show S01E02") None (Some []) (lit "http://h/1")
             SERIES in
  exists s, In s (allSeries [c]) /\
            In (SeriesItem s)
               (filteredItems (fun x => x) compareCodeUnits [c] TabSERIES
                  (lit "Uncategorized") [] DEFAULT).
Proof.
  cbv zeta.
  set (c := mkChannel (lit "1") (lit "Show S01E02") None (Some []) (lit "http://h/1")
              SERIES).
  destruct (allSeries [c]) as [|s l] eqn:E; [vm_compute in E; discriminate|].
  assert (Hs : In s (allSeries [c])) by (rewrite E; now left).
  exists s. split; [rewrite <- E; exact Hs|].
  destruct (proj1 (dashboard_coverage (fun x => x) compareCodeUnits [c] [] DEFAULT)
              s Hs) as [_ H].
  assert (Eg : sgroup s = lit "Uncategorized")
    by (vm_compute in E; injection E as <- _; reflexivity).
  rewrite Eg in H. exact H.
Defined.

End BrowseFacts.
